(** * Depth chart interaction engine: a shallow embedding

    This development embeds the interaction code of the depth chart
    ([src/feature/depth-chart/ui.ts]) and the horizontal axis
    ([HorizontalAxis]) and states their properties.

    Conventions.
    - Pixel coordinates, prices and volumes of the pointer handler are
      JavaScript numbers; they are embedded as exact rationals ([Q]).
      Rounding, overflow and signed zeros are not part of the model; the
      values [NaN] and [Infinity] are modelled where the code can produce
      them from well-formed input (label parsing, the plot width).
    - The zoom gestures use [Math.sqrt] and [Math.pow]; the positions of
      the touches are real numbers ([R]), and the transform is a real
      number, [Infinity], [-Infinity] or [NaN], which a division by zero
      in the pinch can produce.
    - JavaScript objects that are shared by reference (the text nodes of the
      axis) live in an explicit store and are named by their address.
    - An array access [a[i]] is a list lookup [a !! i]; [None] stands for
      [undefined]. *)

From Stdlib Require Import QArith Qabs Qround Lqa Lra Reals ZArith Lia List Sorted.
From Stdlib Require Import Ascii String DecimalString.
From stdpp Require Import base option list gmap strings fin_maps.

Set Default Proof Using "Type".

(** Linear arithmetic over the rationals and over the reals. *)
Ltac lraQ := Lqa.lra.
Ltac lraR := Lra.lra.

(** Splits every absolute value of the goal into its two cases. *)
Ltac qabs :=
  repeat match goal with
         | |- context [Qabs ?e] => pattern (Qabs e); apply Qabs_case; intros
         end;
  lraQ.

(** ** Binary searches over the price array *)

Module Bisect.

Local Open Scope Q_scope.

(** [a < b] on numbers, as a boolean. *)
Definition Qltb (a b : Q) : bool := negb (Qle_bool b a).

(** The comparison of an array element with the searched value. A missing
    element ([undefined]) compares as [NaN], so both tests fail on it; the
    searches below stay within the array and never read one. *)
Definition elem_test (test : Q -> Q -> bool) (a : list Q) (mid : nat) (x : Q) : bool :=
  match a !! mid with
  | Some v => test v x
  | None => false
  end.

(** The loop shared by d3-array's [bisectLeft] and [bisectRight]
    ([bisector(ascending).left] and [.right]):
    [while (lo < hi) { mid = (lo + hi) >>> 1;
                       if (test(a[mid], x)) lo = mid + 1; else hi = mid; }].
    The interval [hi - lo] shrinks at every turn, so [fuel = hi - lo]
    turns are always enough. *)
Fixpoint bisect_loop (test : Q -> Q -> bool) (a : list Q) (x : Q)
    (fuel lo hi : nat) : nat :=
  match fuel with
  | O => lo
  | S fuel' =>
      if (lo <? hi)%nat then
        let mid := ((lo + hi) / 2)%nat in
        if elem_test test a mid x
        then bisect_loop test a x fuel' (mid + 1)%nat hi
        else bisect_loop test a x fuel' lo mid
      else lo
  end.

(** [bisectLeft(a, x, lo, hi)]: moves right while [a[mid] < x]. *)
Definition bisectLeft_in (a : list Q) (x : Q) (lo hi : nat) : nat :=
  bisect_loop Qltb a x (hi - lo) lo hi.

(** [bisectRight(a, x, lo, hi)]: moves right while [a[mid] <= x]. *)
Definition bisectRight_in (a : list Q) (x : Q) (lo hi : nat) : nat :=
  bisect_loop Qle_bool a x (hi - lo) lo hi.

(** The calls of the pointer handler leave [lo = 0] and [hi = a.length]. *)
Definition bisectLeft (a : list Q) (x : Q) : nat := bisectLeft_in a x 0 (length a).
Definition bisectRight (a : list Q) (x : Q) : nat := bisectRight_in a x 0 (length a).

(** Modelled from the spec: [bisectCenter] of [util/math/array], which the
    pointer handler imports and whose file is not part of the sources at
    hand. The spec calls it a centered binary search (bisect to the
    nearest entry, not merely bisect-left) that returns the index
    minimising [|prices[i] - x|], ties broken toward the lower index, and
    the last index for an [x] beyond the last price. The search below is a
    bisect-left over all entries but the last, followed by the choice
    between the entry found and its left neighbour; on a tie the left
    (lower) one is taken. *)
Definition bisectCenter (a : list Q) (x : Q) : nat :=
  let i := bisectLeft_in a x 0 (length a - 1) in
  match i with
  | O => i
  | S p =>
      match a !! p, a !! i with
      | Some l, Some r => if Qle_bool (x - l) (r - x) then p else i
      | _, _ => i
      end
  end.

(** The entries of [a] that pass [test] against [x] form a prefix of [a]:
    what an ascending array gives for both searches. *)
Definition prefix_test (test : Q -> Q -> bool) (a : list Q) (x : Q) : Prop :=
  forall i j vi vj, (i <= j)%nat -> a !! i = Some vi -> a !! j = Some vj ->
    test vj x = true -> test vi x = true.

(** The price array of the running example: four points at the pixels
    10, 20, 30 and 40. *)
Definition example_prices : list Q := [10; 20; 30; 40].

End Bisect.

(** ** The horizontal axis *)

(** A text node of the rendering backend, with the attributes the axis
    sets. *)
Module Text.
Record t : Type := make {
  text : string;
  fill : N;
  fontFamily : string;
  fontSize : Q;
  x : Q;
  y : Q;
  anchor : Q * Q
}.
End Text.

(** The part of a d3 linear scale that the chart uses: the scale as a
    function, [scale.invert], [scale.domain()], [scale.ticks(count)] and
    [scale.tickFormat(count)]. *)
Module Scale.
Record t : Type := make {
  apply : Q -> Q;
  invert : Q -> Q;
  domain : Q * Q;
  ticks : Q -> list Q;
  tickFormat : Q -> Q -> string
}.
End Scale.

Module HorizontalAxis.

Local Open Scope Q_scope.

(** Text nodes are objects: the caches and the child list hold references
    to them. [addr] is the address of a node in the object store. *)
Definition addr := nat.

(** The axis: its two caches (the fields [nodeByKeyValue] and
    [tmByKeyValue]), the children of the container it extends, and the
    store of the text nodes created so far ([next] is the first unused
    address). *)
Record t : Type := make {
  nodeByKeyValue : gmap string addr;
  tmByKeyValue : gmap string addr;
  children : list addr;
  store : gmap addr Text.t;
  next : addr
}.

(** [new HorizontalAxis()]. *)
Definition create : t :=
  {| nodeByKeyValue := ∅; tmByKeyValue := ∅; children := []; store := ∅; next := 0%nat |}.

(** [new Text(...)]: a fresh object in the store. *)
Definition new_Text (node : Text.t) (axis : t) : addr * t :=
  (next axis,
   {| nodeByKeyValue := nodeByKeyValue axis;
      tmByKeyValue := tmByKeyValue axis;
      children := children axis;
      store := <[next axis := node]> (store axis);
      next := S (next axis) |}).

(** [Container.addChild]: appends the node to the children. *)
Definition addChild (child : addr) (axis : t) : t :=
  {| nodeByKeyValue := nodeByKeyValue axis;
     tmByKeyValue := tmByKeyValue axis;
     children := children axis ++ [child];
     store := store axis;
     next := next axis |}.

Fixpoint remove_first (child : addr) (l : list addr) : list addr :=
  match l with
  | [] => []
  | c :: l' => if Nat.eqb c child then l' else c :: remove_first child l'
  end.

(** [Container.removeChild]: takes the node out of the children; a value
    that is not a child ([undefined] included) changes nothing. *)
Definition removeChild (child : option addr) (axis : t) : t :=
  match child with
  | Some c =>
      {| nodeByKeyValue := nodeByKeyValue axis;
         tmByKeyValue := tmByKeyValue axis;
         children := remove_first c (children axis);
         store := store axis;
         next := next axis |}
  | None => axis
  end.

Definition set_nodeByKeyValue (m : gmap string addr) (axis : t) : t :=
  {| nodeByKeyValue := m;
     tmByKeyValue := tmByKeyValue axis;
     children := children axis;
     store := store axis;
     next := next axis |}.

Definition set_tmByKeyValue (m : gmap string addr) (axis : t) : t :=
  {| nodeByKeyValue := nodeByKeyValue axis;
     tmByKeyValue := m;
     children := children axis;
     store := store axis;
     next := next axis |}.

(** An assignment to the attributes of the node at an address. *)
Definition mutate (a : addr) (f : Text.t -> Text.t) (axis : t) : t :=
  {| nodeByKeyValue := nodeByKeyValue axis;
     tmByKeyValue := tmByKeyValue axis;
     children := children axis;
     store := alter f a (store axis);
     next := next axis |}.

(** The key of a tick mark in [tmByKeyValue]: the label followed by a
    bar. *)
Definition tm_key (label : string) : string := label +:+ "|".

(** Whether a key ends with a bar, as every tick mark key does. *)
Fixpoint ends_with_bar (k : string) : bool :=
  match k with
  | EmptyString => false
  | String c EmptyString => Ascii.eqb c "|"
  | String _ k' => ends_with_bar k'
  end.

Section Update.

(** [AXIS_HEIGHT] and [FONT_SIZE] are constants of the chart module. *)
Variables (AXIS_HEIGHT FONT_SIZE : Q).

(** The arguments of one call of [update]. *)
Variables (scale : Scale.t) (width height resolution : Q) (textSecondary : N).

Definition numTicks : Q := width / resolution / 200.
Definition ticks : list Q := Scale.ticks scale numTicks.
Definition tickFormat : Q -> string := Scale.tickFormat scale numTicks.

(** [ticks.filter((tick) => !this.nodeByKeyValue.has(tickFormat(tick)))] *)
Definition enter (axis : t) : list Q :=
  filter (fun tick => ¬ is_Some (nodeByKeyValue axis !! tickFormat tick)) ticks.

(** [ticks.filter((tick) => this.nodeByKeyValue.has(tickFormat(tick)))] *)
Definition update_ticks (axis : t) : list Q :=
  filter (fun tick => is_Some (nodeByKeyValue axis !! tickFormat tick)) ticks.

(** [[...this.nodeByKeyValue.keys()].filter(
       (node) => !(ticks.map(tickFormat).indexOf(node) !== -1))].
    The keys come in the order of the key set here, in insertion order
    in JavaScript; the turns of the loop over them act on different keys
    and different nodes. *)
Definition exit (axis : t) : list string :=
  filter (fun node => node ∉ tickFormat <$> ticks)
    (elements (dom (nodeByKeyValue axis))).

(** The body of the loop over [enter]. *)
Definition enter_step (axis : t) (node : Q) : t :=
  let '(text, axis) :=
    new_Text {| Text.text := tickFormat node; Text.fill := textSecondary;
                Text.fontFamily := "monospace"; Text.fontSize := FONT_SIZE;
                Text.x := Scale.apply scale node;
                Text.y := height - (resolution * AXIS_HEIGHT) / 2 + 5;
                Text.anchor := (1 # 2, 1 # 2) |} axis in
  let '(tickMark, axis) :=
    new_Text {| Text.text := "|"; Text.fill := textSecondary;
                Text.fontFamily := "monospace"; Text.fontSize := 5;
                Text.x := Scale.apply scale node;
                Text.y := height - (resolution * AXIS_HEIGHT) / 2 - 5;
                Text.anchor := (1 # 2, 1 # 2) |} axis in
  let axis := set_nodeByKeyValue (<[tickFormat node := text]> (nodeByKeyValue axis)) axis in
  let axis := set_tmByKeyValue (<[tm_key (tickFormat node) := tickMark]> (tmByKeyValue axis)) axis in
  let axis := addChild text axis in
  addChild tickMark axis.

(** The body of the loop over [update]. The two lookups carry a non-null
    assertion; writing to a node that is [undefined] throws a
    [TypeError], which is [None] here. *)
Definition update_step (axis : t) (node : Q) : option t :=
  match nodeByKeyValue axis !! tickFormat node with
  | None => None
  | Some text =>
      let axis :=
        mutate text (fun n =>
          {| Text.text := Text.text n; Text.fill := textSecondary;
             Text.fontFamily := Text.fontFamily n; Text.fontSize := Text.fontSize n;
             Text.x := Scale.apply scale node;
             Text.y := height - (resolution * AXIS_HEIGHT) / 2 + 5;
             Text.anchor := Text.anchor n |}) axis in
      match tmByKeyValue axis !! tm_key (tickFormat node) with
      | None => None
      | Some tm =>
          Some (mutate tm (fun n =>
            {| Text.text := Text.text n; Text.fill := Text.fill n;
               Text.fontFamily := Text.fontFamily n; Text.fontSize := Text.fontSize n;
               Text.x := Scale.apply scale node;
               Text.y := height - (resolution * AXIS_HEIGHT) / 2 - 5;
               Text.anchor := Text.anchor n |}) axis)
      end
  end.

(** The body of the loop over [exit]. The tick mark is looked up under
    [node + "|"]; the deletion from [tmByKeyValue] is under [node]. *)
Definition exit_step (axis : t) (node : string) : t :=
  let text := nodeByKeyValue axis !! node in
  let tm := tmByKeyValue axis !! tm_key node in
  let axis := set_nodeByKeyValue (delete node (nodeByKeyValue axis)) axis in
  let axis := removeChild text axis in
  let axis := set_tmByKeyValue (delete node (tmByKeyValue axis)) axis in
  removeChild tm axis.

(** A loop whose body may throw. *)
Fixpoint for_each {A : Type} (body : t -> A -> option t) (axis : t) (l : list A) : option t :=
  match l with
  | [] => Some axis
  | a :: l' =>
      match body axis a with
      | Some axis' => for_each body axis' l'
      | None => None
      end
  end.

(** [HorizontalAxis.update]. The three lists are computed from the cache
    as it is on entry, then the three loops run. *)
Definition update (axis : t) : option t :=
  let enter := enter axis in
  let update := update_ticks axis in
  let exit := exit axis in
  let axis := foldl enter_step axis enter in
  match for_each update_step axis update with
  | Some axis => Some (foldl exit_step axis exit)
  | None => None
  end.

End Update.

(** The state laws that make [update] run to its end: every cached label
    has its tick mark cached under the label followed by a bar, and no
    cached label ends with a bar itself. *)
Definition paired (axis : t) : Prop :=
  forall k, is_Some (nodeByKeyValue axis !! k) -> is_Some (tmByKeyValue axis !! tm_key k).

Definition bar_free (axis : t) : Prop :=
  forall k, is_Some (nodeByKeyValue axis !! k) -> ends_with_bar k = false.

Definition well_formed (axis : t) : Prop := paired axis /\ bar_free axis.

(** A scale with a fixed list of ticks and a fixed formatter, whatever the
    tick count asked for; the axis reads neither its inverse nor its
    domain. *)
Definition fixed_scale (pos : Q -> Q) (ts : list Q) (fmt : Q -> string) : Scale.t :=
  {| Scale.apply := pos; Scale.invert := fun q => q; Scale.domain := (0, 1);
     Scale.ticks := fun _ => ts; Scale.tickFormat := fun _ => fmt |}.

(** A formatter for the examples: the integers 1, 2 and 3 by name, every
    other number as [?]. *)
Definition small_format (q : Q) : string :=
  if Qeq_bool q 1 then "1" else if Qeq_bool q 2 then "2" else if Qeq_bool q 3 then "3" else "?".

(** A call of [update] of the examples: the chart is 800 by 600 pixels at
    resolution 1, the scale is the identity with the given ticks, and the
    constants are [AXIS_HEIGHT = 50] and [FONT_SIZE = 12]. *)
Definition example_update (ts : list Q) (axis : t) : option t :=
  update 50 12 (fixed_scale (fun q => q) ts small_format) 800 600 1 8421504%N axis.

End HorizontalAxis.

(** ** Zoom gestures: wheel and touch *)

Module Zoom.

Local Open Scope R_scope.

(** A DOM touch point, with what [pointer] reads from it: the client
    position of the touch, and the bounding rectangle and client border of
    its target node. *)
Record Touch : Type := {
  identifier : Z;
  clientX : R;
  clientY : R;
  rect_left : R;
  rect_top : R;
  clientLeft : R;
  clientTop : R
}.

(** [pointer(event)]: the position relative to the target node. *)
Definition pointer (event : Touch) : R * R :=
  (clientX event - rect_left event - clientLeft event,
   clientY event - rect_top event - clientTop event).

(** The record kept for an active touch: [{ point, originalPoint,
    identifier }]. *)
Record TouchRecord : Type := {
  point : R * R;
  originalPoint : R * R;
  touch_identifier : Z
}.

(** What the touch handlers read from [event.data.originalEvent]; they do
    nothing unless it is a [TouchEvent]. *)
Record TouchEvent : Type := {
  touches : list Touch;
  changedTouches : list Touch
}.

Inductive OriginalEvent : Type :=
| IsTouchEvent (e : TouchEvent)
| OtherEvent.

(** What the wheel handler reads from the [WheelEvent]. *)
Record WheelEvent : Type := {
  deltaY : R;
  ctrlKey : bool
}.

(** A number as the zoom handlers meet it: a real number (rounding and
    overflow are not followed), [Infinity], [-Infinity] or [NaN]. *)
Inductive Num : Type :=
| Real (r : R)
| PlusInfinity
| MinusInfinity
| NotANumber.

(** The events the chart emits to its listeners. *)
Inductive Emitted : Type :=
| zoomstart
| zoom (transform : Num)
| zoomend.

(** An upper scale bound: a number or [Infinity], the default. *)
Inductive Bound : Type :=
| Finite (r : R)
| Infinity.

Definition of_bound (b : Bound) : Num :=
  match b with
  | Finite r => Real r
  | Infinity => PlusInfinity
  end.

(** The infinity that has the sign of a number, [NaN] for zero: the product
    of a number and [Infinity], and the quotient of a number by zero. *)
Definition signed_infinity (x : R) : Num :=
  if Rlt_dec 0 x then PlusInfinity
  else if Rlt_dec x 0 then MinusInfinity
  else NotANumber.

(** [a * b]. *)
Definition mul (a b : Num) : Num :=
  match a, b with
  | NotANumber, _ | _, NotANumber => NotANumber
  | Real x, Real y => Real (x * y)
  | Real x, PlusInfinity | PlusInfinity, Real x => signed_infinity x
  | Real x, MinusInfinity | MinusInfinity, Real x => signed_infinity (- x)
  | PlusInfinity, PlusInfinity | MinusInfinity, MinusInfinity => PlusInfinity
  | PlusInfinity, MinusInfinity | MinusInfinity, PlusInfinity => MinusInfinity
  end.

(** [a / b] for two real numbers: a division by zero gives an infinity, or
    [NaN] when the dividend is zero as well. *)
Definition div (a b : R) : Num :=
  if Req_dec_T b 0 then signed_infinity a else Real (a / b).

(** [Math.sqrt]. *)
Definition Math_sqrt (a : Num) : Num :=
  match a with
  | Real x => if Rlt_dec x 0 then NotANumber else Real (sqrt x)
  | PlusInfinity => PlusInfinity
  | MinusInfinity => NotANumber
  | NotANumber => NotANumber
  end.

(** [a <= b]: false when either side is [NaN]. *)
Definition leb (a b : Num) : bool :=
  match a, b with
  | NotANumber, _ | _, NotANumber => false
  | MinusInfinity, _ => true
  | _, PlusInfinity => true
  | Real x, Real y => if Rle_dec x y then true else false
  | _, _ => false
  end.

(** Class [Gesture], with the fields the handlers use. [wheel] is the
    identifier of the pending debounce timer or [null]; timer identifiers
    are positive, hence truthy. *)
Record Gesture : Type := {
  taps : nat;
  touch0 : option TouchRecord;
  touch1 : option TouchRecord;
  wheel : option positive
}.

(** The zoom state of class [UI], the events emitted so far (oldest
    first), and the timers of the window: the pending timeouts with the
    time at which each is due (all of them run the debounce callback), the
    next timer identifier and the time of the event being handled, in
    milliseconds. *)
Record UI : Type := {
  scaleExtent : R * Bound;
  transform : Num;
  originalTransform : Num;
  gesture : Gesture;
  emitted : list Emitted;
  timers : list (positive * Z);
  next_timer : positive;
  clock : Z
}.

(** [new UI(...)] at time 0. *)
Definition create : UI :=
  {| scaleExtent := (0, Infinity);
     transform := Real 1;
     originalTransform := Real 1;
     gesture := {| taps := 0; touch0 := None; touch1 := None; wheel := None |};
     emitted := [];
     timers := [];
     next_timer := 1%positive;
     clock := 0%Z |}.

Definition set_gesture (g : Gesture) (ui : UI) : UI :=
  {| scaleExtent := scaleExtent ui; transform := transform ui;
     originalTransform := originalTransform ui; gesture := g;
     emitted := emitted ui; timers := timers ui;
     next_timer := next_timer ui; clock := clock ui |}.

Definition set_transform (k : Num) (ui : UI) : UI :=
  {| scaleExtent := scaleExtent ui; transform := k;
     originalTransform := originalTransform ui; gesture := gesture ui;
     emitted := emitted ui; timers := timers ui;
     next_timer := next_timer ui; clock := clock ui |}.

Definition set_originalTransform (k : Num) (ui : UI) : UI :=
  {| scaleExtent := scaleExtent ui; transform := transform ui;
     originalTransform := k; gesture := gesture ui;
     emitted := emitted ui; timers := timers ui;
     next_timer := next_timer ui; clock := clock ui |}.

(** [this.emit(...)]. *)
Definition emit (e : Emitted) (ui : UI) : UI :=
  {| scaleExtent := scaleExtent ui; transform := transform ui;
     originalTransform := originalTransform ui; gesture := gesture ui;
     emitted := emitted ui ++ [e]; timers := timers ui;
     next_timer := next_timer ui; clock := clock ui |}.

Definition set_touch0 (r : option TouchRecord) (g : Gesture) : Gesture :=
  {| taps := taps g; touch0 := r; touch1 := touch1 g; wheel := wheel g |}.
Definition set_touch1 (r : option TouchRecord) (g : Gesture) : Gesture :=
  {| taps := taps g; touch0 := touch0 g; touch1 := r; wheel := wheel g |}.
Definition set_taps (n : nat) (g : Gesture) : Gesture :=
  {| taps := n; touch0 := touch0 g; touch1 := touch1 g; wheel := wheel g |}.
Definition set_wheel (w : option positive) (g : Gesture) : Gesture :=
  {| taps := taps g; touch0 := touch0 g; touch1 := touch1 g; wheel := w |}.

(** [Gesture.start], [Gesture.zoom] and [Gesture.end]. *)
Definition start (ui : UI) : UI := emit zoomstart ui.
Definition gesture_zoom (scale : Num) (ui : UI) : UI := emit (zoom scale) ui.
Definition gesture_end (ui : UI) : UI := emit zoomend ui.

(** lodash's [clamp(number, lower, upper)] on numbers: when
    [number === number], that is unless the number is [NaN],
    [number = number <= upper ? number : upper], then
    [number = number >= lower ? number : lower]. *)
Definition clamp (number : Num) (lower : R) (upper : Bound) : Num :=
  match number with
  | NotANumber => NotANumber
  | _ =>
      let number := if leb number (of_bound upper) then number else of_bound upper in
      if leb (Real lower) number then number else Real lower
  end.

(** *** The timers of the window *)

(** [window.setTimeout(callback, delay)]: a new pending timer, due [delay]
    milliseconds after the current time. *)
Definition setTimeout (delay : Z) (ui : UI) : positive * UI :=
  (next_timer ui,
   {| scaleExtent := scaleExtent ui; transform := transform ui;
      originalTransform := originalTransform ui; gesture := gesture ui;
      emitted := emitted ui;
      timers := timers ui ++ [(next_timer ui, (clock ui + delay)%Z)];
      next_timer := Pos.succ (next_timer ui); clock := clock ui |}).

(** [window.clearTimeout(id)]. *)
Definition clearTimeout (id : positive) (ui : UI) : UI :=
  {| scaleExtent := scaleExtent ui; transform := transform ui;
     originalTransform := originalTransform ui; gesture := gesture ui;
     emitted := emitted ui;
     timers := filter (fun t => t.1 <> id) (timers ui);
     next_timer := next_timer ui; clock := clock ui |}.

(** The callback armed by the wheel handler:
    [() => { this.gesture.wheel = null; this.gesture.end(); }]. *)
Definition wheel_timeout (ui : UI) : UI :=
  gesture_end (set_gesture (set_wheel None (gesture ui)) ui).

(** Time passes until [now]: the timers that are due by then run, oldest
    first, and leave the pending list. *)
Definition advance (now : Z) (ui : UI) : UI :=
  let due := filter (fun t => (t.2 <= now)%Z) (timers ui) in
  let ui :=
    {| scaleExtent := scaleExtent ui; transform := transform ui;
       originalTransform := originalTransform ui; gesture := gesture ui;
       emitted := emitted ui;
       timers := filter (fun t => ¬ (t.2 <= now)%Z) (timers ui);
       next_timer := next_timer ui; clock := now |} in
  foldl (fun ui _ => wheel_timeout ui) ui due.

(** *** The wheel handler *)

(** The handler of [wheel], for an event that carries its [WheelEvent]:
    the pending timer is cleared, or else [zoomstart] is emitted; the
    transform is scaled by [2 ** (-deltaY * 0.002 * (ctrlKey ? 10 : 1))] and
    clamped; a timer of 150 ms is armed; [zoom] is emitted. *)
Definition on_wheel (tempEvent : WheelEvent) (ui : UI) : UI :=
  let ui :=
    match wheel (gesture ui) with
    | Some id => clearTimeout id ui
    | None => start ui
    end in
  let k := Rpower 2 (- deltaY tempEvent * (2 / 1000) * (if ctrlKey tempEvent then 10 else 1)) in
  let ui :=
    set_transform
      (clamp (mul (transform ui) (Real k)) (scaleExtent ui).1 (scaleExtent ui).2) ui in
  let '(id, ui) := setTimeout 150 ui in
  let ui := set_gesture (set_wheel (Some id) (gesture ui)) ui in
  emit (zoom (transform ui)) ui.

(** A wheel event delivered at a given time: the timers due by then have
    run before the handler does. *)
Definition dispatch_wheel (now : Z) (tempEvent : WheelEvent) (ui : UI) : UI :=
  on_wheel tempEvent (advance now ui).

(** A series of wheel events, each with its time of delivery. *)
Definition dispatch_wheels (events : list (Z * WheelEvent)) (ui : UI) : UI :=
  foldl (fun ui e => dispatch_wheel e.1 e.2 ui) ui events.

(** *** The touch handlers *)

(** The outcome of a handler that can fail: it ran to its end, or it threw
    a [TypeError] (a property of [null] was read). *)
Inductive Outcome : Type :=
| Done (ui : UI)
| TypeError.

Definition new_record (touch : Touch) : TouchRecord :=
  {| point := pointer touch; originalPoint := pointer touch;
     touch_identifier := identifier touch |}.

Definition set_point (p : R * R) (r : TouchRecord) : TouchRecord :=
  {| point := p; originalPoint := originalPoint r; touch_identifier := touch_identifier r |}.

(** One turn of the loop of the [touchstart] handler; the boolean is the
    local variable [started]. *)
Definition touchstart_step (acc : bool * Gesture) (touch : Touch) : bool * Gesture :=
  let '(started, g) := acc in
  match touch0 g with
  | None => (true, set_touch0 (Some (new_record touch)) g)
  | Some t0 =>
      match touch1 g with
      | None =>
          if negb (Z.eqb (touch_identifier t0) (identifier touch))
          then (started, set_taps 0 (set_touch1 (Some (new_record touch)) g))
          else (started, g)
      | Some _ => (started, g)
      end
  end.

Definition on_touchstart (originalEvent : OriginalEvent) (ui : UI) : UI :=
  match originalEvent with
  | IsTouchEvent e =>
      let '(started, g) := foldl touchstart_step (false, gesture ui) (touches e) in
      let ui := set_gesture g ui in
      if started then start (set_originalTransform (transform ui) ui) else ui
  | OtherEvent => ui
  end.

(** Whether a touch slot holds the record of the given touch. *)
Definition holds (slot : option TouchRecord) (touch : Touch) : bool :=
  match slot with
  | Some r => Z.eqb (touch_identifier r) (identifier touch)
  | None => false
  end.

(** One turn of the loop of the [touchmove] handler. *)
Definition touchmove_step (g : Gesture) (touch : Touch) : Gesture :=
  if holds (touch0 g) touch
  then set_touch0 (set_point (pointer touch) <$> touch0 g) g
  else if holds (touch1 g) touch
  then set_touch1 (set_point (pointer touch) <$> touch1 g) g
  else g.

(** The squared distance of two points,
    [(b[0] - a[0]) ** 2 + (b[1] - a[1]) ** 2]. *)
Definition distance2 (a b : R * R) : R := (b.1 - a.1) ^ 2 + (b.2 - a.2) ^ 2.

(** The handler of [touchmove]. There is no test of [dl]: when the two
    touches started at the same point the quotient is [Infinity] or [NaN],
    and the handler goes on with it. *)
Definition on_touchmove (originalEvent : OriginalEvent) (ui : UI) : Outcome :=
  match originalEvent with
  | IsTouchEvent e =>
      let g := foldl touchmove_step (gesture ui) (changedTouches e) in
      let ui := set_gesture g ui in
      match touch1 g with
      | Some t1 =>
          match touch0 g with
          | None => TypeError
          | Some t0 =>
              let dp := distance2 (point t0) (point t1) in
              let dl := distance2 (originalPoint t0) (originalPoint t1) in
              let k := Math_sqrt (div dp dl) in
              let ui :=
                set_transform
                  (clamp (mul (originalTransform ui) k)
                     (scaleExtent ui).1 (scaleExtent ui).2) ui in
              Done (gesture_zoom
                      (clamp (transform ui) (scaleExtent ui).1 (scaleExtent ui).2) ui)
          end
      | None => Done ui
      end
  | OtherEvent => Done ui
  end.

(** One turn of the loop of the [touchend] handler. *)
Definition touchend_step (g : Gesture) (touch : Touch) : Gesture :=
  if holds (touch0 g) touch
  then set_touch0 None g
  else if holds (touch1 g) touch
  then set_touch1 None g
  else g.

Definition on_touchend (originalEvent : OriginalEvent) (ui : UI) : UI :=
  match originalEvent with
  | IsTouchEvent e =>
      let g := foldl touchend_step (gesture ui) (changedTouches e) in
      let g :=
        match touch1 g, touch0 g with
        | Some _, None => set_touch1 None (set_touch0 None g)
        | _, _ => g
        end in
      gesture_end (set_gesture g ui)
  | OtherEvent => ui
  end.

(** *** Vocabulary of the statements *)

(** The distance of two points. *)
Definition distance (a b : R * R) : R := sqrt (distance2 a b).

(** The position of the touch with an identifier after a list of changed
    touches: that of the last touch of the list with this identifier, or
    else the position before. *)
Fixpoint position_after (id : Z) (l : list Touch) (p : R * R) : R * R :=
  match l with
  | [] => p
  | touch :: l' =>
      position_after id l' (if Z.eqb id (identifier touch) then pointer touch else p)
  end.

(** The changed touches of a series of touch events, in order. *)
Definition moved (es : list TouchEvent) : list Touch :=
  concat (changedTouches <$> es).

(** [a <= b] as a proposition. *)
Definition le (a b : Num) : Prop := leb a b = true.

(** Whether one of the touches of a list is the touch of a record. *)
Definition ended (r : TouchRecord) (l : list Touch) : bool :=
  existsb (fun touch => Z.eqb (touch_identifier r) (identifier touch)) l.

(** A run of wheel events: each event arrives less than 150 milliseconds
    after the one before it, [t] being the time of the event before the
    first of the list. *)
Fixpoint within_debounce (t : Z) (events : list (Z * WheelEvent)) : Prop :=
  match events with
  | [] => True
  | e :: events' => (e.1 < t + 150)%Z /\ within_debounce e.1 events'
  end.

(** The time of the last event of a run that starts at time [t]. *)
Fixpoint last_time (t : Z) (events : list (Z * WheelEvent)) : Z :=
  match events with
  | [] => t
  | e :: events' => last_time e.1 events'
  end.

Definition is_zoomstart (e : Emitted) : bool :=
  match e with zoomstart => true | _ => false end.
Definition is_zoomend (e : Emitted) : bool :=
  match e with zoomend => true | _ => false end.

(** The number of events of a kind in a log. *)
Definition count_emitted (kind : Emitted -> bool) (log : list Emitted) : nat :=
  length (List.filter kind log).

(** What was emitted between two states of the same chart. *)
Definition emitted_since (before after : UI) : list Emitted :=
  drop (length (emitted before)) (emitted after).

(** The state between two wheel events of a run: the timer armed by the
    last event is the only pending one, and the log since the run began is
    one [zoomstart] followed by one [zoom] for each event. *)
Definition armed (log0 : list Emitted) (t : Z) (n : nat) (ui : UI) : Prop :=
  exists id ks,
    wheel (gesture ui) = Some id /\
    timers ui = [(id, (t + 150)%Z)] /\
    length ks = n /\
    emitted ui = log0 ++ zoomstart :: (zoom <$> ks).

(** The touches of the examples: the target node sits at the origin and
    has no border. *)
Definition touch_at (id : Z) (x y : R) : Touch :=
  {| identifier := id; clientX := x; clientY := y;
     rect_left := 0; rect_top := 0; clientLeft := 0; clientTop := 0 |}.

(** A touch event of the examples, with the given changed touches. *)
Definition changed (l : list Touch) : OriginalEvent :=
  IsTouchEvent {| touches := l; changedTouches := l |}.

(** The wheel event of the examples: one notch up, without the control
    key. *)
Definition example_wheel : WheelEvent := {| deltaY := -100; ctrlKey := false |}.

(** The chart of the examples after two fingers came down together, one at
    (0, 0) and one at (30, 40). *)
Definition example_pinch : UI :=
  on_touchstart (changed [touch_at 0 0 0; touch_at 1 30 40]) create.

End Zoom.

(** ** Numbers read from labels *)

(** The values a label can parse to and the arithmetic of the ratio label:
    [NaN], the two infinities, and the finite numbers as exact rationals. *)
Module Number.

Local Open Scope Q_scope.

Inductive t : Type :=
| NaN
| PosInfinity
| NegInfinity
| Num (q : Q).

(** [a - b], [a / b] and [a * b] for a finite [b]. *)
Definition sub (a : t) (b : Q) : t :=
  match a with
  | Num q => Num (q - b)
  | other => other
  end.

Definition negative (q : Q) : bool := Bisect.Qltb q 0.
Definition is_zero (q : Q) : bool := Qeq_bool q 0.

Definition div (a : t) (b : Q) : t :=
  match a with
  | NaN => NaN
  | PosInfinity => if negative b then NegInfinity else PosInfinity
  | NegInfinity => if negative b then PosInfinity else NegInfinity
  | Num q =>
      if is_zero b then
        if is_zero q then NaN
        else if negative q then NegInfinity else PosInfinity
      else Num (q / b)
  end.

Definition mul (a : t) (b : Q) : t :=
  match a with
  | NaN => NaN
  | PosInfinity =>
      if is_zero b then NaN else if negative b then NegInfinity else PosInfinity
  | NegInfinity =>
      if is_zero b then NaN else if negative b then PosInfinity else NegInfinity
  | Num q => Num (q * b)
  end.

(** *** [parseFloat] *)

Local Open Scope char_scope.

(** The white space [parseFloat] skips, within ASCII. *)
Definition is_space (c : ascii) : bool :=
  match c with
  | " " | "009" | "010" | "011" | "012" | "013" => true
  | _ => false
  end.

Definition digit_of (c : ascii) : option Z :=
  match c with
  | "0" => Some 0%Z | "1" => Some 1%Z | "2" => Some 2%Z | "3" => Some 3%Z
  | "4" => Some 4%Z | "5" => Some 5%Z | "6" => Some 6%Z | "7" => Some 7%Z
  | "8" => Some 8%Z | "9" => Some 9%Z
  | _ => None
  end.

Local Open Scope string_scope.

Fixpoint skip_spaces (s : string) : string :=
  match s with
  | String c s' => if is_space c then skip_spaces s' else s
  | EmptyString => s
  end.

(** Reads the longest run of digits at the head of [s]: the number read so
    far (starting from [acc]), how many digits were read, and the rest. *)
Fixpoint read_digits (acc : Z) (count : nat) (s : string) : Z * nat * string :=
  match s with
  | String c s' =>
      match digit_of c with
      | Some d => read_digits (10 * acc + d)%Z (S count) s'
      | None => (acc, count, s)
      end
  | EmptyString => (acc, count, s)
  end.

(** The exponent part [e], [e+] or [e-] followed by digits, when the
    string starts with one; otherwise the exponent is 0. *)
Definition read_exponent (s : string) : Z :=
  match s with
  | String c s' =>
      if (Ascii.eqb c "e" || Ascii.eqb c "E")%bool then
        match s' with
        | String "+" s'' =>
            let '(e, n, _) := read_digits 0 0 s'' in
            if Nat.eqb n 0 then 0%Z else e
        | String "-" s'' =>
            let '(e, n, _) := read_digits 0 0 s'' in
            if Nat.eqb n 0 then 0%Z else (- e)%Z
        | _ =>
            let '(e, n, _) := read_digits 0 0 s' in
            if Nat.eqb n 0 then 0%Z else e
        end
      else 0%Z
  | EmptyString => 0%Z
  end.

(** The unsigned literal at the head of [s]: [Infinity], or digits with an
    optional fraction and exponent, or a fraction that starts with the
    point. [None] when no prefix of [s] is such a literal. *)
Definition read_unsigned (s : string) : option (Q + unit) :=
  if String.prefix "Infinity" s then Some (inr tt)
  else
    let '(int, int_digits, rest) := read_digits 0 0 s in
    let '(mantissa, frac_digits, rest) :=
      match rest with
      | String "." rest' => read_digits int 0 rest'
      | _ => (int, 0%nat, rest)
      end in
    if Nat.eqb (int_digits + frac_digits) 0 then None
    else
      let exponent := read_exponent rest in
      Some (inl (inject_Z mantissa * Qpower 10 (exponent - Z.of_nat frac_digits))%Q).

(** [parseFloat(string)]: the number written by the longest prefix of the
    trimmed string that is a decimal literal, [NaN] when there is none. *)
Definition parseFloat (s : string) : t :=
  let s := skip_spaces s in
  let '(minus, s) :=
    match s with
    | String "-" s' => (true, s')
    | String "+" s' => (false, s')
    | _ => (false, s)
    end in
  match read_unsigned s with
  | None => NaN
  | Some (inr _) => if minus then NegInfinity else PosInfinity
  | Some (inl q) => Num (if minus then - q else q)%Q
  end.

(** [str.replace(",", "")]: the string without its first comma. *)
Fixpoint remove_first_comma (s : string) : string :=
  match s with
  | String c s' => if Ascii.eqb c "," then s' else String c (remove_first_comma s')
  | EmptyString => s
  end.

(** [fRound(str)]: [str?.replace(",", "")], then [parseFloat]. The label of
    an index outside the array is [undefined]; it stays [undefined] through
    the optional call, and [parseFloat] reads the text "undefined". *)
Definition fRound (str : option string) : t :=
  match str with
  | Some s => parseFloat (remove_first_comma s)
  | None => parseFloat "undefined"
  end.

(** *** [toFixed] *)

Definition digits (n : Z) : string := NilZero.string_of_uint (N.to_uint (Z.to_N n)).

(** [number.toFixed(2)]: the nearest multiple of a hundredth (the larger
    one in the middle between two), printed with two decimals; [NaN] and
    the infinities by name. A magnitude of 10^21 or more, which JavaScript
    prints in exponent notation, is printed in full here. *)
Definition toFixed2 (a : t) : string :=
  match a with
  | NaN => "NaN"
  | PosInfinity => "Infinity"
  | NegInfinity => "-Infinity"
  | Num q =>
      let n := Qfloor (Qabs q * 100 + (1 # 2)) in
      let cents := digits (n mod 100) in
      (if negative q then "-" else "") ++
      digits (n / 100) ++ "." ++
      (if (n mod 100 <? 10)%Z then "0" ++ cents else cents)
  end.

(** The text of a ratio label:
    [(((fRound(label) - midPrice) / midPrice) * 100).toFixed(2) + "%"]. *)
Definition ratio_text (label : option string) (midPrice : Q) : string :=
  toFixed2 (mul (div (sub (fRound label) midPrice) midPrice) 100) ++ "%".

End Number.

(** ** The pointer handler *)

Module Pointer.

Local Open Scope Q_scope.

(** A label of the overlay: its text ([undefined] when the label of an
    index outside the arrays was passed to [Label.update]) and whether it
    is shown. The positions, sizes and anchors of the overlays are not
    followed. *)
Record Label : Type := { text : option string; visible : bool }.

Definition hidden (l : Label) : Label := {| text := text l; visible := false |}.

(** What the handler reads from an [InteractionEvent]:
    [event.data?.global]. *)
Record InteractionEvent : Type := { data : option (Q * Q) }.

(** The part of class [UI] that the pointer handler reads and writes: the
    chart data cached by [update], the visibility of the indicators and of
    the shaded rectangles, the labels, the last pointer event, and from the
    renderer its resolution and the size of its view. [touch_device] is
    the test ["ontouchstart" in self]. Two counters stand for effects
    outside the object: the number of calls of [render] and the number of
    Delaunay triangulations built. *)
Record UI : Type := {
  prices : list Q;
  volumes : list Q;
  priceLabels : list string;
  volumeLabels : list string;
  priceScale : Scale.t;
  volumeScale : Scale.t;
  midPrice : Q;
  _indicativePrice : Q;
  buyIndicator : bool;
  sellIndicator : bool;
  auctionIndicator : bool;
  buyPriceText : Label;
  buyVolumeText : Label;
  buyVolRatioText : Label;
  sellPriceText : Label;
  sellVolumeText : Label;
  sellVolRatioText : Label;
  auctionPriceText : Label;
  auctionVolumeText : Label;
  buyOverlay : bool;
  sellOverlay : bool;
  lastEvent : option InteractionEvent;
  resolution : Q;
  view_width : Q;
  view_height : Q;
  touch_device : bool;
  rendered : nat;
  delaunay_built : nat
}.

(** [a[i]] for an index that can be [-1]. *)
Definition at_index {A : Type} (a : list A) (i : Z) : option A :=
  if (i <? 0)%Z then None else a !! Z.to_nat i.

(** Comparisons with a number that can be [NaN] ([None]): they are false
    on [NaN]. *)
Definition gt (a : Q) (b : option Q) : bool :=
  match b with Some b => Bisect.Qltb b a | None => false end.
Definition ge (a : Q) (b : option Q) : bool :=
  match b with Some b => Qle_bool b a | None => false end.
Definition lt (a : Q) (b : option Q) : bool :=
  match b with Some b => Bisect.Qltb a b | None => false end.
Definition le (a : Q) (b : option Q) : bool :=
  match b with Some b => Qle_bool a b | None => false end.

(** [strs.sort((a, b) => b.length - a.length)]: a stable sort, longest
    first. *)
Fixpoint insert_by_length (s : string) (sorted : list string) : list string :=
  match sorted with
  | [] => [s]
  | s' :: rest =>
      if (String.length s' <? String.length s)%nat
      then s :: sorted
      else s' :: insert_by_length s rest
  end.

Definition sort_by_length (l : list string) : list string :=
  foldr insert_by_length [] (reverse l).

Section Handler.

(** The formatter of a volume tick: the closure of the handler that
    calls [Intl.NumberFormat], [toLocaleString] and [getFloatNumber]. *)
Variable formatVolumeTick : Q -> string.

(** [delaunay.find(x, y)] of d3-delaunay on the given points: the index
    of a point nearest to [(x, y)], [-1] without points. *)
Variable delaunay_find : list (Q * Q) -> Q -> Q -> Z.

(** [width] of the handler:
    [view.width - resolution * 8 * (descFmtStrs[0]?.length + 0.8)], which
    is [NaN] when the volume scale has no tick. *)
Definition plot_width (ui : UI) : option Q :=
  let numTicks := view_height ui / resolution ui / 50 in
  let ticks := Scale.ticks (volumeScale ui) numTicks in
  let formatTicks := formatVolumeTick <$> ticks in
  let descFmtStrs := sort_by_length formatTicks in
  match descFmtStrs !! 0%nat with
  | Some longest =>
      let size := inject_Z (Z.of_nat (String.length longest)) + (8 # 10) in
      Some (view_width ui - resolution ui * 8 * size)
  | None => None
  end.

(** [width / 2]. *)
Definition half_width (ui : UI) : option Q := (fun w => w / 2) <$> plot_width ui.

(** The pixel of the mid price, [this.priceScale(this.midPrice)]. *)
Definition mid_x (ui : UI) : Q := Scale.apply (priceScale ui) (midPrice ui).

(** The indices and pixels chosen by the handler outside auction mode,
    for the pointer at the device pixel [x]. *)
Record Nearest : Type := {
  buyIndex : Z;
  sellIndex : Z;
  buyNearestX : Q;
  sellNearestX : Q
}.

Definition nearest (ui : UI) (x nearestX : Q) (index : nat) : Nearest :=
  let reflected := 2 * mid_x ui - nearestX in
  if gt x (half_width ui) then
    {| buyIndex :=
         match prices ui !! 0%nat with
         | Some first =>
             if ge first (half_width ui) then (-1)%Z
             else (Z.of_nat (Bisect.bisectLeft (prices ui) reflected) - 1)%Z
         | None => (Z.of_nat (Bisect.bisectLeft (prices ui) reflected) - 1)%Z
         end;
       sellIndex := Z.of_nat index;
       buyNearestX := reflected;
       sellNearestX := nearestX |}
  else
    {| buyIndex := Z.of_nat index;
       sellIndex :=
         match prices ui !! (length (prices ui) - 1)%nat with
         | Some last =>
             if le last (half_width ui) then (-1)%Z
             else (Z.of_nat (Bisect.bisectRight (prices ui) reflected) - 1)%Z
         | None => (Z.of_nat (Bisect.bisectRight (prices ui) reflected) - 1)%Z
         end;
       buyNearestX := nearestX;
       sellNearestX := reflected |}.

(** Whether the buy group and the sell group are shown. *)
Definition buy_shown (ui : UI) (n : Nearest) : bool :=
  Bisect.Qltb (Scale.domain (priceScale ui)).1 (Scale.invert (priceScale ui) (buyNearestX n))
  && match prices ui !! 0%nat with
     | Some first => lt first (half_width ui)
     | None => false
     end
  && negb (buyIndex n =? -1)%Z.

Definition sell_shown (ui : UI) (n : Nearest) : bool :=
  Bisect.Qltb (Scale.invert (priceScale ui) (sellNearestX n)) (Scale.domain (priceScale ui)).2
  && match prices ui !! (length (prices ui) - 1)%nat with
     | Some last => gt last (half_width ui)
     | None => false
     end
  && negb (sellIndex n =? -1)%Z.

(** The branch of the handler outside auction mode. *)
Definition move_sides (ui : UI) (x : Q) : UI :=
  let index := Bisect.bisectCenter (prices ui) x in
  match prices ui !! index with
  | None => ui
  | Some nearestX =>
      let n := nearest ui x nearestX index in
      let buy := buy_shown ui n in
      let sell := sell_shown ui n in
      {| prices := prices ui; volumes := volumes ui;
         priceLabels := priceLabels ui; volumeLabels := volumeLabels ui;
         priceScale := priceScale ui; volumeScale := volumeScale ui;
         midPrice := midPrice ui; _indicativePrice := _indicativePrice ui;
         buyIndicator := buy;
         sellIndicator := sell;
         auctionIndicator := auctionIndicator ui;
         buyPriceText :=
           {| text := at_index (priceLabels ui) (buyIndex n); visible := buy |};
         buyVolumeText :=
           {| text := at_index (volumeLabels ui) (buyIndex n); visible := buy |};
         buyVolRatioText :=
           {| text := Some (Number.ratio_text (at_index (priceLabels ui) (buyIndex n))
                              (midPrice ui));
              visible := buy |};
         sellPriceText :=
           {| text := at_index (priceLabels ui) (sellIndex n); visible := sell |};
         sellVolumeText :=
           {| text := at_index (volumeLabels ui) (sellIndex n); visible := sell |};
         sellVolRatioText :=
           {| text := Some ("+" +:+ Number.ratio_text (at_index (priceLabels ui) (sellIndex n))
                                      (midPrice ui));
              visible := sell |};
         auctionPriceText := auctionPriceText ui;
         auctionVolumeText := auctionVolumeText ui;
         buyOverlay := buy;
         sellOverlay := sell;
         lastEvent := lastEvent ui;
         resolution := resolution ui; view_width := view_width ui;
         view_height := view_height ui; touch_device := touch_device ui;
         rendered := rendered ui; delaunay_built := delaunay_built ui |}
  end.

(** [Math.hypot(dx, dy) < radius] on exact numbers. *)
Definition hypot_lt (dx dy radius : Q) : bool :=
  Bisect.Qltb 0 radius && Bisect.Qltb (dx * dx + dy * dy) (radius * radius).

(** The branch of the handler in auction mode: a triangulation of the
    points is built, then queried. *)
Definition move_auction (ui : UI) (x y : Q) : UI :=
  let radius := 50 * resolution ui in
  let points := zip (prices ui) (volumes ui) in
  let index := delaunay_find points x y in
  let near :=
    match at_index (prices ui) index, at_index (volumes ui) index with
    | Some px, Some vy => hypot_lt (x - px) (y - vy) radius
    | _, _ => false
    end in
  {| prices := prices ui; volumes := volumes ui;
     priceLabels := priceLabels ui; volumeLabels := volumeLabels ui;
     priceScale := priceScale ui; volumeScale := volumeScale ui;
     midPrice := midPrice ui; _indicativePrice := _indicativePrice ui;
     buyIndicator := buyIndicator ui;
     sellIndicator := sellIndicator ui;
     auctionIndicator := near;
     buyPriceText := buyPriceText ui;
     buyVolumeText := buyVolumeText ui;
     buyVolRatioText := buyVolRatioText ui;
     sellPriceText := sellPriceText ui;
     sellVolumeText := sellVolumeText ui;
     sellVolRatioText := sellVolRatioText ui;
     auctionPriceText :=
       if near then {| text := at_index (priceLabels ui) index; visible := true |}
       else hidden (auctionPriceText ui);
     auctionVolumeText :=
       if near then {| text := at_index (volumeLabels ui) index; visible := true |}
       else hidden (auctionVolumeText ui);
     buyOverlay := buyOverlay ui;
     sellOverlay := sellOverlay ui;
     lastEvent := lastEvent ui;
     resolution := resolution ui; view_width := view_width ui;
     view_height := view_height ui; touch_device := touch_device ui;
     rendered := rendered ui; delaunay_built := S (delaunay_built ui) |}.

Definition set_lastEvent (e : option InteractionEvent) (ui : UI) : UI :=
  {| prices := prices ui; volumes := volumes ui;
     priceLabels := priceLabels ui; volumeLabels := volumeLabels ui;
     priceScale := priceScale ui; volumeScale := volumeScale ui;
     midPrice := midPrice ui; _indicativePrice := _indicativePrice ui;
     buyIndicator := buyIndicator ui; sellIndicator := sellIndicator ui;
     auctionIndicator := auctionIndicator ui;
     buyPriceText := buyPriceText ui; buyVolumeText := buyVolumeText ui;
     buyVolRatioText := buyVolRatioText ui;
     sellPriceText := sellPriceText ui; sellVolumeText := sellVolumeText ui;
     sellVolRatioText := sellVolRatioText ui;
     auctionPriceText := auctionPriceText ui;
     auctionVolumeText := auctionVolumeText ui;
     buyOverlay := buyOverlay ui; sellOverlay := sellOverlay ui;
     lastEvent := e;
     resolution := resolution ui; view_width := view_width ui;
     view_height := view_height ui; touch_device := touch_device ui;
     rendered := rendered ui; delaunay_built := delaunay_built ui |}.

(** [this.render()]. *)
Definition render (ui : UI) : UI :=
  {| prices := prices ui; volumes := volumes ui;
     priceLabels := priceLabels ui; volumeLabels := volumeLabels ui;
     priceScale := priceScale ui; volumeScale := volumeScale ui;
     midPrice := midPrice ui; _indicativePrice := _indicativePrice ui;
     buyIndicator := buyIndicator ui; sellIndicator := sellIndicator ui;
     auctionIndicator := auctionIndicator ui;
     buyPriceText := buyPriceText ui; buyVolumeText := buyVolumeText ui;
     buyVolRatioText := buyVolRatioText ui;
     sellPriceText := sellPriceText ui; sellVolumeText := sellVolumeText ui;
     sellVolRatioText := sellVolRatioText ui;
     auctionPriceText := auctionPriceText ui;
     auctionVolumeText := auctionVolumeText ui;
     buyOverlay := buyOverlay ui; sellOverlay := sellOverlay ui;
     lastEvent := lastEvent ui;
     resolution := resolution ui; view_width := view_width ui;
     view_height := view_height ui; touch_device := touch_device ui;
     rendered := S (rendered ui); delaunay_built := delaunay_built ui |}.

(** [UI.onPointerMove]. On a touch device it returns at once. The event
    is cached; the overlays are recomputed when the pointer's [x] is
    truthy (a number other than 0) and there are at least two prices. *)
Definition onPointerMove (event : InteractionEvent) (ui : UI) : UI :=
  if touch_device ui then ui
  else
    let ui := set_lastEvent (Some event) ui in
    match data event with
    | Some (gx, gy) =>
        if negb (Qeq_bool gx 0) && (1 <? length (prices ui))%nat then
          let x := gx * resolution ui in
          if negb (Qeq_bool (_indicativePrice ui) 0) then
            render (move_auction ui x (gy * resolution ui))
          else
            render (move_sides ui x)
        else ui
    | None => ui
    end.

(** [UI.onPointerOut]. *)
Definition onPointerOut (ui : UI) : UI :=
  render
    {| prices := prices ui; volumes := volumes ui;
       priceLabels := priceLabels ui; volumeLabels := volumeLabels ui;
       priceScale := priceScale ui; volumeScale := volumeScale ui;
       midPrice := midPrice ui; _indicativePrice := _indicativePrice ui;
       buyIndicator := false; sellIndicator := false;
       auctionIndicator := auctionIndicator ui;
       buyPriceText := hidden (buyPriceText ui);
       buyVolumeText := hidden (buyVolumeText ui);
       buyVolRatioText := hidden (buyVolRatioText ui);
       sellPriceText := hidden (sellPriceText ui);
       sellVolumeText := hidden (sellVolumeText ui);
       sellVolRatioText := hidden (sellVolRatioText ui);
       auctionPriceText := auctionPriceText ui;
       auctionVolumeText := auctionVolumeText ui;
       buyOverlay := false; sellOverlay := false;
       lastEvent := None;
       resolution := resolution ui; view_width := view_width ui;
       view_height := view_height ui; touch_device := touch_device ui;
       rendered := rendered ui; delaunay_built := delaunay_built ui |}.

(** [UI.clearPrice]. *)
Definition clearPrice (ui : UI) : UI := onPointerOut ui.

(** [UI.updatePrice]: a pointer event at the pixel of the price; the
    point of a new [InteractionData] is the origin. *)
Definition updatePrice (price : Q) (ui : UI) : UI :=
  onPointerMove {| data := Some (Scale.apply (priceScale ui) price, 0) |} ui.

(** The arguments of [UI.update] that the pointer handler reads later. *)
Record Data : Type := {
  new_prices : list Q;
  new_volumes : list Q;
  new_midPrice : Q;
  new_priceLabels : list string;
  new_volumeLabels : list string;
  new_priceScale : Scale.t;
  new_volumeScale : Scale.t
}.

(** [UI.update]: the chart data is replaced and the last pointer event,
    if there is one, is handled again. The axes, the mid price label,
    the mid price line and the hit area, which [update] refreshes in
    between, are objects that the pointer handler does not read; the
    horizontal axis is embedded on its own above. *)
Definition update (d : Data) (ui : UI) : UI :=
  let ui :=
    {| prices := new_prices d; volumes := new_volumes d;
       priceLabels := new_priceLabels d; volumeLabels := new_volumeLabels d;
       priceScale := new_priceScale d; volumeScale := new_volumeScale d;
       midPrice := new_midPrice d; _indicativePrice := _indicativePrice ui;
       buyIndicator := buyIndicator ui; sellIndicator := sellIndicator ui;
       auctionIndicator := auctionIndicator ui;
       buyPriceText := buyPriceText ui; buyVolumeText := buyVolumeText ui;
       buyVolRatioText := buyVolRatioText ui;
       sellPriceText := sellPriceText ui; sellVolumeText := sellVolumeText ui;
       sellVolRatioText := sellVolRatioText ui;
       auctionPriceText := auctionPriceText ui;
       auctionVolumeText := auctionVolumeText ui;
       buyOverlay := buyOverlay ui; sellOverlay := sellOverlay ui;
       lastEvent := lastEvent ui;
       resolution := resolution ui; view_width := view_width ui;
       view_height := view_height ui; touch_device := touch_device ui;
       rendered := rendered ui; delaunay_built := delaunay_built ui |} in
  match lastEvent ui with
  | Some event => onPointerMove event ui
  | None => ui
  end.

(** The setter [indicativePrice]. *)
Definition set_indicativePrice (price : Q) (ui : UI) : UI :=
  {| prices := prices ui; volumes := volumes ui;
     priceLabels := priceLabels ui; volumeLabels := volumeLabels ui;
     priceScale := priceScale ui; volumeScale := volumeScale ui;
     midPrice := midPrice ui; _indicativePrice := price;
     buyIndicator := buyIndicator ui; sellIndicator := sellIndicator ui;
     auctionIndicator := auctionIndicator ui;
     buyPriceText := buyPriceText ui; buyVolumeText := buyVolumeText ui;
     buyVolRatioText := buyVolRatioText ui;
     sellPriceText := sellPriceText ui; sellVolumeText := sellVolumeText ui;
     sellVolRatioText := sellVolRatioText ui;
     auctionPriceText := auctionPriceText ui;
     auctionVolumeText := auctionVolumeText ui;
     buyOverlay := buyOverlay ui; sellOverlay := sellOverlay ui;
     lastEvent := lastEvent ui;
     resolution := resolution ui; view_width := view_width ui;
     view_height := view_height ui; touch_device := touch_device ui;
     rendered := rendered ui; delaunay_built := delaunay_built ui |}.

End Handler.

(** *** The chart of the examples *)

(** Every volume tick is printed as one character. *)
Definition example_format (tick : Q) : string := "5".

(** A stand-in for [delaunay.find]: a scan for the first point at the least
    squared distance. *)
Fixpoint scan_nearest (points : list (Q * Q)) (x y : Q) (i : Z) (best : option (Z * Q)) : Z :=
  match points with
  | [] => match best with Some (j, _) => j | None => (-1)%Z end
  | (px, py) :: points' =>
      let d := (x - px) * (x - px) + (y - py) * (y - py) in
      match best with
      | Some (j, dj) =>
          if Bisect.Qltb d dj
          then scan_nearest points' x y (i + 1)%Z (Some (i, d))
          else scan_nearest points' x y (i + 1)%Z best
      | None => scan_nearest points' x y (i + 1)%Z (Some (i, d))
      end
  end.

Definition example_find (points : list (Q * Q)) (x y : Q) : Z :=
  scan_nearest points x y 0%Z None.

(** The identity scale on the domain from 0 to 50, with the ticks 0 and
    5. *)
Definition example_scale : Scale.t :=
  {| Scale.apply := fun q => q; Scale.invert := fun q => q; Scale.domain := (0, 50);
     Scale.ticks := fun _ => [0; 5]; Scale.tickFormat := fun _ _ => "5" |}.

Definition blank : Label := {| text := None; visible := false |}.

(** Four points at the pixels 10, 20, 30 and 40, each at the volume pixel
    5; resolution 1; a view that leaves a plot 50 pixels wide beside the
    volume labels ([64.4 - 8 * 1.8 = 50]), so that the middle of the plot
    is the pixel 25. Nothing is shown. *)
Definition example_ui_with (mid : Q) (labels : list string) : UI :=
  {| prices := Bisect.example_prices; volumes := [5; 5; 5; 5];
     priceLabels := labels; volumeLabels := ["5"; "5"; "5"; "5"];
     priceScale := example_scale; volumeScale := example_scale;
     midPrice := mid; _indicativePrice := 0;
     buyIndicator := false; sellIndicator := false; auctionIndicator := false;
     buyPriceText := blank; buyVolumeText := blank; buyVolRatioText := blank;
     sellPriceText := blank; sellVolumeText := blank; sellVolRatioText := blank;
     auctionPriceText := blank; auctionVolumeText := blank;
     buyOverlay := false; sellOverlay := false;
     lastEvent := None;
     resolution := 1; view_width := 322 # 5; view_height := 100;
     touch_device := false; rendered := 0; delaunay_built := 0 |}.

(** The same with the mid price at the pixel 25, the middle of the
    plot. *)
Definition example_ui (labels : list string) : UI := example_ui_with 25 labels.

Definition example_labels : list string := ["10"; "20"; "30"; "40"].

(** A pointer event at a pixel. *)
Definition pointer_at (x y : Q) : InteractionEvent := {| data := Some (x, y) |}.

(** The handlers of the examples. *)
Definition example_move : InteractionEvent -> UI -> UI :=
  onPointerMove example_format example_find.
Definition example_data : Data :=
  {| new_prices := Bisect.example_prices; new_volumes := [5; 5; 5; 5];
     new_midPrice := 25; new_priceLabels := example_labels;
     new_volumeLabels := ["5"; "5"; "5"; "5"];
     new_priceScale := example_scale; new_volumeScale := example_scale |}.

End Pointer.

(** ** Runs of gesture events *)

Module ZoomRun.

Import Zoom.
Local Open Scope R_scope.

(** The events that reach the gesture handlers of the chart: a wheel event
    delivered at a time, a moment at which the pending timers that are due
    run, and the three touch events. *)
Inductive Event : Type :=
| EWheel (now : Z) (tempEvent : WheelEvent)
| ETick (now : Z)
| ETouchStart (originalEvent : OriginalEvent)
| ETouchMove (originalEvent : OriginalEvent)
| ETouchEnd (originalEvent : OriginalEvent).

(** The handler registered for each event. *)
Definition handle (event : Event) (ui : UI) : Outcome :=
  match event with
  | EWheel now tempEvent => Done (dispatch_wheel now tempEvent ui)
  | ETick now => Done (advance now ui)
  | ETouchStart originalEvent => Done (on_touchstart originalEvent ui)
  | ETouchMove originalEvent => on_touchmove originalEvent ui
  | ETouchEnd originalEvent => Done (on_touchend originalEvent ui)
  end.

(** A series of events, as far as the handlers run to their end: the run
    stops at the first handler that throws. *)
Fixpoint run (events : list Event) (ui : UI) : Outcome :=
  match events with
  | [] => Done ui
  | event :: events' =>
      match handle event ui with
      | Done ui' => run events' ui'
      | failure => failure
      end
  end.

(** The scale extent is an interval: its lower bound is not above its upper
    bound. *)
Definition ordered (extent : R * Bound) : Prop :=
  match extent.2 with
  | Finite upper => extent.1 <= upper
  | Infinity => True
  end.

(** A number lies within the scale extent; [NaN] does not. *)
Definition within (k : Num) (extent : R * Bound) : Prop :=
  le (Real extent.1) k /\ le k (of_bound extent.2).

(** The touch records are consistent: a second record comes with a first
    one, and the two are records of different touches. *)
Definition touches_consistent (g : Gesture) : Prop :=
  match touch1 g with
  | Some t1 =>
      match touch0 g with
      | Some t0 => touch_identifier t0 <> touch_identifier t1
      | None => False
      end
  | None => True
  end.

(** The debounce timer is consistent: the pending timers of the window are
    the timer named by [gesture.wheel], or none when it is [null]. *)
Definition timer_consistent (ui : UI) : Prop :=
  match wheel (gesture ui) with
  | Some id => exists due, timers ui = [(id, due)]
  | None => timers ui = []
  end.

(** The number of wheel gestures that have started and not ended: 1 while
    the debounce timer is pending. *)
Definition open_wheel (ui : UI) : nat :=
  match wheel (gesture ui) with
  | Some _ => 1
  | None => 0
  end.

(** The chart of the examples with the scale extent from 1/2 to 4. *)
Definition example_bounded : UI :=
  {| scaleExtent := (1 / 2, Finite 4);
     transform := transform create;
     originalTransform := originalTransform create;
     gesture := gesture create;
     emitted := emitted create;
     timers := timers create;
     next_timer := next_timer create;
     clock := clock create |}.


(** A series of [touchmove] events. *)
Definition touch_moves (es : list TouchEvent) : list Event :=
  (fun e => ETouchMove (IsTouchEvent e)) <$> es.

(** The first touch of a list that is not the given touch, by
    identifier. *)
Definition other_touch (a : Touch) (l : list Touch) : option Touch :=
  List.find (fun t => negb (Z.eqb (identifier a) (identifier t))) l.

(** The two ways in which two fingers [a] and [b] land on a chart without
    touches: together, in one [touchstart] whose first touch is [a] and
    whose next touch with another identifier is [b]; or one by one, [a]
    alone in a first [touchstart], then the moves [ms] of this finger, then
    a [touchstart] whose first touch with another identifier is [b]. *)
Inductive Landing (a b : Touch) : list TouchEvent -> list Event -> Prop :=
| together (s : TouchEvent) (rest : list Touch) :
    touches s = a :: rest ->
    other_touch a rest = Some b ->
    Landing a b [] [ETouchStart (IsTouchEvent s)]
| one_by_one (s1 s2 : TouchEvent) (ms : list TouchEvent) :
    touches s1 = [a] ->
    other_touch a (touches s2) = Some b ->
    Landing a b ms
      (ETouchStart (IsTouchEvent s1) :: touch_moves ms ++ [ETouchStart (IsTouchEvent s2)]).

End ZoomRun.

(** Case analysis on the comparisons of real numbers inside the operations
    on numbers. *)
Ltac num_cases :=
  unfold Zoom.clamp, Zoom.leb, Zoom.of_bound, Zoom.mul, Zoom.div, Zoom.Math_sqrt,
    Zoom.signed_infinity in *;
  repeat (cbv beta iota;
          match goal with
          | |- context [Rle_dec ?a ?b] => destruct (Rle_dec a b)
          | |- context [Rlt_dec ?a ?b] => destruct (Rlt_dec a b)
          | |- context [Req_dec_T ?a ?b] => destruct (Req_dec_T a b)
          end);
  cbv beta iota.

(** ** Digit strings *)

Module NumberText.

(** Whether a character is a decimal digit, and whether a string consists
    of decimal digits. *)
Definition is_digit (c : ascii) : bool :=
  match Number.digit_of c with
  | Some _ => true
  | None => false
  end.

Fixpoint all_digits (s : string) : bool :=
  match s with
  | EmptyString => true
  | String c s' => is_digit c && all_digits s'
  end.

End NumberText.

(** ** Views of the pointer state *)

Module PointerView.

Import Pointer.

(** The chart data cached by [update]. *)
Definition chart_data (ui : UI) : Data :=
  {| new_prices := prices ui; new_volumes := volumes ui; new_midPrice := midPrice ui;
     new_priceLabels := priceLabels ui; new_volumeLabels := volumeLabels ui;
     new_priceScale := priceScale ui; new_volumeScale := volumeScale ui |}.

(** What the handler reads besides the chart data: the indicative price,
    the resolution and the size of the view, and the kind of device. *)
Definition settings (ui : UI) : Q * Q * Q * Q * bool :=
  (_indicativePrice ui, resolution ui, view_width ui, view_height ui, touch_device ui).

(** The ten overlays of the buy side and of the sell side. *)
Definition side_overlays (ui : UI) :
    bool * bool * bool * bool * Label * Label * Label * Label * Label * Label :=
  (buyIndicator ui, sellIndicator ui, buyOverlay ui, sellOverlay ui,
   buyPriceText ui, buyVolumeText ui, buyVolRatioText ui,
   sellPriceText ui, sellVolumeText ui, sellVolRatioText ui).

(** The three overlays of auction mode. *)
Definition auction_overlays (ui : UI) : bool * Label * Label :=
  (auctionIndicator ui, auctionPriceText ui, auctionVolumeText ui).

(** A series of pointer moves. *)
Definition pointer_moves (formatVolumeTick : Q -> string)
    (delaunay_find : list (Q * Q) -> Q -> Q -> Z)
    (events : list InteractionEvent) (ui : UI) : UI :=
  foldl (fun ui event => onPointerMove formatVolumeTick delaunay_find event ui) ui events.

(** What the owner of the chart and the pointer do to it, the indicative
    price apart: pointer moves, pointer outs, [update], [updatePrice] and
    [clearPrice]. *)
Inductive Action : Type :=
| Move (event : InteractionEvent)
| Out
| Update (d : Data)
| UpdatePrice (price : Q)
| ClearPrice.

Definition act (formatVolumeTick : Q -> string)
    (delaunay_find : list (Q * Q) -> Q -> Q -> Z) (ui : UI) (a : Action) : UI :=
  match a with
  | Move event => onPointerMove formatVolumeTick delaunay_find event ui
  | Out => onPointerOut ui
  | Update d => update formatVolumeTick delaunay_find d ui
  | UpdatePrice price => updatePrice formatVolumeTick delaunay_find price ui
  | ClearPrice => clearPrice ui
  end.

Definition acts (formatVolumeTick : Q -> string)
    (delaunay_find : list (Q * Q) -> Q -> Q -> Z) (actions : list Action) (ui : UI) : UI :=
  foldl (act formatVolumeTick delaunay_find) ui actions.

(** The chart of the examples when an auction has just ended: the pointer
    was next to the first point in auction mode, which shows the auction
    overlays, and then the indicative price became 0. *)
Definition example_after_auction : UI :=
  set_indicativePrice 0
    (example_move (pointer_at 12 6) (set_indicativePrice 1 (example_ui example_labels))).

(** Chart data without any point, and the chart of the examples after a
    pointer move to the pixel 32, which shows both sides. *)
Definition no_data : Data :=
  {| new_prices := []; new_volumes := []; new_midPrice := 25;
     new_priceLabels := []; new_volumeLabels := [];
     new_priceScale := example_scale; new_volumeScale := example_scale |}.

Definition example_shown : UI :=
  example_move (pointer_at 32 3) (example_ui example_labels).

(** The chart of the examples when an auction begins while both sides are
    shown. *)
Definition example_in_auction : UI := set_indicativePrice 1 example_shown.

End PointerView.

(** ** Laws of the axis state *)

Module AxisLaws.

Import HorizontalAxis.
Local Open Scope Q_scope.

(** The children of the axis are the nodes that the caches reach from the
    cached labels: no node is a child twice, there are two children for each
    cached label, every cached label node and its tick mark are children,
    different labels have different nodes and different tick marks, no
    label node is a tick mark, and every child was created before the next
    free address. *)
Definition tidy (axis : t) : Prop :=
  NoDup (children axis) /\
  length (children axis) = (2 * size (nodeByKeyValue axis))%nat /\
  (forall k a, nodeByKeyValue axis !! k = Some a -> a ∈ children axis) /\
  (forall k m, is_Some (nodeByKeyValue axis !! k) ->
     tmByKeyValue axis !! tm_key k = Some m -> m ∈ children axis) /\
  (forall k1 k2 a, nodeByKeyValue axis !! k1 = Some a ->
     nodeByKeyValue axis !! k2 = Some a -> k1 = k2) /\
  (forall k1 k2 m, is_Some (nodeByKeyValue axis !! k1) ->
     is_Some (nodeByKeyValue axis !! k2) ->
     tmByKeyValue axis !! tm_key k1 = Some m ->
     tmByKeyValue axis !! tm_key k2 = Some m -> k1 = k2) /\
  (forall k1 k2 a, nodeByKeyValue axis !! k1 = Some a ->
     is_Some (nodeByKeyValue axis !! k2) ->
     tmByKeyValue axis !! tm_key k2 = Some a -> False) /\
  (forall a, a ∈ children axis -> (a < next axis)%nat).

(** The state laws together. *)
Definition good (axis : t) : Prop := tidy axis /\ paired axis /\ bar_free axis.

(** The label node and the tick mark of a tick, as [update] leaves them:
    the text, the position and the colour of the label node, and the
    position of the tick mark. *)
Definition label_placed (AXIS_HEIGHT : Q) (scale : Scale.t) (width height resolution : Q)
    (textSecondary : N) (tick : Q) (node : Text.t) : Prop :=
  Text.text node = tickFormat scale width resolution tick /\
  Text.x node = Scale.apply scale tick /\
  Text.y node = height - (resolution * AXIS_HEIGHT) / 2 + 5 /\
  Text.fill node = textSecondary.

Definition mark_placed (AXIS_HEIGHT : Q) (scale : Scale.t) (height resolution : Q)
    (tick : Q) (node : Text.t) : Prop :=
  Text.text node = "|" /\
  Text.x node = Scale.apply scale tick /\
  Text.y node = height - (resolution * AXIS_HEIGHT) / 2 - 5.

(** The store holds the nodes of the cached labels: the label node of a
    label shows the label, its tick mark shows a bar. *)
Definition stored (axis : t) : Prop :=
  (forall k a, nodeByKeyValue axis !! k = Some a ->
     exists node, store axis !! a = Some node /\ Text.text node = k) /\
  (forall k m, is_Some (nodeByKeyValue axis !! k) ->
     tmByKeyValue axis !! tm_key k = Some m ->
     exists node, store axis !! m = Some node /\ Text.text node = "|").

(** A tick is placed on the axis: its label has a cached node, its tick
    mark is cached under the label followed by a bar, and both nodes are in
    the store with the attributes that [update] gives them. *)
Definition placed (AXIS_HEIGHT : Q) (scale : Scale.t) (width height resolution : Q)
    (textSecondary : N) (axis : t) (tick : Q) : Prop :=
  exists a m na nm,
    nodeByKeyValue axis !! tickFormat scale width resolution tick = Some a /\
    tmByKeyValue axis !! tm_key (tickFormat scale width resolution tick) = Some m /\
    store axis !! a = Some na /\
    store axis !! m = Some nm /\
    label_placed AXIS_HEIGHT scale width height resolution textSecondary tick na /\
    mark_placed AXIS_HEIGHT scale height resolution tick nm.

(** The arguments of one call of [update], and a sequence of calls on the
    same axis; an exception ends the sequence. *)
Record Call : Type := call {
  call_scale : Scale.t;
  call_width : Q;
  call_height : Q;
  call_resolution : Q;
  call_textSecondary : N
}.

Definition call_update (AXIS_HEIGHT FONT_SIZE : Q) (c : Call) (axis : t) : option t :=
  update AXIS_HEIGHT FONT_SIZE (call_scale c) (call_width c) (call_height c)
    (call_resolution c) (call_textSecondary c) axis.

Fixpoint updates (AXIS_HEIGHT FONT_SIZE : Q) (cs : list Call) (axis : t) : option t :=
  match cs with
  | [] => Some axis
  | c :: cs' =>
      match call_update AXIS_HEIGHT FONT_SIZE c axis with
      | Some axis' => updates AXIS_HEIGHT FONT_SIZE cs' axis'
      | None => None
      end
  end.

Definition call_labels (c : Call) : list string :=
  tickFormat (call_scale c) (call_width c) (call_resolution c) <$>
  ticks (call_scale c) (call_width c) (call_resolution c).

(** The labels of a call are plain: pairwise different, and none ends with
    a bar. *)
Definition plain_labels (c : Call) : Prop :=
  NoDup (call_labels c) /\ forall k, k ∈ call_labels c -> ends_with_bar k = false.

(** The calls of the examples: a first call with the ticks 1 and 2, the
    axis it leaves from a new axis, and a second call that moves the scale,
    keeps tick 2, brings tick 3 and has another colour. *)
Definition first_call : Call :=
  {| call_scale := fixed_scale (fun q => q) [1; 2] small_format;
     call_width := 800; call_height := 600; call_resolution := 1;
     call_textSecondary := 8421504%N |}.

Definition first_axis : t := default create (call_update 50 12 first_call create).

Definition second_call : Call :=
  {| call_scale := fixed_scale (fun q => q + 4) [2; 3] small_format;
     call_width := 800; call_height := 600; call_resolution := 1;
     call_textSecondary := 255%N |}.

End AxisLaws.

(** Lists of string literals: pairwise different, and membership by
    cases. *)
Ltac distinct_strings :=
  repeat (apply NoDup_cons_2; [rewrite ?elem_of_cons, elem_of_nil; intuition discriminate|]);
  apply NoDup_nil_2.

Ltac each_string H :=
  repeat (apply elem_of_cons in H as [->|H]; [reflexivity|]); inversion H.


(** * Properties *)

(** ** The binary searches *)

Section BisectFacts.

Import Bisect.
Local Open Scope Q_scope.

Lemma Qltb_lt (a b : Q) : Qltb a b = true <-> a < b.
Proof.
  unfold Qltb. rewrite negb_true_iff. split.
  - intros H. apply Qnot_le_lt. intros Hle.
    apply Qle_bool_iff in Hle. congruence.
  - intros H. destruct (Qle_bool b a) eqn:E; [|reflexivity].
    apply Qle_bool_iff in E. lraQ.
Qed.

Lemma Qltb_ge (a b : Q) : Qltb a b = false <-> b <= a.
Proof.
  unfold Qltb. rewrite negb_false_iff. apply Qle_bool_iff.
Qed.

Lemma Qle_bool_gt (a b : Q) : Qle_bool a b = false <-> b < a.
Proof.
  split.
  - intros H. apply Qnot_le_lt. intros Hle.
    apply Qle_bool_iff in Hle. congruence.
  - intros H. destruct (Qle_bool a b) eqn:E; [|reflexivity].
    apply Qle_bool_iff in E. lraQ.
Qed.

(** A strictly sorted list, read through its indices. *)
Lemma sorted_lookup_lt (a : list Q) :
  StronglySorted Qlt a ->
  forall i j vi vj, (i < j)%nat -> a !! i = Some vi -> a !! j = Some vj -> vi < vj.
Proof.
  induction 1 as [|v a Hs IH Hall]; intros i j vi vj Hij Hi Hj.
  - rewrite lookup_nil in Hi. discriminate.
  - destruct j as [|j]; [lia|]. simpl in Hj.
    destruct i as [|i]; simpl in Hi.
    + injection Hi as <-. rewrite Forall_forall in Hall.
      apply Hall. eapply list_elem_of_lookup_2; eauto.
    + apply (IH i j vi vj); [lia|exact Hi|exact Hj].
Qed.

Lemma sorted_lookup_le (a : list Q) :
  StronglySorted Qle a ->
  forall i j vi vj, (i <= j)%nat -> a !! i = Some vi -> a !! j = Some vj -> vi <= vj.
Proof.
  induction 1 as [|v a Hs IH Hall]; intros i j vi vj Hij Hi Hj.
  - rewrite lookup_nil in Hi. discriminate.
  - destruct i as [|i]; simpl in Hi.
    + injection Hi as <-. destruct j as [|j]; simpl in Hj.
      * injection Hj as <-. lraQ.
      * rewrite Forall_forall in Hall.
        apply Hall. eapply list_elem_of_lookup_2; eauto.
    + destruct j as [|j]; [lia|]. simpl in Hj.
      apply (IH i j vi vj); [lia|exact Hi|exact Hj].
Qed.

Lemma sorted_lt_le (a : list Q) : StronglySorted Qlt a -> StronglySorted Qle a.
Proof.
  induction 1 as [|v a Hs IH Hall]; constructor; auto.
  eapply Forall_impl; [exact Hall|]. intros; simpl in *; lraQ.
Qed.


(** When the entries that pass [test] form a prefix of the array, the loop
    returns the length of that prefix within [lo, hi). *)
Lemma bisect_loop_spec (test : Q -> Q -> bool) (a : list Q) (x : Q) :
  prefix_test test a x ->
  forall fuel lo hi, (lo <= hi)%nat -> (hi - lo <= fuel)%nat ->
    (lo <= bisect_loop test a x fuel lo hi <= hi)%nat /\
    (forall j v, (lo <= j < bisect_loop test a x fuel lo hi)%nat ->
       a !! j = Some v -> test v x = true) /\
    (forall j v, (bisect_loop test a x fuel lo hi <= j < hi)%nat ->
       a !! j = Some v -> test v x = false).
Proof.
  intros Hpre. induction fuel as [|fuel IH]; intros lo hi Hle Hfuel; cbn [bisect_loop].
  - split; [lia|split]; intros; lia.
  - destruct (Nat.ltb_spec lo hi) as [Hlt|Hge].
    2:{ split; [lia|split]; intros; lia. }
    set (mid := ((lo + hi) / 2)%nat) in *.
    assert (Hmid : (lo <= mid < hi)%nat).
    { unfold mid. split.
      - apply Nat.div_le_lower_bound; lia.
      - apply Nat.Div0.div_lt_upper_bound; lia. }
    clearbody mid. unfold elem_test. destruct (a !! mid) as [vm|] eqn:Em.
    + destruct (test vm x) eqn:Et.
      * destruct (IH (mid + 1)%nat hi) as (Hr & Hl & Hh); [lia|lia|].
        split; [lia|split].
        -- intros j v Hj Hv. destruct (Nat.le_gt_cases j mid) as [Hjm|Hjm].
           ++ eapply Hpre; eauto.
           ++ eapply Hl; eauto. lia.
        -- intros j v Hj Hv. eapply Hh; eauto.
      * destruct (IH lo mid) as (Hr & Hl & Hh); [lia|lia|].
        split; [lia|split].
        -- exact Hl.
        -- intros j v Hj Hv.
           destruct (Nat.lt_ge_cases j mid) as [Hjm|Hjm].
           ++ eapply Hh; eauto. lia.
           ++ destruct (test v x) eqn:Ev; [|reflexivity].
              rewrite <- Et. symmetry. eapply Hpre; [exact Hjm|exact Em|exact Hv|exact Ev].
    + destruct (IH lo mid) as (Hr & Hl & Hh); [lia|lia|].
      split; [lia|split].
      * exact Hl.
      * intros j v Hj Hv.
        destruct (Nat.lt_ge_cases j mid) as [Hjm|Hjm].
        -- eapply Hh; eauto. lia.
        -- apply lookup_ge_None in Em. apply lookup_lt_Some in Hv. lia.
Qed.

Lemma prefix_test_lt (a : list Q) (x : Q) :
  StronglySorted Qle a -> prefix_test Qltb a x.
Proof.
  intros Hs i j vi vj Hij Hi Hj Ht. apply Qltb_lt in Ht. apply Qltb_lt.
  pose proof (sorted_lookup_le a Hs i j vi vj Hij Hi Hj). lraQ.
Qed.

Lemma prefix_test_le (a : list Q) (x : Q) :
  StronglySorted Qle a -> prefix_test Qle_bool a x.
Proof.
  intros Hs i j vi vj Hij Hi Hj Ht. apply Qle_bool_iff in Ht. apply Qle_bool_iff.
  pose proof (sorted_lookup_le a Hs i j vi vj Hij Hi Hj). lraQ.
Qed.

(** [bisectLeft]: the entries before the result are below [x], the entries
    from the result on are not. *)
Lemma bisectLeft_in_spec (a : list Q) (x : Q) (lo hi : nat) :
  StronglySorted Qle a -> (lo <= hi)%nat ->
  (lo <= bisectLeft_in a x lo hi <= hi)%nat /\
  (forall j v, (lo <= j < bisectLeft_in a x lo hi)%nat -> a !! j = Some v -> v < x) /\
  (forall j v, (bisectLeft_in a x lo hi <= j < hi)%nat -> a !! j = Some v -> x <= v).
Proof.
  intros Hs Hle. unfold bisectLeft_in.
  destruct (bisect_loop_spec Qltb a x (prefix_test_lt a x Hs) (hi - lo) lo hi)
    as (Hr & Hl & Hh); [lia|lia|].
  split; [lia|split].
  - intros j v Hj Hv. apply Qltb_lt. eauto.
  - intros j v Hj Hv. apply Qltb_ge. eauto.
Qed.

Lemma bisectRight_in_spec (a : list Q) (x : Q) (lo hi : nat) :
  StronglySorted Qle a -> (lo <= hi)%nat ->
  (lo <= bisectRight_in a x lo hi <= hi)%nat /\
  (forall j v, (lo <= j < bisectRight_in a x lo hi)%nat -> a !! j = Some v -> v <= x) /\
  (forall j v, (bisectRight_in a x lo hi <= j < hi)%nat -> a !! j = Some v -> x < v).
Proof.
  intros Hs Hle. unfold bisectRight_in.
  destruct (bisect_loop_spec Qle_bool a x (prefix_test_le a x Hs) (hi - lo) lo hi)
    as (Hr & Hl & Hh); [lia|lia|].
  split; [lia|split].
  - intros j v Hj Hv. apply Qle_bool_iff. eauto.
  - intros j v Hj Hv. apply Qle_bool_gt. eauto.
Qed.

End BisectFacts.

(** ** The nearest price (C1) *)

Section NearestIndex.

Import Bisect.
Local Open Scope Q_scope.


Lemma last_lookup_pred (a : list Q) (l : Q) :
  last a = Some l -> a !! (length a - 1)%nat = Some l.
Proof.
  rewrite last_lookup. intros H.
  replace (length a - 1)%nat with (Nat.pred (length a)) by lia. exact H.
Qed.

(** C1. On a strictly ascending, non-empty price array the centred search
    returns an index of the array whose price is at least as near to the
    pointer as every other price, strictly nearer than every price at a
    lower index (a tie goes to the lower index), and it is the last index
    when the pointer lies beyond the last price. *)
Theorem bisectCenter_nearest (prices : list Q) (x : Q) :
  StronglySorted Qlt prices -> prices <> [] ->
  exists p, prices !! bisectCenter prices x = Some p /\
    (forall j v, prices !! j = Some v -> Qabs (p - x) <= Qabs (v - x)) /\
    (forall j v, prices !! j = Some v -> (j < bisectCenter prices x)%nat ->
       Qabs (p - x) < Qabs (v - x)) /\
    (forall l, last prices = Some l -> l < x ->
       bisectCenter prices x = (length prices - 1)%nat).
Proof.
  intros Hs Hne.
  assert (Hlen : (0 < length prices)%nat).
  { destruct prices; [congruence|simpl; lia]. }
  pose proof (sorted_lookup_lt prices Hs) as Hlt.
  destruct (bisectLeft_in_spec prices x 0%nat (length prices - 1)%nat
              (sorted_lt_le prices Hs)) as (Hr & Hlo & Hhi); [lia|].
  unfold bisectCenter.
  destruct (bisectLeft_in prices x 0%nat (length prices - 1)%nat) as [|p] eqn:Ei.
  - (* the search stopped at the first entry *)
    destruct (lookup_lt_is_Some_2 prices 0%nat Hlen) as [a0 Ha0].
    exists a0. split; [exact Ha0|]. split; [|split].
    + intros j v Hv. destruct j as [|j].
      * assert (v = a0) by congruence. subst v. qabs.
      * pose proof (Hlt 0%nat (S j) a0 v ltac:(lia) Ha0 Hv).
        pose proof (lookup_lt_Some _ _ _ Hv).
        pose proof (Hhi 0%nat a0 ltac:(lia) Ha0). qabs.
    + intros j v _ Hj. lia.
    + intros l Hl Hx. apply last_lookup_pred in Hl.
      destruct (Nat.eq_dec (length prices - 1)%nat 0%nat) as [E|E]; [lia|].
      pose proof (Hhi 0%nat a0 ltac:(lia) Ha0).
      pose proof (Hlt 0%nat (length prices - 1)%nat a0 l ltac:(lia) Ha0 Hl). lraQ.
  - (* the search stopped at [S p]: the entry at [p] is below [x] *)
    assert (Hp : (p < length prices)%nat) by lia.
    assert (Hi : (S p < length prices)%nat) by lia.
    destruct (lookup_lt_is_Some_2 prices p Hp) as [l El].
    destruct (lookup_lt_is_Some_2 prices (S p) Hi) as [r Er].
    rewrite El, Er.
    pose proof (Hlo p l ltac:(lia) El) as Hlx.
    pose proof (Hlt p (S p) l r ltac:(lia) El Er) as Hlr.
    assert (Hmid : (S p < length prices - 1)%nat -> x <= r).
    { intros H. apply (Hhi (S p)); [lia|exact Er]. }
    destruct (Qle_bool (x - l) (r - x)) eqn:Ec.
    + apply Qle_bool_iff in Ec.
      exists l. split; [exact El|]. split; [|split].
      * intros j v Hv.
        destruct (Nat.lt_trichotomy j p) as [Hj|[Hj|Hj]].
        -- pose proof (Hlt j p v l Hj Hv El). qabs.
        -- subst j. assert (v = l) by congruence. subst v. qabs.
        -- destruct (Nat.eq_dec j (S p)) as [->|Hne'].
           ++ assert (v = r) by congruence. subst v. qabs.
           ++ pose proof (Hlt (S p) j r v ltac:(lia) Er Hv). qabs.
      * intros j v Hv Hj. pose proof (Hlt j p v l Hj Hv El). qabs.
      * intros lst Hl Hx. apply last_lookup_pred in Hl.
        exfalso.
        destruct (Nat.eq_dec (S p) (length prices - 1)%nat) as [E|E].
        -- rewrite <- E in Hl. assert (lst = r) by congruence. subst lst. lraQ.
        -- pose proof (Hlt (S p) (length prices - 1)%nat r lst ltac:(lia) Er Hl). lraQ.
    + apply Qle_bool_gt in Ec.
      exists r. split; [exact Er|]. split; [|split].
      * intros j v Hv.
        destruct (Nat.lt_trichotomy j (S p)) as [Hj|[Hj|Hj]].
        -- assert (v <= l).
           { destruct (Nat.eq_dec j p) as [->|Hne'].
             - assert (v = l) by congruence. subst v. lraQ.
             - pose proof (Hlt j p v l ltac:(lia) Hv El). lraQ. }
           qabs.
        -- subst j. assert (v = r) by congruence. subst v. qabs.
        -- pose proof (Hlt (S p) j r v Hj Er Hv).
           pose proof (lookup_lt_Some _ _ _ Hv).
           pose proof (Hmid ltac:(lia)). qabs.
      * intros j v Hv Hj.
        assert (v <= l).
        { destruct (Nat.eq_dec j p) as [->|Hne'].
          - assert (v = l) by congruence. subst v. lraQ.
          - pose proof (Hlt j p v l ltac:(lia) Hv El). lraQ. }
        qabs.
      * intros lst Hl Hx. apply last_lookup_pred in Hl.
        destruct (Nat.eq_dec (S p) (length prices - 1)%nat) as [E|E]; [exact E|exfalso].
        pose proof (Hmid ltac:(lia)).
        pose proof (Hlt (S p) (length prices - 1)%nat r lst ltac:(lia) Er Hl). lraQ.
Qed.

(** C1 at the example prices and the pointer at 25, which is as far from 20
    as from 30. *)
Lemma bisectCenter_nearest_witness :
  exists p, example_prices !! bisectCenter example_prices 25 = Some p /\
    (forall j v, example_prices !! j = Some v -> Qabs (p - 25) <= Qabs (v - 25)) /\
    (forall j v, example_prices !! j = Some v ->
       (j < bisectCenter example_prices 25)%nat -> Qabs (p - 25) < Qabs (v - 25)) /\
    (forall l, last example_prices = Some l -> l < 25 ->
       bisectCenter example_prices 25 = (length example_prices - 1)%nat).
Proof.
  apply (bisectCenter_nearest example_prices 25).
  - repeat constructor.
  - discriminate.
Defined.

Example bisectCenter_tie : bisectCenter example_prices 25 = 1%nat.
Proof. reflexivity. Qed.

Example bisectCenter_beyond : bisectCenter example_prices 1000 = 3%nat.
Proof. reflexivity. Qed.

Example bisectCenter_before : bisectCenter example_prices (-5) = 0%nat.
Proof. reflexivity. Qed.

End NearestIndex.

(** ** The tick caches of the horizontal axis (C3, C4) *)

Section AxisFacts.

Import HorizontalAxis.

Variables (AXIS_HEIGHT FONT_SIZE : Q).

Lemma ends_with_bar_tm_key (k : string) : ends_with_bar (tm_key k) = true.
Proof.
  unfold tm_key. induction k as [|c k IH]; [reflexivity|].
  simpl. destruct (k +:+ "|") eqn:E; [|exact IH].
  destruct k; discriminate.
Qed.

Lemma tm_key_neq (e k : string) : ends_with_bar e = false -> e <> tm_key k.
Proof. intros He ->. rewrite ends_with_bar_tm_key in He. discriminate. Qed.

Lemma tm_key_inj (k1 k2 : string) : tm_key k1 = tm_key k2 -> k1 = k2.
Proof.
  unfold tm_key. revert k2. induction k1 as [|c k1 IH]; intros [|c2 k2] H; simpl in H.
  - reflexivity.
  - destruct k2; discriminate.
  - destruct k1; discriminate.
  - injection H as -> H. f_equal. auto.
Qed.


Lemma well_formed_create : well_formed create.
Proof.
  split; intros k [a Ha]; simpl in Ha; rewrite lookup_empty in Ha; discriminate.
Qed.

Section OneCall.

Variables (scale : Scale.t) (width height resolution : Q) (textSecondary : N).

Local Abbreviation fmt := (tickFormat scale width resolution).
Local Abbreviation labels := (tickFormat scale width resolution <$> ticks scale width resolution).
Local Abbreviation enter_step :=
  (enter_step AXIS_HEIGHT FONT_SIZE scale width height resolution textSecondary).
Local Abbreviation update_step :=
  (update_step AXIS_HEIGHT scale width height resolution textSecondary).
Local Abbreviation update :=
  (update AXIS_HEIGHT FONT_SIZE scale width height resolution textSecondary).

(** *** The loop over [enter] *)

Lemma enter_loop_node (l : list Q) (axis : t) (k : string) :
  is_Some (nodeByKeyValue (foldl enter_step axis l) !! k) <->
  is_Some (nodeByKeyValue axis !! k) \/ k ∈ fmt <$> l.
Proof.
  revert axis. induction l as [|a l IH]; intros axis; simpl.
  - rewrite elem_of_nil. tauto.
  - rewrite IH. simpl. rewrite elem_of_cons.
    destruct (decide (k = fmt a)) as [->|Hne].
    + rewrite lookup_insert_eq. split; intros _; [right; left; reflexivity|left; eauto].
    + rewrite lookup_insert_ne by congruence. tauto.
Qed.

Lemma enter_loop_tm (l : list Q) (axis : t) (k : string) :
  is_Some (tmByKeyValue (foldl enter_step axis l) !! k) <->
  is_Some (tmByKeyValue axis !! k) \/ k ∈ (fun a => tm_key (fmt a)) <$> l.
Proof.
  revert axis. induction l as [|a l IH]; intros axis; simpl.
  - rewrite elem_of_nil. tauto.
  - rewrite IH. simpl. rewrite elem_of_cons.
    destruct (decide (k = tm_key (fmt a))) as [->|Hne].
    + rewrite lookup_insert_eq. split; intros _; [right; left; reflexivity|left; eauto].
    + rewrite lookup_insert_ne by congruence. tauto.
Qed.

(** *** The loop over [update] *)

Lemma update_step_caches (axis axis' : t) (a : Q) :
  update_step axis a = Some axis' ->
  nodeByKeyValue axis' = nodeByKeyValue axis /\
  tmByKeyValue axis' = tmByKeyValue axis /\
  children axis' = children axis /\
  next axis' = next axis.
Proof.
  unfold HorizontalAxis.update_step.
  destruct (nodeByKeyValue axis !! fmt a) as [text|]; [|discriminate]. simpl.
  destruct (tmByKeyValue axis !! tm_key (fmt a)) as [tm|]; [|discriminate].
  intros H. injection H as <-. simpl. auto.
Qed.

Lemma for_each_caches (l : list Q) (axis axis' : t) :
  for_each update_step axis l = Some axis' ->
  nodeByKeyValue axis' = nodeByKeyValue axis /\
  tmByKeyValue axis' = tmByKeyValue axis /\
  children axis' = children axis /\
  next axis' = next axis.
Proof.
  revert axis. induction l as [|a l IH]; intros axis; simpl.
  - intros H. injection H as <-. auto.
  - destruct (update_step axis a) as [ax|] eqn:E; [|discriminate].
    intros H. apply IH in H. apply update_step_caches in E.
    destruct H as (-> & -> & -> & ->). exact E.
Qed.

Lemma update_loop (l : list Q) (axis : t) :
  (forall a, a ∈ l -> is_Some (nodeByKeyValue axis !! fmt a) /\
                     is_Some (tmByKeyValue axis !! tm_key (fmt a))) ->
  exists axis', for_each update_step axis l = Some axis' /\
    nodeByKeyValue axis' = nodeByKeyValue axis /\
    tmByKeyValue axis' = tmByKeyValue axis /\
    children axis' = children axis /\
    next axis' = next axis.
Proof.
  revert axis. induction l as [|a l IH]; intros axis Hall; simpl.
  - exists axis. auto.
  - destruct (Hall a) as [[text Ht] [tm Htm]]; [left|].
    unfold HorizontalAxis.update_step. rewrite Ht. simpl. rewrite Htm.
    match goal with
    | |- context [for_each _ ?ax l] => destruct (IH ax) as (axis' & Hrun & Hn & Htm' & Hc & Hx)
    end.
    { intros b Hb. simpl. apply Hall. right. exact Hb. }
    exists axis'. split; [exact Hrun|]. simpl in *. auto.
Qed.

(** *** The loop over [exit] *)

Lemma exit_loop_node (l : list string) (axis : t) (k : string) :
  nodeByKeyValue (foldl exit_step axis l) !! k =
  if decide (k ∈ l) then None else nodeByKeyValue axis !! k.
Proof.
  revert axis. induction l as [|e l IH]; intros axis; simpl.
  - destruct (decide (k ∈ [])) as [H|H]; [inversion H|reflexivity].
  - rewrite IH. unfold exit_step.
    assert (Hn : forall o1 o2 ax,
      nodeByKeyValue (removeChild o1 (set_tmByKeyValue (delete e (tmByKeyValue
        (removeChild o2 ax))) (removeChild o2 ax))) = nodeByKeyValue ax).
    { intros [?|] [?|] ax; reflexivity. }
    rewrite Hn. simpl.
    destruct (decide (k ∈ l)) as [Hl|Hl].
    + rewrite decide_True by (right; exact Hl). reflexivity.
    + destruct (decide (k = e)) as [->|Hne].
      * rewrite decide_True by left. apply lookup_delete_eq.
      * rewrite decide_False by (rewrite elem_of_cons; tauto).
        apply lookup_delete_ne. congruence.
Qed.

Lemma exit_loop_tm (l : list string) (axis : t) (k : string) :
  tmByKeyValue (foldl exit_step axis l) !! k =
  if decide (k ∈ l) then None else tmByKeyValue axis !! k.
Proof.
  revert axis. induction l as [|e l IH]; intros axis; simpl.
  - destruct (decide (k ∈ [])) as [H|H]; [inversion H|reflexivity].
  - rewrite IH. unfold exit_step.
    assert (Hn : forall o1 o2 ax,
      tmByKeyValue (removeChild o1 (set_tmByKeyValue (delete e (tmByKeyValue
        (removeChild o2 ax))) (removeChild o2 ax))) = delete e (tmByKeyValue ax)).
    { intros [?|] [?|] ax; reflexivity. }
    rewrite Hn. simpl.
    destruct (decide (k ∈ l)) as [Hl|Hl].
    + rewrite decide_True by (right; exact Hl). reflexivity.
    + destruct (decide (k = e)) as [->|Hne].
      * rewrite decide_True by left. apply lookup_delete_eq.
      * rewrite decide_False by (rewrite elem_of_cons; tauto).
        apply lookup_delete_ne. congruence.
Qed.

(** *** The whole call *)

Lemma elem_of_enter (axis : t) (a : Q) :
  a ∈ enter scale width resolution axis <->
  ~ is_Some (nodeByKeyValue axis !! fmt a) /\ a ∈ ticks scale width resolution.
Proof. unfold enter. rewrite list_elem_of_filter. reflexivity. Qed.

Lemma elem_of_update_ticks (axis : t) (a : Q) :
  a ∈ update_ticks scale width resolution axis <->
  is_Some (nodeByKeyValue axis !! fmt a) /\ a ∈ ticks scale width resolution.
Proof. unfold update_ticks. rewrite list_elem_of_filter. reflexivity. Qed.

Lemma elem_of_exit (axis : t) (k : string) :
  k ∈ exit scale width resolution axis <->
  (k ∉ labels) /\ is_Some (nodeByKeyValue axis !! k).
Proof.
  unfold exit. rewrite list_elem_of_filter, elem_of_elements, elem_of_dom. tauto.
Qed.

(** After a call that ran to its end, the labels cached in
    [nodeByKeyValue] are the formatted ticks of the call. *)
Lemma update_label_keys (axis axis' : t) :
  update axis = Some axis' ->
  forall k, is_Some (nodeByKeyValue axis' !! k) <-> k ∈ labels.
Proof.
  unfold HorizontalAxis.update.
  destruct (for_each _ _ _) as [ax|] eqn:E; [|discriminate].
  intros H k. injection H as <-.
  apply for_each_caches in E. destruct E as (Hn & _).
  rewrite exit_loop_node, Hn.
  destruct (decide (k ∈ exit scale width resolution axis)) as [Hex|Hex].
  - apply elem_of_exit in Hex. split; [intros [? ?]; discriminate|tauto].
  - rewrite enter_loop_node. rewrite elem_of_exit in Hex. split.
    + intros [Hold|Hnew].
      * destruct (decide (k ∈ labels)); tauto.
      * apply list_elem_of_fmap in Hnew. destruct Hnew as (a & -> & Ha).
        apply elem_of_enter in Ha. apply list_elem_of_fmap_2. tauto.
    + intros Hk.
      destruct (decide (is_Some (nodeByKeyValue axis !! k))) as [Hs|Hs]; [left; exact Hs|].
      right. apply list_elem_of_fmap in Hk. destruct Hk as (a & -> & Ha).
      apply list_elem_of_fmap_2. apply elem_of_enter. tauto.
Qed.

(** When the formatted ticks are pairwise different, there are as many
    cached label nodes as ticks. *)
Lemma update_node_count (axis axis' : t) :
  NoDup labels ->
  update axis = Some axis' ->
  size (nodeByKeyValue axis') = length (ticks scale width resolution).
Proof.
  intros Hnd Hrun.
  rewrite <- size_dom, <- (length_fmap fmt).
  rewrite <- (size_list_to_set (C := gset string) labels) by exact Hnd.
  f_equal. apply set_eq. intros k.
  rewrite elem_of_dom, elem_of_list_to_set.
  apply (update_label_keys axis axis' Hrun).
Qed.

(** The tick mark cache keeps every entry it has: the loop over [exit]
    deletes under the label, and the tick marks are cached under the label
    followed by a bar. *)
Lemma update_keeps_tick_marks (axis axis' : t) :
  bar_free axis ->
  update axis = Some axis' ->
  forall k, ends_with_bar k = true ->
    is_Some (tmByKeyValue axis !! k) -> is_Some (tmByKeyValue axis' !! k).
Proof.
  intros Hb. unfold HorizontalAxis.update.
  destruct (for_each _ _ _) as [ax|] eqn:E; [|discriminate].
  intros H k Hk Hin. injection H as <-.
  apply for_each_caches in E. destruct E as (_ & Htm & _).
  rewrite exit_loop_tm, Htm.
  destruct (decide (k ∈ exit scale width resolution axis)) as [Hex|Hex].
  - apply elem_of_exit in Hex. destruct Hex as [_ Hex].
    apply Hb in Hex. congruence.
  - apply enter_loop_tm. left. exact Hin.
Qed.

(** From a well-formed axis, and with labels that do not end with a bar,
    the call runs to its end and leaves a well-formed axis. *)
Lemma update_runs (axis : t) :
  well_formed axis ->
  (forall k, k ∈ labels -> ends_with_bar k = false) ->
  exists axis', update axis = Some axis' /\ well_formed axis'.
Proof.
  intros [Hp Hb] Hlab.
  set (ax1 := foldl enter_step axis (enter scale width resolution axis)).
  assert (Hp1 : paired ax1).
  { intros k Hk. apply enter_loop_node in Hk. apply enter_loop_tm.
    destruct Hk as [Hk|Hk]; [left; auto|right].
    apply list_elem_of_fmap in Hk. destruct Hk as (a & -> & Ha).
    apply (list_elem_of_fmap_2 (fun a => tm_key (fmt a))). exact Ha. }
  destruct (update_loop (update_ticks scale width resolution axis) ax1)
    as (ax2 & Hrun & Hn & Htm & _).
  { intros a Ha. apply elem_of_update_ticks in Ha.
    assert (is_Some (nodeByKeyValue ax1 !! fmt a)).
    { apply enter_loop_node. tauto. }
    split; [assumption|apply Hp1; assumption]. }
  unfold HorizontalAxis.update. fold ax1. rewrite Hrun.
  eexists. split; [reflexivity|].
  assert (Hkeys : forall k,
    is_Some (nodeByKeyValue (foldl exit_step ax2 (exit scale width resolution axis)) !! k) ->
    (k ∉ exit scale width resolution axis) /\ is_Some (nodeByKeyValue ax1 !! k)).
  { intros k. rewrite exit_loop_node, Hn.
    destruct (decide (k ∈ exit scale width resolution axis)); [intros [? ?]; discriminate|tauto]. }
  assert (Hfree : forall k, is_Some (nodeByKeyValue ax1 !! k) -> ends_with_bar k = false).
  { intros k Hk. apply enter_loop_node in Hk. destruct Hk as [Hk|Hk]; [auto|].
    apply Hlab. apply list_elem_of_fmap in Hk. destruct Hk as (a & -> & Ha).
    apply elem_of_enter in Ha. apply list_elem_of_fmap_2. tauto. }
  split.
  - intros k Hk. apply Hkeys in Hk. destruct Hk as [_ Hk].
    rewrite exit_loop_tm, Htm.
    rewrite decide_False; [apply Hp1; exact Hk|].
    intros Hin. apply elem_of_exit in Hin. destruct Hin as [_ Hin].
    apply Hb in Hin. rewrite ends_with_bar_tm_key in Hin. discriminate.
  - intros k Hk. apply Hkeys in Hk. apply Hfree. tauto.
Qed.

(** A call on an axis whose cached labels are already the labels of the
    call creates nothing and removes nothing: both caches, the children
    and the store's next free address are as before. *)
Lemma update_same_labels (axis : t) :
  paired axis ->
  (forall k, is_Some (nodeByKeyValue axis !! k) <-> k ∈ labels) ->
  exists axis', update axis = Some axis' /\
    nodeByKeyValue axis' = nodeByKeyValue axis /\
    tmByKeyValue axis' = tmByKeyValue axis /\
    children axis' = children axis /\
    next axis' = next axis.
Proof.
  intros Hp Hkeys.
  assert (Hen : enter scale width resolution axis = []).
  { apply elem_of_nil_inv. intros a Ha. apply elem_of_enter in Ha.
    destruct Ha as [Hno Ha]. apply Hno, Hkeys. apply list_elem_of_fmap_2. exact Ha. }
  assert (Hex : exit scale width resolution axis = []).
  { apply elem_of_nil_inv. intros k Hk. apply elem_of_exit in Hk.
    destruct Hk as [Hno Hk]. apply Hno, Hkeys. exact Hk. }
  unfold HorizontalAxis.update. rewrite Hen, Hex. simpl.
  destruct (update_loop (update_ticks scale width resolution axis) axis)
    as (ax2 & Hrun & Hrest).
  { intros a Ha. apply elem_of_update_ticks in Ha. destruct Ha as [Ha _].
    split; [exact Ha|apply Hp; exact Ha]. }
  rewrite Hrun. exists ax2. split; [reflexivity|exact Hrest].
Qed.

End OneCall.

(** C4. From a well-formed axis and with labels that do not end with a
    bar, a call of [update] followed by a second call with the same set of
    labels both run to their end; after the first call every label has a
    cached node and the cache holds as many nodes as there are distinct
    labels, whatever was cached before; the second call leaves every
    cached node, every cached tick mark and the list of children as they
    are and creates no node. *)
Theorem update_twice_keeps_nodes (axis : t) (scale1 scale2 : Scale.t)
    (width1 height1 resolution1 width2 height2 resolution2 : Q) (color1 color2 : N) :
  well_formed axis ->
  (forall k, k ∈ tickFormat scale1 width1 resolution1 <$> ticks scale1 width1 resolution1 ->
     ends_with_bar k = false) ->
  (forall k, k ∈ tickFormat scale2 width2 resolution2 <$> ticks scale2 width2 resolution2 <->
             k ∈ tickFormat scale1 width1 resolution1 <$> ticks scale1 width1 resolution1) ->
  exists axis1 axis2,
    update AXIS_HEIGHT FONT_SIZE scale1 width1 height1 resolution1 color1 axis = Some axis1 /\
    update AXIS_HEIGHT FONT_SIZE scale2 width2 height2 resolution2 color2 axis1 = Some axis2 /\
    (forall k, k ∈ tickFormat scale1 width1 resolution1 <$> ticks scale1 width1 resolution1 ->
       is_Some (nodeByKeyValue axis1 !! k)) /\
    size (nodeByKeyValue axis1) =
      length (remove_dups (tickFormat scale1 width1 resolution1 <$> ticks scale1 width1 resolution1)) /\
    nodeByKeyValue axis2 = nodeByKeyValue axis1 /\
    tmByKeyValue axis2 = tmByKeyValue axis1 /\
    children axis2 = children axis1 /\
    next axis2 = next axis1.
Proof.
  intros Hwf Hfree Hsame.
  destruct (update_runs scale1 width1 height1 resolution1 color1 axis Hwf Hfree)
    as (axis1 & Hrun1 & Hwf1).
  pose proof (update_label_keys scale1 width1 height1 resolution1 color1 axis axis1 Hrun1)
    as Hkeys.
  destruct (update_same_labels scale2 width2 height2 resolution2 color2 axis1)
    as (axis2 & Hrun2 & Hrest).
  { apply Hwf1. }
  { intros k. rewrite Hkeys. symmetry. apply Hsame. }
  exists axis1, axis2. split; [exact Hrun1|]. split; [exact Hrun2|].
  split; [intros k Hk; apply Hkeys; exact Hk|].
  split; [|exact Hrest].
  rewrite <- size_dom.
  rewrite <- (size_list_to_set (C := gset string) (remove_dups _)) by apply NoDup_remove_dups.
  f_equal. apply set_eq. intros k.
  rewrite elem_of_dom, elem_of_list_to_set, elem_of_remove_dups. apply Hkeys.
Qed.

End AxisFacts.

Section AxisExamples.

Import HorizontalAxis.

(** C4 at the new axis: the ticks 1, 2, 3, then the same ticks in another
    order, at other positions and in another colour. *)
Lemma update_twice_keeps_nodes_witness :
  exists axis1 axis2,
    update 50 12 (fixed_scale (fun q => q) [1%Q; 2%Q; 3%Q] small_format) 800 600 1 7%N create
      = Some axis1 /\
    update 50 12 (fixed_scale (fun q => q + 4)%Q [3%Q; 1%Q; 2%Q] small_format) 1000 500 2 9%N axis1
      = Some axis2 /\
    (forall k, k ∈ small_format <$> [1%Q; 2%Q; 3%Q] -> is_Some (nodeByKeyValue axis1 !! k)) /\
    size (nodeByKeyValue axis1) = length (remove_dups (small_format <$> [1%Q; 2%Q; 3%Q])) /\
    nodeByKeyValue axis2 = nodeByKeyValue axis1 /\
    tmByKeyValue axis2 = tmByKeyValue axis1 /\
    children axis2 = children axis1 /\
    next axis2 = next axis1.
Proof.
  apply (update_twice_keeps_nodes 50 12 create
           (fixed_scale (fun q => q) [1%Q; 2%Q; 3%Q] small_format)
           (fixed_scale (fun q => q + 4)%Q [3%Q; 1%Q; 2%Q] small_format)
           800 600 1 1000 500 2 7%N 9%N).
  - exact well_formed_create.
  - intros k Hk. change (k ∈ ["1"; "2"; "3"]) in Hk.
    repeat (apply elem_of_cons in Hk as [->|Hk]; [reflexivity|]). inversion Hk.
  - intros k. change (k ∈ ["3"; "1"; "2"] <-> k ∈ ["1"; "2"; "3"]).
    rewrite !elem_of_cons. tauto.
Defined.

(** C3 at a failing input. The axis shows the tick 1, then the tick 2. The
    label cache follows, the two nodes of tick 1 leave the children, and
    the tick mark cache still holds the key of tick 1. *)
Lemma update_leaves_tick_mark_key :
  exists axis1 axis2,
    example_update [1%Q] create = Some axis1 /\
    example_update [2%Q] axis1 = Some axis2 /\
    map_to_list (nodeByKeyValue axis2) = [("2", 2%nat)] /\
    map_to_list (tmByKeyValue axis2) = [("1|", 1%nat); ("2|", 3%nat)] /\
    children axis2 = [2%nat; 3%nat].
Proof.
  eexists. eexists. split; [vm_compute; reflexivity|].
  split; [vm_compute; reflexivity|].
  split; [|split]; vm_compute; reflexivity.
Qed.

End AxisExamples.

(** ** The wheel gesture (C7) *)

Section WheelFacts.

Import Zoom.


Lemma advance_no_timer (now : Z) (ui : UI) :
  timers ui = [] ->
  gesture (advance now ui) = gesture ui /\
  timers (advance now ui) = [] /\
  emitted (advance now ui) = emitted ui /\
  transform (advance now ui) = transform ui.
Proof. intros H. unfold advance. rewrite H. simpl. auto. Qed.

Lemma advance_before_due (now due : Z) (id : positive) (ui : UI) :
  timers ui = [(id, due)] -> (now < due)%Z ->
  gesture (advance now ui) = gesture ui /\
  timers (advance now ui) = [(id, due)] /\
  emitted (advance now ui) = emitted ui.
Proof.
  intros H Hlt. unfold advance. rewrite H.
  rewrite !filter_cons, !filter_nil. simpl.
  repeat case_decide; try lia. simpl. auto.
Qed.

Lemma advance_due (now due : Z) (id : positive) (ui : UI) :
  timers ui = [(id, due)] -> (due <= now)%Z ->
  wheel (gesture (advance now ui)) = None /\
  timers (advance now ui) = [] /\
  emitted (advance now ui) = emitted ui ++ [zoomend].
Proof.
  intros H Hle. unfold advance. rewrite H.
  rewrite !filter_cons, !filter_nil. simpl.
  repeat case_decide; try lia. simpl. auto.
Qed.

Lemma on_wheel_idle (w : WheelEvent) (ui : UI) (log0 : list Emitted) :
  wheel (gesture ui) = None -> timers ui = [] -> emitted ui = log0 ->
  armed log0 (clock ui) 1 (on_wheel w ui) /\ clock (on_wheel w ui) = clock ui.
Proof.
  intros Hw Ht He. unfold on_wheel. rewrite Hw. simpl. split; [|reflexivity].
  eexists. eexists [_]. simpl. rewrite Ht, He. simpl.
  repeat split. rewrite <- app_assoc. reflexivity.
Qed.

Lemma on_wheel_armed (w : WheelEvent) (ui : UI) (log0 : list Emitted) (t : Z) (n : nat) :
  armed log0 t n ui ->
  armed log0 (clock ui) (S n) (on_wheel w ui) /\ clock (on_wheel w ui) = clock ui.
Proof.
  intros (id & ks & Hw & Ht & Hn & He). unfold on_wheel. rewrite Hw. simpl.
  split; [|reflexivity].
  eexists. eexists (ks ++ [_]). simpl. rewrite Ht, He.
  rewrite filter_cons, filter_nil. simpl. case_decide; [congruence|].
  repeat split.
  - rewrite length_app. simpl. lia.
  - rewrite fmap_app. simpl. rewrite <- app_assoc. simpl. reflexivity.
Qed.

Lemma clock_advance (now : Z) (ui : UI) : clock (advance now ui) = now.
Proof.
  unfold advance.
  generalize (filter (fun t : positive * Z => (t.2 <= now)%Z) (timers ui)).
  intros due.
  match goal with |- clock (foldl _ ?u _) = _ => assert (H : clock u = now) by reflexivity; revert H; generalize u end.
  induction due as [|d due IH]; intros u Hu; simpl; [exact Hu|].
  apply IH. exact Hu.
Qed.

Lemma dispatch_armed (now : Z) (w : WheelEvent) (ui : UI) (log0 : list Emitted)
    (t : Z) (n : nat) :
  armed log0 t n ui -> (now < t + 150)%Z ->
  armed log0 now (S n) (dispatch_wheel now w ui).
Proof.
  intros (id & ks & Hw & Ht & Hn & He) Hlt. unfold dispatch_wheel.
  destruct (advance_before_due now (t + 150) id ui Ht Hlt) as (Hg & Ht' & He').
  destruct (on_wheel_armed w (advance now ui) log0 t n) as [Ha _].
  { exists id, ks. rewrite Hg, Ht', He'. auto. }
  rewrite clock_advance in Ha. exact Ha.
Qed.

Lemma dispatch_run (events : list (Z * WheelEvent)) (ui : UI) (log0 : list Emitted)
    (t : Z) (n : nat) :
  armed log0 t n ui -> within_debounce t events ->
  armed log0 (last_time t events) (n + length events) (dispatch_wheels events ui).
Proof.
  revert ui t n. induction events as [|[t' w] events IH]; intros ui t n Ha Hrun; simpl.
  - rewrite Nat.add_0_r. exact Ha.
  - destruct Hrun as [Hlt Hrun]. simpl in *.
    replace (n + S (length events))%nat with (S n + length events)%nat by lia.
    apply IH; [|exact Hrun]. eapply dispatch_armed; eauto.
Qed.

(** C7. The chart is idle: no debounce timer is pending. A run of wheel
    events follows, each less than 150 ms after the one before, and then
    time passes until 150 ms or more after the last of them. Over the
    whole run the chart emits one [zoomstart], then one [zoom] for each
    wheel event, then one [zoomend]: the [zoomstart] on the first event,
    the [zoomend] when the timer runs, and nothing but [zoom] in between;
    as long as less than 150 ms have passed since the last event no
    [zoomend] is emitted. Afterwards no timer is pending. *)
Theorem wheel_run_one_start_one_end (ui : UI) (t1 : Z) (w1 : WheelEvent)
    (rest : list (Z * WheelEvent)) (later : Z) :
  wheel (gesture ui) = None ->
  timers ui = [] ->
  within_debounce t1 rest ->
  (last_time t1 rest + 150 <= later)%Z ->
  let ui1 := dispatch_wheels ((t1, w1) :: rest) ui in
  let ui2 := advance later ui1 in
  (exists ks, length ks = S (length rest) /\
     emitted_since ui ui2 = zoomstart :: (zoom <$> ks) ++ [zoomend]) /\
  count_emitted is_zoomstart (emitted_since ui ui2) = 1%nat /\
  count_emitted is_zoomend (emitted_since ui ui2) = 1%nat /\
  count_emitted is_zoomend (emitted_since ui ui1) = 0%nat /\
  (forall t, (t < last_time t1 rest + 150)%Z -> emitted (advance t ui1) = emitted ui1) /\
  wheel (gesture ui2) = None /\
  timers ui2 = [].
Proof.
  intros Hw Ht Hrun Hlater ui1 ui2.
  assert (Ha1 : armed (emitted ui) t1 1 (dispatch_wheel t1 w1 ui)).
  { unfold dispatch_wheel.
    destruct (advance_no_timer t1 ui Ht) as (Hg & Ht' & He & _).
    destruct (on_wheel_idle w1 (advance t1 ui) (emitted ui)) as [Ha _].
    - rewrite Hg. exact Hw.
    - exact Ht'.
    - exact He.
    - rewrite clock_advance in Ha. exact Ha. }
  assert (Ha : armed (emitted ui) (last_time t1 rest) (1 + length rest) ui1).
  { subst ui1. apply (dispatch_run rest (dispatch_wheel t1 w1 ui) (emitted ui) t1 1 Ha1 Hrun). }
  destruct Ha as (id & ks & Hw1 & Ht1 & Hn & He1).
  destruct (advance_due later _ id ui1 Ht1 Hlater) as (Hw2 & Ht2 & He2).
  fold ui2 in Hw2, Ht2, He2.
  assert (Hzs : forall l : list Num, List.filter is_zoomstart (zoom <$> l) = []).
  { induction l; simpl; auto. }
  assert (Hze : forall l : list Num, List.filter is_zoomend (zoom <$> l) = []).
  { induction l; simpl; auto. }
  assert (Hlog2 : emitted_since ui ui2 = zoomstart :: (zoom <$> ks) ++ [zoomend]).
  { unfold emitted_since. rewrite He2, He1, <- app_assoc, drop_app_length. reflexivity. }
  assert (Hlog1 : emitted_since ui ui1 = zoomstart :: (zoom <$> ks)).
  { unfold emitted_since. rewrite He1, drop_app_length. reflexivity. }
  split; [exists ks; split; [exact Hn|exact Hlog2]|].
  rewrite Hlog2, Hlog1. unfold count_emitted. simpl.
  rewrite !List.filter_app, Hzs, Hze. simpl.
  repeat split; try assumption.
  intros t Hlt. apply (advance_before_due t _ id ui1 Ht1 Hlt).
Qed.

(** C7 at the new chart: wheel events at 0, 100 and 240 ms, then time
    passes until 390 ms. *)
Lemma wheel_run_one_start_one_end_witness :
  let ui1 := dispatch_wheels [(0%Z, example_wheel); (100%Z, example_wheel); (240%Z, example_wheel)] create in
  let ui2 := advance 390 ui1 in
  (exists ks, length ks = 3%nat /\
     emitted_since create ui2 = zoomstart :: (zoom <$> ks) ++ [zoomend]) /\
  count_emitted is_zoomstart (emitted_since create ui2) = 1%nat /\
  count_emitted is_zoomend (emitted_since create ui2) = 1%nat /\
  count_emitted is_zoomend (emitted_since create ui1) = 0%nat /\
  (forall t, (t < 390)%Z -> emitted (advance t ui1) = emitted ui1) /\
  wheel (gesture ui2) = None /\
  timers ui2 = [].
Proof.
  apply (wheel_run_one_start_one_end create 0 example_wheel
           [(100%Z, example_wheel); (240%Z, example_wheel)] 390).
  - reflexivity.
  - reflexivity.
  - simpl. lia.
  - simpl. lia.
Defined.

(** Two wheel events that are 150 ms apart are two gestures: the timer of
    the first runs before the second is handled. *)
Example wheel_gap_two_starts :
  count_emitted is_zoomstart
    (emitted (dispatch_wheels [(0%Z, example_wheel); (150%Z, example_wheel)] create)) = 2%nat.
Proof. reflexivity. Qed.

End WheelFacts.
(** ** The pinch gesture (C6, C8) *)

Section TouchFacts.

Import Zoom ZoomRun.
Local Open Scope R_scope.

(** *** Numbers *)

Lemma le_Real (x y : R) : le (Real x) (Real y) <-> x <= y.
Proof.
  unfold le, leb. destruct (Rle_dec x y); split; intros H; auto; try discriminate;
    try contradiction.
Qed.

(** A second clamp to the same bounds changes nothing. *)
Lemma clamp_idempotent (x : Num) (lower : R) (upper : Bound) :
  clamp (clamp x lower upper) lower upper = clamp x lower upper.
Proof.
  destruct x as [x| | |], upper as [u|]; num_cases;
    try reflexivity; try (exfalso; lraR); try (f_equal; lraR).
Qed.

Lemma distance2_nonneg (a b : R * R) : 0 <= distance2 a b.
Proof.
  unfold distance2.
  pose proof (pow2_ge_0 (b.1 - a.1)). pose proof (pow2_ge_0 (b.2 - a.2)). lraR.
Qed.

(** The quotient of two distances is the root of the quotient of their
    squares. *)
Lemma distance_ratio (a b c d : R * R) :
  distance2 c d <> 0 ->
  sqrt (distance2 a b / distance2 c d) = distance a b / distance c d.
Proof.
  intros Hne. unfold distance. apply sqrt_div_alt.
  pose proof (distance2_nonneg c d). lraR.
Qed.

(** The factor of the pinch when the touches did not start at the same
    point. *)
Lemma pinch_ratio (a b c d : R * R) :
  distance2 c d <> 0 ->
  Math_sqrt (div (distance2 a b) (distance2 c d)) = Real (distance a b / distance c d).
Proof.
  intros Hne. unfold div. destruct (Req_dec_T _ 0) as [Hz|_]; [contradiction|].
  unfold Math_sqrt. destruct (Rlt_dec _ 0) as [Hneg|_].
  - exfalso. pose proof (distance2_nonneg a b). pose proof (distance2_nonneg c d).
    assert (0 <= distance2 a b / distance2 c d).
    { apply Rle_mult_inv_pos; lraR. }
    lraR.
  - f_equal. apply distance_ratio. exact Hne.
Qed.

(** *** The loop of [touchmove] *)

Lemma position_after_app (id : Z) (l1 l2 : list Touch) (p : R * R) :
  position_after id (l1 ++ l2) p = position_after id l2 (position_after id l1 p).
Proof.
  revert p. induction l1 as [|touch l1 IH]; intros p; simpl; [reflexivity|]. apply IH.
Qed.

Lemma touchmove_first (g : Gesture) (t0 : TouchRecord) (touch : Touch) :
  touch0 g = Some t0 -> touch_identifier t0 = identifier touch ->
  touchmove_step g touch = set_touch0 (Some (set_point (pointer touch) t0)) g.
Proof.
  intros H0 Hid. unfold touchmove_step. rewrite H0. simpl.
  rewrite Hid, Z.eqb_refl. reflexivity.
Qed.

Lemma touchmove_second (g : Gesture) (t0 t1 : TouchRecord) (touch : Touch) :
  touch0 g = Some t0 -> touch1 g = Some t1 ->
  touch_identifier t0 <> identifier touch -> touch_identifier t1 = identifier touch ->
  touchmove_step g touch = set_touch1 (Some (set_point (pointer touch) t1)) g.
Proof.
  intros H0 H1 Hne Hid. unfold touchmove_step. rewrite H0, H1. simpl.
  apply Z.eqb_neq in Hne. rewrite Hne, Hid, Z.eqb_refl. reflexivity.
Qed.

Lemma set_point_same (r : TouchRecord) : set_point (point r) r = r.
Proof. destruct r. reflexivity. Qed.

(** With two touches down, the loop leaves each record at the last position
    that the event carries for its touch, and keeps the start points and
    the identifiers. *)
Lemma touchmove_loop_two (l : list Touch) (g : Gesture) (t0 t1 : TouchRecord) :
  touch0 g = Some t0 -> touch1 g = Some t1 ->
  touch_identifier t0 <> touch_identifier t1 ->
  touch0 (foldl touchmove_step g l) =
    Some (set_point (position_after (touch_identifier t0) l (point t0)) t0) /\
  touch1 (foldl touchmove_step g l) =
    Some (set_point (position_after (touch_identifier t1) l (point t1)) t1).
Proof.
  revert g t0 t1. induction l as [|touch l IH]; intros g t0 t1 H0 H1 Hne.
  - simpl. rewrite !set_point_same. auto.
  - change (foldl touchmove_step g (touch :: l))
      with (foldl touchmove_step (touchmove_step g touch) l).
    cbn [position_after].
    destruct (Z.eqb_spec (touch_identifier t0) (identifier touch)) as [E0|E0].
    + rewrite (touchmove_first g t0 touch H0 E0).
      assert (E1 : Z.eqb (touch_identifier t1) (identifier touch) = false).
      { apply Z.eqb_neq. congruence. }
      rewrite E1.
      apply (IH _ (set_point (pointer touch) t0) t1); [reflexivity|exact H1|exact Hne].
    + destruct (Z.eqb_spec (touch_identifier t1) (identifier touch)) as [E1|E1].
      * rewrite (touchmove_second g t0 t1 touch H0 H1 E0 E1).
        apply (IH _ t0 (set_point (pointer touch) t1)); [exact H0|reflexivity|exact Hne].
      * assert (Hs : touchmove_step g touch = g).
        { unfold touchmove_step, holds. rewrite H0, H1.
          apply Z.eqb_neq in E0, E1. rewrite E0, E1. reflexivity. }
        rewrite Hs. apply IH; assumption.
Qed.

(** With a single touch down, the loop moves its record and creates no
    second one. *)
Lemma touchmove_loop_one (l : list Touch) (g : Gesture) (t0 : TouchRecord) :
  touch0 g = Some t0 -> touch1 g = None ->
  touch0 (foldl touchmove_step g l) =
    Some (set_point (position_after (touch_identifier t0) l (point t0)) t0) /\
  touch1 (foldl touchmove_step g l) = None.
Proof.
  revert g t0. induction l as [|touch l IH]; intros g t0 H0 H1.
  - simpl. rewrite set_point_same. auto.
  - change (foldl touchmove_step g (touch :: l))
      with (foldl touchmove_step (touchmove_step g touch) l).
    cbn [position_after].
    destruct (Z.eqb_spec (touch_identifier t0) (identifier touch)) as [E0|E0].
    + rewrite (touchmove_first g t0 touch H0 E0).
      apply (IH _ (set_point (pointer touch) t0)); [reflexivity|exact H1].
    + assert (Hs : touchmove_step g touch = g).
      { unfold touchmove_step, holds. rewrite H0, H1.
        apply Z.eqb_neq in E0. rewrite E0. reflexivity. }
      rewrite Hs. apply IH; assumption.
Qed.

(** *** The handlers *)

(** With two touches down, the [touchmove] handler runs to its end, leaves
    each record at the last position the event carries for its touch, sets
    the transform as the code computes it and emits it. *)
Lemma on_touchmove_two (ui : UI) (e : TouchEvent) (t0 t1 : TouchRecord) :
  touch0 (gesture ui) = Some t0 ->
  touch1 (gesture ui) = Some t1 ->
  touch_identifier t0 <> touch_identifier t1 ->
  exists ui',
    on_touchmove (IsTouchEvent e) ui = Done ui' /\
    touch0 (gesture ui') =
      Some (set_point (position_after (touch_identifier t0) (changedTouches e) (point t0)) t0) /\
    touch1 (gesture ui') =
      Some (set_point (position_after (touch_identifier t1) (changedTouches e) (point t1)) t1) /\
    transform ui' =
      clamp (mul (originalTransform ui)
               (Math_sqrt
                  (div (distance2
                          (position_after (touch_identifier t0) (changedTouches e) (point t0))
                          (position_after (touch_identifier t1) (changedTouches e) (point t1)))
                       (distance2 (originalPoint t0) (originalPoint t1)))))
            (scaleExtent ui).1 (scaleExtent ui).2 /\
    emitted ui' = emitted ui ++ [zoom (transform ui')] /\
    originalTransform ui' = originalTransform ui /\
    scaleExtent ui' = scaleExtent ui.
Proof.
  intros H0 H1 Hne.
  destruct (touchmove_loop_two (changedTouches e) (gesture ui) t0 t1 H0 H1 Hne) as [E0 E1].
  unfold on_touchmove. rewrite E1, E0.
  eexists. split; [reflexivity|]. simpl.
  rewrite clamp_idempotent.
  repeat split; assumption.
Qed.

(** With a single touch down or none, the [touchmove] handler changes the
    touch records only. *)
Lemma on_touchmove_one (ui : UI) (e : TouchEvent) (t0 : TouchRecord) :
  touch0 (gesture ui) = Some t0 ->
  touch1 (gesture ui) = None ->
  exists ui',
    on_touchmove (IsTouchEvent e) ui = Done ui' /\
    touch0 (gesture ui') =
      Some (set_point (position_after (touch_identifier t0) (changedTouches e) (point t0)) t0) /\
    touch1 (gesture ui') = None /\
    transform ui' = transform ui /\
    originalTransform ui' = originalTransform ui /\
    scaleExtent ui' = scaleExtent ui /\
    emitted ui' = emitted ui.
Proof.
  intros H0 H1.
  destruct (touchmove_loop_one (changedTouches e) (gesture ui) t0 H0 H1) as [E0 E1].
  unfold on_touchmove. rewrite E1.
  eexists. split; [reflexivity|]. simpl. repeat split; assumption.
Qed.

Lemma run_app (l1 l2 : list Event) (ui : UI) :
  run (l1 ++ l2) ui =
  match run l1 ui with
  | Done ui' => run l2 ui'
  | failure => failure
  end.
Proof.
  revert ui. induction l1 as [|ev l1 IH]; intros ui; simpl; [reflexivity|].
  destruct (handle ev ui); [apply IH|reflexivity].
Qed.

(** A series of moves of a single touch: the record follows the touch,
    nothing else changes. *)
Lemma touch_moves_one (ms : list TouchEvent) (ui : UI) (t0 : TouchRecord) :
  touch0 (gesture ui) = Some t0 ->
  touch1 (gesture ui) = None ->
  exists ui',
    run (touch_moves ms) ui = Done ui' /\
    touch0 (gesture ui') =
      Some (set_point (position_after (touch_identifier t0) (moved ms) (point t0)) t0) /\
    touch1 (gesture ui') = None /\
    transform ui' = transform ui /\
    originalTransform ui' = originalTransform ui /\
    scaleExtent ui' = scaleExtent ui /\
    emitted ui' = emitted ui.
Proof.
  revert ui t0. induction ms as [|m ms IH]; intros ui t0 H0 H1.
  - exists ui. split; [reflexivity|]. simpl. rewrite set_point_same.
    repeat split; assumption.
  - destruct (on_touchmove_one ui m t0 H0 H1) as (ui1 & Hrun & F0 & F1 & Ft & Fo & Fs & Fe).
    destruct (IH ui1 _ F0 F1) as (ui2 & Hrun2 & G0 & G1 & Gt & Go & Gs & Ge).
    exists ui2. split.
    { unfold touch_moves. rewrite fmap_cons. cbn [run handle]. rewrite Hrun. exact Hrun2. }
    split.
    { rewrite G0. unfold moved. rewrite fmap_cons. cbn [concat].
      rewrite position_after_app. reflexivity. }
    repeat split; congruence.
Qed.

(** The loop of [touchstart] with both touches recorded changes nothing. *)
Lemma touchstart_loop_full (l : list Touch) (started : bool) (g : Gesture) :
  is_Some (touch0 g) -> is_Some (touch1 g) ->
  foldl touchstart_step (started, g) l = (started, g).
Proof.
  intros [t0 H0] [t1 H1]. induction l as [|touch l IH]; [reflexivity|].
  change (foldl touchstart_step (started, g) (touch :: l))
    with (foldl touchstart_step (touchstart_step (started, g) touch) l).
  assert (Hs : touchstart_step (started, g) touch = (started, g)).
  { unfold touchstart_step. rewrite H0, H1. reflexivity. }
  rewrite Hs. exact IH.
Qed.

(** With one touch recorded, the loop of [touchstart] records the first
    touch of the event that has another identifier. *)
Lemma touchstart_loop_second (l : list Touch) (started : bool) (g : Gesture)
    (t0 : TouchRecord) (b : Touch) :
  touch0 g = Some t0 -> touch1 g = None ->
  List.find (fun t => negb (Z.eqb (touch_identifier t0) (identifier t))) l = Some b ->
  foldl touchstart_step (started, g) l =
    (started, set_taps 0 (set_touch1 (Some (new_record b)) g)).
Proof.
  intros H0 H1. induction l as [|touch l IH]; intros Hf; [discriminate|].
  change (foldl touchstart_step (started, g) (touch :: l))
    with (foldl touchstart_step (touchstart_step (started, g) touch) l).
  cbn [List.find] in Hf. unfold touchstart_step at 2. rewrite H0, H1.
  destruct (negb (Z.eqb (touch_identifier t0) (identifier touch))).
  - injection Hf as ->. apply touchstart_loop_full; simpl; eauto.
  - apply IH. exact Hf.
Qed.

(** The first finger lands. *)
Lemma on_touchstart_first (ui : UI) (s : TouchEvent) (a : Touch) :
  touch0 (gesture ui) = None ->
  touches s = [a] ->
  on_touchstart (IsTouchEvent s) ui =
    start (set_originalTransform (transform ui)
             (set_gesture (set_touch0 (Some (new_record a)) (gesture ui)) ui)).
Proof.
  intros H0 Ht. unfold on_touchstart. rewrite Ht. simpl.
  unfold touchstart_step. rewrite H0. reflexivity.
Qed.

(** A second finger lands. *)
Lemma on_touchstart_second (ui : UI) (s : TouchEvent) (t0 : TouchRecord) (b : Touch) :
  touch0 (gesture ui) = Some t0 ->
  touch1 (gesture ui) = None ->
  List.find (fun t => negb (Z.eqb (touch_identifier t0) (identifier t))) (touches s) = Some b ->
  on_touchstart (IsTouchEvent s) ui =
    set_gesture (set_taps 0 (set_touch1 (Some (new_record b)) (gesture ui))) ui.
Proof.
  intros H0 H1 Hf. unfold on_touchstart.
  rewrite (touchstart_loop_second (touches s) false (gesture ui) t0 b H0 H1 Hf).
  reflexivity.
Qed.

Lemma moved_app (es1 es2 : list TouchEvent) :
  moved (es1 ++ es2) = moved es1 ++ moved es2.
Proof. unfold moved. rewrite fmap_app, concat_app. reflexivity. Qed.

Lemma moved_cons (e : TouchEvent) (es : list TouchEvent) :
  moved (e :: es) = changedTouches e ++ moved es.
Proof. reflexivity. Qed.

(** A series of moves with two touches down: each record follows its touch;
    the start points, the original transform and the scale extent stay,
    and each move emits one [zoom]. *)
Lemma touch_moves_two (es : list TouchEvent) (ui : UI) (t0 t1 : TouchRecord) :
  touch0 (gesture ui) = Some t0 ->
  touch1 (gesture ui) = Some t1 ->
  touch_identifier t0 <> touch_identifier t1 ->
  exists ui' ks,
    run (touch_moves es) ui = Done ui' /\
    touch0 (gesture ui') =
      Some (set_point (position_after (touch_identifier t0) (moved es) (point t0)) t0) /\
    touch1 (gesture ui') =
      Some (set_point (position_after (touch_identifier t1) (moved es) (point t1)) t1) /\
    originalTransform ui' = originalTransform ui /\
    scaleExtent ui' = scaleExtent ui /\
    length ks = length es /\
    emitted ui' = emitted ui ++ (zoom <$> ks).
Proof.
  revert ui t0 t1. induction es as [|e es IH]; intros ui t0 t1 H0 H1 Hne.
  - exists ui, []. split; [reflexivity|]. simpl. rewrite !set_point_same, app_nil_r.
    repeat split; assumption.
  - destruct (on_touchmove_two ui e t0 t1 H0 H1 Hne)
      as (ui1 & Hrun & F0 & F1 & _ & Fe & Fo & Fs).
    destruct (IH ui1 _ _ F0 F1 Hne) as (ui2 & ks & Hrun2 & G0 & G1 & Go & Gs & Gl & Ge).
    exists ui2, (transform ui1 :: ks). split.
    { unfold touch_moves. rewrite fmap_cons. cbn [run handle]. rewrite Hrun. exact Hrun2. }
    split; [rewrite G0, moved_cons, position_after_app; reflexivity|].
    split; [rewrite G1, moved_cons, position_after_app; reflexivity|].
    split; [congruence|]. split; [congruence|]. split; [simpl; congruence|].
    rewrite Ge, Fe, <- app_assoc. reflexivity.
Qed.

(** A series of moves with two touches down, up to its last move: the
    transform is computed from the original transform, the last positions
    and the start points. *)
Lemma pinch_moves (es : list TouchEvent) (e : TouchEvent) (ui : UI) (t0 t1 : TouchRecord) :
  touch0 (gesture ui) = Some t0 ->
  touch1 (gesture ui) = Some t1 ->
  touch_identifier t0 <> touch_identifier t1 ->
  exists ui' ks,
    run (touch_moves (es ++ [e])) ui = Done ui' /\
    touch0 (gesture ui') =
      Some (set_point (position_after (touch_identifier t0) (moved (es ++ [e])) (point t0)) t0) /\
    touch1 (gesture ui') =
      Some (set_point (position_after (touch_identifier t1) (moved (es ++ [e])) (point t1)) t1) /\
    transform ui' =
      clamp (mul (originalTransform ui)
               (Math_sqrt
                  (div (distance2
                          (position_after (touch_identifier t0) (moved (es ++ [e])) (point t0))
                          (position_after (touch_identifier t1) (moved (es ++ [e])) (point t1)))
                       (distance2 (originalPoint t0) (originalPoint t1)))))
            (scaleExtent ui).1 (scaleExtent ui).2 /\
    originalTransform ui' = originalTransform ui /\
    scaleExtent ui' = scaleExtent ui /\
    length ks = length es /\
    emitted ui' = emitted ui ++ (zoom <$> ks) ++ [zoom (transform ui')].
Proof.
  intros H0 H1 Hne.
  destruct (touch_moves_two es ui t0 t1 H0 H1 Hne)
    as (ui1 & ks & Hrun & F0 & F1 & Fo & Fs & Fl & Fe).
  destruct (on_touchmove_two ui1 e _ _ F0 F1 Hne)
    as (ui2 & Hrun2 & G0 & G1 & Gt & Ge & Go & Gs).
  cbn [set_point touch_identifier point originalPoint] in G0, G1, Gt.
  assert (Hsnoc : moved (es ++ [e]) = moved es ++ changedTouches e).
  { rewrite moved_app, moved_cons. unfold moved at 2. simpl. rewrite app_nil_r. reflexivity. }
  rewrite Hsnoc, !position_after_app.
  exists ui2, ks. split.
  { unfold touch_moves. rewrite fmap_app, run_app. fold (touch_moves es).
    rewrite Hrun. cbn [fmap list_fmap run handle]. rewrite Hrun2. reflexivity. }
  split; [exact G0|]. split; [exact G1|].
  split; [rewrite Gt, Fo, Fs; reflexivity|].
  split; [congruence|]. split; [congruence|]. split; [exact Fl|].
  rewrite Ge, Fe, <- app_assoc. reflexivity.
Qed.

(** Two fingers land together. *)
Lemma on_touchstart_together (ui : UI) (s : TouchEvent) (a b : Touch) (rest : list Touch) :
  touch0 (gesture ui) = None ->
  touch1 (gesture ui) = None ->
  touches s = a :: rest ->
  other_touch a rest = Some b ->
  on_touchstart (IsTouchEvent s) ui =
    start (set_originalTransform (transform ui)
             (set_gesture
                (set_taps 0 (set_touch1 (Some (new_record b))
                               (set_touch0 (Some (new_record a)) (gesture ui)))) ui)).
Proof.
  intros H0 H1 Ht Hf. unfold on_touchstart. rewrite Ht.
  change (foldl touchstart_step (false, gesture ui) (a :: rest))
    with (foldl touchstart_step (touchstart_step (false, gesture ui) a) rest).
  unfold touchstart_step at 2. rewrite H0.
  rewrite (touchstart_loop_second rest true _ (new_record a) b); [reflexivity| |exact H1|exact Hf].
  reflexivity.
Qed.

(** The state after the landing of two fingers: both records, the first at
    the last position its moves carried, the snapshot of the transform,
    and one [zoomstart]. *)
Lemma landing_state (ui : UI) (a b : Touch) (ms : list TouchEvent) (landing : list Event) :
  touch0 (gesture ui) = None ->
  touch1 (gesture ui) = None ->
  Landing a b ms landing ->
  identifier a <> identifier b /\
  exists ui',
    run landing ui = Done ui' /\
    touch0 (gesture ui') =
      Some (set_point (position_after (identifier a) (moved ms) (pointer a)) (new_record a)) /\
    touch1 (gesture ui') = Some (new_record b) /\
    originalTransform ui' = transform ui /\
    scaleExtent ui' = scaleExtent ui /\
    emitted ui' = emitted ui ++ [zoomstart].
Proof.
  intros H0 H1 Hland.
  assert (Hother : forall l, other_touch a l = Some b -> identifier a <> identifier b).
  { intros l Hf. apply List.find_some in Hf. destruct Hf as [_ Hf].
    apply negb_true_iff, Z.eqb_neq in Hf. exact Hf. }
  destruct Hland as [s rest Ht Hf|s1 s2 ms Ht Hf]; (split; [exact (Hother _ Hf)|]).
  - eexists. split; [reflexivity|].
    rewrite (on_touchstart_together ui s a b rest H0 H1 Ht Hf). simpl.
    repeat split.
  - pose proof (on_touchstart_first ui s1 a H0 Ht) as E1.
    set (ui1 := on_touchstart (IsTouchEvent s1) ui) in *.
    assert (A0 : touch0 (gesture ui1) = Some (new_record a)) by (rewrite E1; reflexivity).
    assert (A1 : touch1 (gesture ui1) = None) by (rewrite E1; exact H1).
    destruct (touch_moves_one ms ui1 (new_record a) A0 A1)
      as (ui2 & Hrun2 & B0 & B1 & Bt & Bo & Bs & Be).
    cbn [new_record touch_identifier point] in B0.
    pose proof (on_touchstart_second ui2 s2 _ b B0 B1 Hf) as E3.
    exists (on_touchstart (IsTouchEvent s2) ui2). split.
    { cbn [run handle]. fold ui1. rewrite run_app, Hrun2. reflexivity. }
    rewrite E3. simpl. rewrite Bo, Bs, Be, E1. simpl. repeat split. exact B0.
Qed.

(** The whole gesture: two fingers land, and moves follow. *)
Lemma pinch_gesture (ui : UI) (a b : Touch) (ms1 ms2 : list TouchEvent) (e : TouchEvent)
    (landing : list Event) :
  touch0 (gesture ui) = None ->
  touch1 (gesture ui) = None ->
  Landing a b ms1 landing ->
  exists ui' ks,
    run (landing ++ touch_moves (ms2 ++ [e])) ui = Done ui' /\
    touch0 (gesture ui') =
      Some {| point := position_after (identifier a) (moved ms1 ++ moved (ms2 ++ [e]))
                         (pointer a);
              originalPoint := pointer a;
              touch_identifier := identifier a |} /\
    touch1 (gesture ui') =
      Some {| point := position_after (identifier b) (moved (ms2 ++ [e])) (pointer b);
              originalPoint := pointer b;
              touch_identifier := identifier b |} /\
    originalTransform ui' = transform ui /\
    transform ui' =
      clamp (mul (transform ui)
               (Math_sqrt
                  (div (distance2
                          (position_after (identifier a) (moved ms1 ++ moved (ms2 ++ [e]))
                             (pointer a))
                          (position_after (identifier b) (moved (ms2 ++ [e])) (pointer b)))
                       (distance2 (pointer a) (pointer b)))))
            (scaleExtent ui).1 (scaleExtent ui).2 /\
    length ks = length ms2 /\
    emitted ui' = emitted ui ++ zoomstart :: (zoom <$> ks) ++ [zoom (transform ui')].
Proof.
  intros H0 H1 Hland.
  destruct (landing_state ui a b ms1 landing H0 H1 Hland)
    as (Hne & ui3 & Hrun3 & B0 & B1 & O3 & S3 & L3).
  destruct (pinch_moves ms2 e ui3 _ _ B0 B1 Hne)
    as (ui4 & ks & Hrun4 & C0 & C1 & Ct & Co & Cs & Cl & Ce).
  cbn [set_point new_record touch_identifier point originalPoint] in C0, C1, Ct.
  rewrite <- position_after_app in C0, Ct.
  exists ui4, ks. split; [rewrite run_app, Hrun3; exact Hrun4|].
  split; [exact C0|]. split; [exact C1|]. split; [congruence|].
  split; [rewrite Ct, O3, S3; reflexivity|]. split; [exact Cl|].
  rewrite Ce, L3, <- app_assoc. reflexivity.
Qed.

(** C6, as amended. No touch is down. Two fingers land, together or one
    after the other with moves of the first in between, and one or more
    [touchmove] events follow. Every handler runs to its end. The two
    records hold the positions where the fingers landed and the last
    positions that the moves carried for them. The original transform is
    the transform at the landing of the first finger. When the two landing
    positions differ, the transform is the original transform times the
    distance of the fingers now over the distance of their landing
    positions, clamped to the scale extent; the log is the [zoomstart] of
    the first landing and one [zoom] for each move of the two fingers, the
    last one with this transform. *)
Theorem pinch_transform (ui : UI) (a b : Touch) (ms1 ms2 : list TouchEvent) (e : TouchEvent)
    (landing : list Event) :
  touch0 (gesture ui) = None ->
  touch1 (gesture ui) = None ->
  Landing a b ms1 landing ->
  distance2 (pointer a) (pointer b) <> 0 ->
  exists ui' ks,
    run (landing ++ touch_moves (ms2 ++ [e])) ui = Done ui' /\
    touch0 (gesture ui') =
      Some {| point := position_after (identifier a) (moved ms1 ++ moved (ms2 ++ [e]))
                         (pointer a);
              originalPoint := pointer a;
              touch_identifier := identifier a |} /\
    touch1 (gesture ui') =
      Some {| point := position_after (identifier b) (moved (ms2 ++ [e])) (pointer b);
              originalPoint := pointer b;
              touch_identifier := identifier b |} /\
    originalTransform ui' = transform ui /\
    transform ui' =
      clamp (mul (transform ui)
               (Real (distance
                        (position_after (identifier a) (moved ms1 ++ moved (ms2 ++ [e]))
                           (pointer a))
                        (position_after (identifier b) (moved (ms2 ++ [e])) (pointer b)) /
                      distance (pointer a) (pointer b))))
            (scaleExtent ui).1 (scaleExtent ui).2 /\
    length ks = length ms2 /\
    emitted ui' = emitted ui ++ zoomstart :: (zoom <$> ks) ++ [zoom (transform ui')].
Proof.
  intros H0 H1 Hland Hd.
  destruct (pinch_gesture ui a b ms1 ms2 e landing H0 H1 Hland)
    as (ui' & ks & Hrun & C0 & C1 & Co & Ct & Cl & Ce).
  exists ui', ks. split; [exact Hrun|]. split; [exact C0|]. split; [exact C1|].
  split; [exact Co|]. split; [|split; [exact Cl|exact Ce]].
  rewrite Ct. rewrite (pinch_ratio _ _ _ _ Hd). reflexivity.
Qed.

(** C6 as amended, at the new chart: a finger lands at (0, 0) and moves to
    (0, 10), a second one lands at (30, 40), moves to (300, 400) and comes
    back to (60, 80). *)
Lemma pinch_transform_witness :
  exists ui' ks,
    run ((ETouchStart (changed [touch_at 0 0 0]) ::
          touch_moves [ {| touches := [touch_at 0 0 10];
                           changedTouches := [touch_at 0 0 10] |} ] ++
          [ETouchStart (changed [touch_at 0 0 10; touch_at 1 30 40])]) ++
         touch_moves ([ {| touches := []; changedTouches := [touch_at 1 300 400] |} ] ++
                      [ {| touches := []; changedTouches := [touch_at 1 60 80] |} ]))
      create = Done ui' /\
    touch0 (gesture ui') =
      Some {| point :=
                position_after 0
                  (moved [ {| touches := [touch_at 0 0 10];
                              changedTouches := [touch_at 0 0 10] |} ] ++
                   moved ([ {| touches := []; changedTouches := [touch_at 1 300 400] |} ] ++
                          [ {| touches := []; changedTouches := [touch_at 1 60 80] |} ]))
                  (pointer (touch_at 0 0 0));
              originalPoint := pointer (touch_at 0 0 0);
              touch_identifier := 0 |} /\
    touch1 (gesture ui') =
      Some {| point :=
                position_after 1
                  (moved ([ {| touches := []; changedTouches := [touch_at 1 300 400] |} ] ++
                          [ {| touches := []; changedTouches := [touch_at 1 60 80] |} ]))
                  (pointer (touch_at 1 30 40));
              originalPoint := pointer (touch_at 1 30 40);
              touch_identifier := 1 |} /\
    originalTransform ui' = transform create /\
    transform ui' =
      clamp (mul (transform create)
               (Real (distance
                        (position_after 0
                           (moved [ {| touches := [touch_at 0 0 10];
                                       changedTouches := [touch_at 0 0 10] |} ] ++
                            moved ([ {| touches := [];
                                        changedTouches := [touch_at 1 300 400] |} ] ++
                                   [ {| touches := [];
                                        changedTouches := [touch_at 1 60 80] |} ]))
                           (pointer (touch_at 0 0 0)))
                        (position_after 1
                           (moved ([ {| touches := [];
                                        changedTouches := [touch_at 1 300 400] |} ] ++
                                   [ {| touches := [];
                                        changedTouches := [touch_at 1 60 80] |} ]))
                           (pointer (touch_at 1 30 40))) /
                      distance (pointer (touch_at 0 0 0)) (pointer (touch_at 1 30 40)))))
            (scaleExtent create).1 (scaleExtent create).2 /\
    length ks = 1%nat /\
    emitted ui' = emitted create ++ zoomstart :: (zoom <$> ks) ++ [zoom (transform ui')].
Proof.
  apply (pinch_transform create (touch_at 0 0 0) (touch_at 1 30 40)
           [ {| touches := [touch_at 0 0 10]; changedTouches := [touch_at 0 0 10] |} ]
           [ {| touches := []; changedTouches := [touch_at 1 300 400] |} ]
           {| touches := []; changedTouches := [touch_at 1 60 80] |}).
  - reflexivity.
  - reflexivity.
  - apply (one_by_one (touch_at 0 0 0) (touch_at 1 30 40)
             {| touches := [touch_at 0 0 0]; changedTouches := [touch_at 0 0 0] |}
             {| touches := [touch_at 0 0 10; touch_at 1 30 40];
                changedTouches := [touch_at 0 0 10; touch_at 1 30 40] |}); reflexivity.
  - unfold distance2. simpl. lraR.
Defined.

(** Distances of the examples. *)
Lemma distance_example (x0 y0 x1 y1 d : R) :
  0 <= d -> d * d = (x1 - x0) * (x1 - x0) + (y1 - y0) * (y1 - y0) ->
  distance (pointer (touch_at 0 x0 y0)) (pointer (touch_at 1 x1 y1)) = d.
Proof.
  intros Hd Hsq. unfold distance, distance2, pointer, touch_at. simpl.
  apply sqrt_lem_1; [|exact Hd|].
  - pose proof (Rle_0_sqr (x1 - 0 - 0 - (x0 - 0 - 0))).
    pose proof (Rle_0_sqr (y1 - 0 - 0 - (y0 - 0 - 0))). unfold Rsqr in *. lraR.
  - rewrite Hsq. ring.
Qed.

(** C6 as stated fails when the first finger moves before the second one
    lands. A finger lands at (0, 0) and moves to (30, 0); a second finger
    lands at (30, 40), so that the pinch starts with the fingers 40 apart;
    the second finger moves to (30, 80), 80 away from the first. The claim
    gives the transform 1 * 80 / 40 = 2; the handler divides by the
    distance of the landing positions, 50, and sets the transform to
    8/5. *)
Lemma pinch_start_distance_counterexample :
  exists ui',
    run [ETouchStart (changed [touch_at 0 0 0]);
         ETouchMove (changed [touch_at 0 30 0]);
         ETouchStart (IsTouchEvent {| touches := [touch_at 0 30 0; touch_at 1 30 40];
                                      changedTouches := [touch_at 1 30 40] |});
         ETouchMove (changed [touch_at 1 30 80])] create = Done ui' /\
    touch0 (gesture ui') =
      Some {| point := pointer (touch_at 0 30 0); originalPoint := pointer (touch_at 0 0 0);
              touch_identifier := 0 |} /\
    touch1 (gesture ui') =
      Some {| point := pointer (touch_at 1 30 80); originalPoint := pointer (touch_at 1 30 40);
              touch_identifier := 1 |} /\
    originalTransform ui' = Real 1 /\
    distance (pointer (touch_at 0 30 0)) (pointer (touch_at 1 30 40)) = 40 /\
    distance (pointer (touch_at 0 30 0)) (pointer (touch_at 1 30 80)) = 80 /\
    clamp (mul (Real 1) (Real (80 / 40))) (scaleExtent create).1 (scaleExtent create).2
      = Real 2 /\
    transform ui' = Real (8 / 5) /\
    transform ui' <>
      clamp (mul (originalTransform ui') (Real (80 / 40)))
        (scaleExtent create).1 (scaleExtent create).2.
Proof.
  destruct (pinch_gesture create (touch_at 0 0 0) (touch_at 1 30 40)
              [ {| touches := [touch_at 0 30 0]; changedTouches := [touch_at 0 30 0] |} ]
              []
              {| touches := [touch_at 1 30 80]; changedTouches := [touch_at 1 30 80] |}
              [ETouchStart (changed [touch_at 0 0 0]);
               ETouchMove (changed [touch_at 0 30 0]);
               ETouchStart (IsTouchEvent {| touches := [touch_at 0 30 0; touch_at 1 30 40];
                                            changedTouches := [touch_at 1 30 40] |})])
    as (ui' & ks & Hrun & C0 & C1 & Ho & Ht & _ & _); [reflexivity|reflexivity| |].
  { apply (one_by_one (touch_at 0 0 0) (touch_at 1 30 40)
             {| touches := [touch_at 0 0 0]; changedTouches := [touch_at 0 0 0] |}
             {| touches := [touch_at 0 30 0; touch_at 1 30 40];
                changedTouches := [touch_at 1 30 40] |}
             [ {| touches := [touch_at 0 30 0]; changedTouches := [touch_at 0 30 0] |} ]);
      reflexivity. }
  exists ui'. split; [exact Hrun|]. split; [exact C0|]. split; [exact C1|].
  split; [exact Ho|].
  split; [apply distance_example; lraR|]. split; [apply distance_example; lraR|].
  assert (Hclaim : clamp (mul (Real 1) (Real (80 / 40)))
                     (scaleExtent create).1 (scaleExtent create).2 = Real 2).
  { simpl. num_cases; try (f_equal; lraR); exfalso; lraR. }
  assert (Hcode : transform ui' = Real (8 / 5)).
  { rewrite Ht.
    change (position_after (identifier (touch_at 0 0 0)) _ (pointer (touch_at 0 0 0)))
      with (pointer (touch_at 0 30 0)).
    change (position_after (identifier (touch_at 1 30 40)) _ (pointer (touch_at 1 30 40)))
      with (pointer (touch_at 1 30 80)).
    rewrite pinch_ratio.
    - rewrite (distance_example 30 0 30 80 80) by lraR.
      rewrite (distance_example 0 0 30 40 50) by lraR.
      simpl. num_cases; try (f_equal; lraR); exfalso; lraR.
    - unfold distance2. simpl. lraR. }
  split; [exact Hclaim|]. split; [exact Hcode|].
  assert (Ho1 : originalTransform ui' = Real 1) by exact Ho.
  rewrite Hcode, Ho1, Hclaim. intros E. injection E as E. lraR.
Qed.

(** Two fingers land together, in a [touchstart] that carries these two
    touches only. *)
Lemma on_touchstart_two (ui : UI) (a b : Touch) (changedList : list Touch) :
  touch0 (gesture ui) = None ->
  touch1 (gesture ui) = None ->
  identifier a <> identifier b ->
  on_touchstart (IsTouchEvent {| touches := [a; b]; changedTouches := changedList |}) ui =
    start (set_originalTransform (transform ui)
             (set_gesture
                (set_taps 0 (set_touch1 (Some (new_record b))
                               (set_touch0 (Some (new_record a)) (gesture ui)))) ui)).
Proof.
  intros H0 H1 Hne.
  apply (on_touchstart_together ui {| touches := [a; b]; changedTouches := changedList |}
           a b [b] H0 H1 eq_refl).
  unfold other_touch. simpl. apply Z.eqb_neq in Hne. rewrite Hne. reflexivity.
Qed.

(** The loop of [touchend]: a record is cleared when its touch is among
    the changed touches, and only then. *)
Lemma touchend_loop (l : list Touch) (g : Gesture) (t0 t1 : TouchRecord) (b0 b1 : bool) :
  touch_identifier t0 <> touch_identifier t1 ->
  touch0 g = (if b0 then None else Some t0) ->
  touch1 g = (if b1 then None else Some t1) ->
  touch0 (foldl touchend_step g l) = (if b0 || ended t0 l then None else Some t0) /\
  touch1 (foldl touchend_step g l) = (if b1 || ended t1 l then None else Some t1).
Proof.
  intros Hne. revert g b0 b1. induction l as [|touch l IH]; intros g b0 b1 H0 H1; simpl.
  - rewrite !orb_false_r. auto.
  - rewrite !orb_assoc.
    apply IH; unfold touchend_step, holds; rewrite H0, H1;
      destruct b0, b1; simpl;
      destruct (Z.eqb_spec (touch_identifier t0) (identifier touch)) as [E0|E0];
      destruct (Z.eqb_spec (touch_identifier t1) (identifier touch)) as [E1|E1];
      simpl; try reflexivity; try assumption; congruence.
Qed.

(** C8, as amended. Two touches are down. After a [touchend], whichever
    touches ended, [zoomend] has been emitted; the record of the first
    touch is cleared exactly when the first touch ended; the record of the
    second touch is cleared exactly when one of the two touches ended. So
    the end of the first touch clears both records, and the end of the
    second touch alone clears the second record and keeps the first. *)
Theorem touchend_clears (ui : UI) (e : TouchEvent) (t0 t1 : TouchRecord) :
  touch0 (gesture ui) = Some t0 ->
  touch1 (gesture ui) = Some t1 ->
  touch_identifier t0 <> touch_identifier t1 ->
  let ui' := on_touchend (IsTouchEvent e) ui in
  emitted ui' = emitted ui ++ [zoomend] /\
  touch0 (gesture ui') = (if ended t0 (changedTouches e) then None else Some t0) /\
  touch1 (gesture ui') =
    (if ended t0 (changedTouches e) || ended t1 (changedTouches e) then None else Some t1).
Proof.
  intros H0 H1 Hne ui'. subst ui'. unfold on_touchend.
  destruct (touchend_loop (changedTouches e) (gesture ui) t0 t1 false false Hne H0 H1)
    as [E0 E1].
  simpl in E0, E1. rewrite E0, E1.
  destruct (ended t0 (changedTouches e)), (ended t1 (changedTouches e)); simpl;
    rewrite ?E0, ?E1; auto.
Qed.

(** The amended C8 at the example, when the first finger is lifted. *)
Lemma touchend_clears_witness :
  let ui' := on_touchend (changed [touch_at 0 5 5]) example_pinch in
  emitted ui' = emitted example_pinch ++ [zoomend] /\
  touch0 (gesture ui') =
    (if ended (new_record (touch_at 0 0 0)) [touch_at 0 5 5]
     then None else Some (new_record (touch_at 0 0 0))) /\
  touch1 (gesture ui') =
    (if ended (new_record (touch_at 0 0 0)) [touch_at 0 5 5] ||
        ended (new_record (touch_at 1 30 40)) [touch_at 0 5 5]
     then None else Some (new_record (touch_at 1 30 40))).
Proof.
  apply (touchend_clears example_pinch
           {| touches := [touch_at 0 5 5]; changedTouches := [touch_at 0 5 5] |}
           (new_record (touch_at 0 0 0)) (new_record (touch_at 1 30 40))).
  - reflexivity.
  - reflexivity.
  - simpl. lia.
Defined.

(** C8 as stated fails: the second touch of a pinch ends, and the record
    of the first touch is still there. *)
Lemma touchend_second_keeps_first :
  touch1 (gesture example_pinch) = Some (new_record (touch_at 1 30 40)) /\
  touch0 (gesture (on_touchend (changed [touch_at 1 30 40]) example_pinch))
    = Some (new_record (touch_at 0 0 0)) /\
  touch1 (gesture (on_touchend (changed [touch_at 1 30 40]) example_pinch)) = None.
Proof. repeat split. Qed.

(** The end of the first touch clears both records. *)
Example touchend_first_clears_both :
  touch0 (gesture (on_touchend (changed [touch_at 0 0 0]) example_pinch)) = None /\
  touch1 (gesture (on_touchend (changed [touch_at 0 0 0]) example_pinch)) = None.
Proof. split; reflexivity. Qed.

End TouchFacts.

(** ** The pointer handler outside auction mode (C2, C5) *)

Section PointerFacts.

Import Bisect Pointer.
Local Open Scope Q_scope.

Variable formatVolumeTick : Q -> string.
Variable delaunay_find : list (Q * Q) -> Q -> Q -> Z.

Local Abbreviation onPointerMove := (Pointer.onPointerMove formatVolumeTick delaunay_find).
Local Abbreviation half_width := (Pointer.half_width formatVolumeTick).
Local Abbreviation nearest := (Pointer.nearest formatVolumeTick).
Local Abbreviation move_sides := (Pointer.move_sides formatVolumeTick).

(** The loop of the searches stays in its interval, sorted array or not. *)
Lemma bisect_loop_range (test : Q -> Q -> bool) (a : list Q) (x : Q) :
  forall fuel lo hi, (lo <= hi)%nat ->
    (lo <= bisect_loop test a x fuel lo hi <= hi)%nat.
Proof.
  induction fuel as [|fuel IH]; intros lo hi Hle; cbn [bisect_loop]; [lia|].
  destruct (Nat.ltb_spec lo hi) as [Hlt|Hge]; [|lia].
  assert (Hmid : (lo <= (lo + hi) / 2 < hi)%nat).
  { split.
    - apply Nat.div_le_lower_bound; lia.
    - apply Nat.Div0.div_lt_upper_bound; lia. }
  destruct (elem_test test a ((lo + hi) / 2) x).
  - pose proof (IH ((lo + hi) / 2 + 1)%nat hi ltac:(lia)). lia.
  - pose proof (IH lo ((lo + hi) / 2)%nat ltac:(lia)). lia.
Qed.

Lemma bisectCenter_in_range (a : list Q) (x : Q) :
  a <> [] -> (bisectCenter a x < length a)%nat.
Proof.
  intros Hne.
  assert (Hlen : (0 < length a)%nat) by (destruct a; [congruence|simpl; lia]).
  unfold bisectCenter, bisectLeft_in.
  pose proof (bisect_loop_range Qltb a x (length a - 1 - 0) 0 (length a - 1) ltac:(lia)) as Hr.
  destruct (bisect_loop Qltb a x (length a - 1 - 0) 0 (length a - 1)) as [|p]; [lia|].
  destruct (a !! p); [|lia]. destruct (a !! S p); [|lia].
  destruct (Qle_bool _ _); lia.
Qed.

(** [bisectLeft] counts the prices below [x], [bisectRight] the prices at
    or below [x]. *)
Lemma bisectLeft_below (a : list Q) (x : Q) (j : nat) (v : Q) :
  StronglySorted Qle a -> a !! j = Some v ->
  ((j < bisectLeft a x)%nat <-> v < x).
Proof.
  intros Hs Hv. unfold bisectLeft.
  destruct (bisectLeft_in_spec a x 0 (length a) Hs ltac:(lia)) as (_ & Hlo & Hhi).
  pose proof (lookup_lt_Some _ _ _ Hv) as Hj. split.
  - intros H. apply (Hlo j v); [lia|exact Hv].
  - intros H. destruct (Nat.lt_ge_cases j (bisectLeft_in a x 0 (length a))) as [|Hge]; [assumption|].
    pose proof (Hhi j v ltac:(lia) Hv). lraQ.
Qed.

Lemma bisectRight_below (a : list Q) (x : Q) (j : nat) (v : Q) :
  StronglySorted Qle a -> a !! j = Some v ->
  ((j < bisectRight a x)%nat <-> v <= x).
Proof.
  intros Hs Hv. unfold bisectRight.
  destruct (bisectRight_in_spec a x 0 (length a) Hs ltac:(lia)) as (_ & Hlo & Hhi).
  pose proof (lookup_lt_Some _ _ _ Hv) as Hj. split.
  - intros H. apply (Hlo j v); [lia|exact Hv].
  - intros H. destruct (Nat.lt_ge_cases j (bisectRight_in a x 0 (length a))) as [|Hge]; [assumption|].
    pose proof (Hhi j v ltac:(lia) Hv). lraQ.
Qed.

(** The handler outside auction mode, once its guards are passed. *)
Lemma onPointerMove_sides (ui : UI) (event : InteractionEvent) (gx gy : Q) :
  touch_device ui = false ->
  data event = Some (gx, gy) ->
  Qeq_bool gx 0 = false ->
  Qeq_bool (_indicativePrice ui) 0 = true ->
  (1 < length (prices ui))%nat ->
  onPointerMove event ui =
    render (move_sides (set_lastEvent (Some event) ui) (gx * resolution ui)).
Proof.
  intros Ht Hd Hx Hi Hlen. unfold Pointer.onPointerMove.
  rewrite Ht, Hd, Hx. simpl. rewrite Hi.
  destruct (Nat.ltb_spec 1 (length (prices ui))); [reflexivity|lia].
Qed.

(** The overlays of a side are hidden when the index of the side is
    [-1]. *)
Lemma buy_hidden (ui : UI) (n : Nearest) :
  buyIndex n = (-1)%Z -> buy_shown formatVolumeTick ui n = false.
Proof. intros H. unfold buy_shown. rewrite H. simpl. apply andb_false_r. Qed.

Lemma sell_hidden (ui : UI) (n : Nearest) :
  sellIndex n = (-1)%Z -> sell_shown formatVolumeTick ui n = false.
Proof. intros H. unfold sell_shown. rewrite H. simpl. apply andb_false_r. Qed.

(** C2, as amended. Outside auction mode, on an ascending price array,
    the handler compares the pointer with the middle of the plot
    ([width / 2]). Right of it, the sell index is the nearest index and the
    buy index comes from the pointer's nearest price reflected about the
    pixel of the mid price: it is the last index whose price is below the
    reflected pixel, and it is [-1] exactly when the first price is at or
    after the middle of the plot or at or after the reflected pixel.
    Otherwise the buy index is the nearest index and the sell index is the
    last index whose price is at or below the reflected pixel, [-1]
    exactly when the last price is at or before the middle of the plot or
    the reflected pixel lies before the first price. A side whose index is
    [-1] is hidden for the frame. *)
Theorem pointer_sides (ui : UI) (event : InteractionEvent) (gx gy : Q) :
  touch_device ui = false ->
  data event = Some (gx, gy) ->
  Qeq_bool gx 0 = false ->
  Qeq_bool (_indicativePrice ui) 0 = true ->
  (1 < length (prices ui))%nat ->
  StronglySorted Qle (prices ui) ->
  let x := gx * resolution ui in
  let index := bisectCenter (prices ui) x in
  exists nearestX first last,
    prices ui !! index = Some nearestX /\
    prices ui !! 0%nat = Some first /\
    prices ui !! (length (prices ui) - 1)%nat = Some last /\
    let reflected := 2 * mid_x ui - nearestX in
    let n := nearest ui x nearestX index in
    let ui' := onPointerMove event ui in
    (gt x (half_width ui) = true ->
       sellIndex n = Z.of_nat index /\ sellNearestX n = nearestX /\
       buyNearestX n = reflected /\
       (buyIndex n = (-1)%Z <-> ge first (half_width ui) = true \/ reflected <= first) /\
       (ge first (half_width ui) = false ->
        forall j v, prices ui !! j = Some v ->
          ((Z.of_nat j <= buyIndex n)%Z <-> v < reflected))) /\
    (gt x (half_width ui) = false ->
       buyIndex n = Z.of_nat index /\ buyNearestX n = nearestX /\
       sellNearestX n = reflected /\
       (sellIndex n = (-1)%Z <-> le last (half_width ui) = true \/ reflected < first) /\
       (le last (half_width ui) = false ->
        forall j v, prices ui !! j = Some v ->
          ((Z.of_nat j <= sellIndex n)%Z <-> v <= reflected))) /\
    (buyIndex n = (-1)%Z ->
       buyIndicator ui' = false /\ buyOverlay ui' = false /\
       visible (buyPriceText ui') = false /\ visible (buyVolumeText ui') = false /\
       visible (buyVolRatioText ui') = false) /\
    (sellIndex n = (-1)%Z ->
       sellIndicator ui' = false /\ sellOverlay ui' = false /\
       visible (sellPriceText ui') = false /\ visible (sellVolumeText ui') = false /\
       visible (sellVolRatioText ui') = false).
Proof.
  intros Ht Hd Hx Hi Hlen Hs x index.
  assert (Hne : prices ui <> []) by (destruct (prices ui); [simpl in Hlen; lia|congruence]).
  pose proof (bisectCenter_in_range (prices ui) x Hne) as Hin. fold index in Hin.
  destruct (lookup_lt_is_Some_2 (prices ui) index Hin) as [nearestX En].
  destruct (lookup_lt_is_Some_2 (prices ui) 0%nat ltac:(lia)) as [first Ef].
  destruct (lookup_lt_is_Some_2 (prices ui) (length (prices ui) - 1)%nat ltac:(lia))
    as [last El].
  exists nearestX, first, last.
  split; [exact En|]. split; [exact Ef|]. split; [exact El|].
  intros reflected n ui'.
  assert (Hleft0 : bisectLeft (prices ui) reflected = 0%nat <-> reflected <= first).
  { pose proof (bisectLeft_below (prices ui) reflected 0 first Hs Ef) as H. split.
    - intros E. rewrite E in H. apply Qnot_lt_le. intros Hlt. apply H in Hlt. lia.
    - intros Hle. destruct (bisectLeft (prices ui) reflected); [reflexivity|].
      assert (first < reflected) by (apply H; lia). lraQ. }
  assert (Hright0 : bisectRight (prices ui) reflected = 0%nat <-> reflected < first).
  { pose proof (bisectRight_below (prices ui) reflected 0 first Hs Ef) as H. split.
    - intros E. rewrite E in H. apply Qnot_le_lt. intros Hle. apply H in Hle. lia.
    - intros Hlt. destruct (bisectRight (prices ui) reflected); [reflexivity|].
      assert (first <= reflected) by (apply H; lia). lraQ. }
  split; [|split; [|split]].
  - intros Hside. subst n. unfold Pointer.nearest. rewrite Hside, Ef. simpl.
    split; [reflexivity|]. split; [reflexivity|]. split; [reflexivity|].
    fold reflected.
    destruct (ge first (half_width ui)) eqn:Eg.
    + split; [|intros; discriminate]. split; [auto|reflexivity].
    + split.
      * rewrite <- Hleft0. split; [intros H; right; lia|].
        intros [H|H]; [discriminate|lia].
      * intros _ j v Hv.
        rewrite <- (bisectLeft_below (prices ui) reflected j v Hs Hv). lia.
  - intros Hside. subst n. unfold Pointer.nearest. rewrite Hside, El. simpl.
    split; [reflexivity|]. split; [reflexivity|]. split; [reflexivity|].
    fold reflected.
    destruct (le last (half_width ui)) eqn:Eg.
    + split; [|intros; discriminate]. split; [auto|reflexivity].
    + split.
      * rewrite <- Hright0. split; [intros H; right; lia|].
        intros [H|H]; [discriminate|lia].
      * intros _ j v Hv.
        rewrite <- (bisectRight_below (prices ui) reflected j v Hs Hv). lia.
  - intros Hb. subst ui'.
    rewrite (onPointerMove_sides ui event gx gy Ht Hd Hx Hi Hlen).
    unfold Pointer.move_sides.
    change (prices (set_lastEvent (Some event) ui)) with (prices ui).
    change (resolution (set_lastEvent (Some event) ui)) with (resolution ui).
    fold x. fold index. rewrite En. simpl.
    change (Pointer.nearest formatVolumeTick (set_lastEvent (Some event) ui) x nearestX index)
      with n.
    rewrite (buy_hidden _ n Hb). repeat split.
  - intros Hb. subst ui'.
    rewrite (onPointerMove_sides ui event gx gy Ht Hd Hx Hi Hlen).
    unfold Pointer.move_sides.
    change (prices (set_lastEvent (Some event) ui)) with (prices ui).
    change (resolution (set_lastEvent (Some event) ui)) with (resolution ui).
    fold x. fold index. rewrite En. simpl.
    change (Pointer.nearest formatVolumeTick (set_lastEvent (Some event) ui) x nearestX index)
      with n.
    rewrite (sell_hidden _ n Hb). repeat split.
Qed.

(** A label that does not parse gives the ratio text [NaN%]. *)
Lemma ratio_text_NaN (label : option string) (mid : Q) :
  Number.fRound label = Number.NaN -> Number.ratio_text label mid = "NaN%".
Proof. intros H. unfold Number.ratio_text. rewrite H. reflexivity. Qed.

Lemma fRound_undefined : Number.fRound None = Number.NaN.
Proof. reflexivity. Qed.

(** C5, as amended. Outside auction mode the text of each ratio label is
    the ratio computed from the parsed price label, whatever the parse
    gave. When the price label of the buy index fails to parse the buy
    ratio label reads [NaN%], and when the price label of the sell index
    fails to parse the sell ratio label reads [+NaN%]. *)
Theorem ratio_label_not_a_number (ui : UI) (event : InteractionEvent) (gx gy : Q) :
  touch_device ui = false ->
  data event = Some (gx, gy) ->
  Qeq_bool gx 0 = false ->
  Qeq_bool (_indicativePrice ui) 0 = true ->
  (1 < length (prices ui))%nat ->
  let x := gx * resolution ui in
  let index := bisectCenter (prices ui) x in
  exists nearestX,
    prices ui !! index = Some nearestX /\
    let n := nearest ui x nearestX index in
    let ui' := onPointerMove event ui in
    text (buyVolRatioText ui') =
      Some (Number.ratio_text (at_index (priceLabels ui) (buyIndex n)) (midPrice ui)) /\
    text (sellVolRatioText ui') =
      Some ("+" +:+ Number.ratio_text (at_index (priceLabels ui) (sellIndex n)) (midPrice ui)) /\
    (Number.fRound (at_index (priceLabels ui) (buyIndex n)) = Number.NaN ->
     text (buyVolRatioText ui') = Some "NaN%") /\
    (Number.fRound (at_index (priceLabels ui) (sellIndex n)) = Number.NaN ->
     text (sellVolRatioText ui') = Some "+NaN%").
Proof.
  intros Ht Hd Hx Hi Hlen x index.
  assert (Hne : prices ui <> []) by (destruct (prices ui); [simpl in Hlen; lia|congruence]).
  pose proof (bisectCenter_in_range (prices ui) x Hne) as Hin. fold index in Hin.
  destruct (lookup_lt_is_Some_2 (prices ui) index Hin) as [nearestX En].
  exists nearestX. split; [exact En|]. intros n ui'.
  assert (Hb : text (buyVolRatioText ui') =
    Some (Number.ratio_text (at_index (priceLabels ui) (buyIndex n)) (midPrice ui))).
  { subst ui'. rewrite (onPointerMove_sides ui event gx gy Ht Hd Hx Hi Hlen).
    unfold Pointer.move_sides.
    change (prices (set_lastEvent (Some event) ui)) with (prices ui).
    change (resolution (set_lastEvent (Some event) ui)) with (resolution ui).
    fold x. fold index. rewrite En. reflexivity. }
  assert (Hs : text (sellVolRatioText ui') =
    Some ("+" +:+ Number.ratio_text (at_index (priceLabels ui) (sellIndex n)) (midPrice ui))).
  { subst ui'. rewrite (onPointerMove_sides ui event gx gy Ht Hd Hx Hi Hlen).
    unfold Pointer.move_sides.
    change (prices (set_lastEvent (Some event) ui)) with (prices ui).
    change (resolution (set_lastEvent (Some event) ui)) with (resolution ui).
    fold x. fold index. rewrite En. reflexivity. }
  split; [exact Hb|]. split; [exact Hs|]. split.
  - intros H. rewrite Hb, (ratio_text_NaN _ _ H). reflexivity.
  - intros H. rewrite Hs, (ratio_text_NaN _ _ H). reflexivity.
Qed.

(** *** Pointer out and auction mode (C9, C10) *)

(** [onPointerOut] hides the five overlays of the buy side and the five of
    the sell side and forgets the last pointer event. *)
Lemma onPointerOut_hides_sides (ui : UI) :
  let ui' := onPointerOut ui in
  buyIndicator ui' = false /\ buyOverlay ui' = false /\
  visible (buyPriceText ui') = false /\ visible (buyVolumeText ui') = false /\
  visible (buyVolRatioText ui') = false /\
  sellIndicator ui' = false /\ sellOverlay ui' = false /\
  visible (sellPriceText ui') = false /\ visible (sellVolumeText ui') = false /\
  visible (sellVolRatioText ui') = false /\
  lastEvent ui' = None.
Proof. repeat split. Qed.

(** It leaves the three overlays of auction mode as they are. *)
Lemma onPointerOut_keeps_auction (ui : UI) :
  auctionIndicator (onPointerOut ui) = auctionIndicator ui /\
  auctionPriceText (onPointerOut ui) = auctionPriceText ui /\
  auctionVolumeText (onPointerOut ui) = auctionVolumeText ui.
Proof. repeat split. Qed.

(** An [update] after [clearPrice] does not handle any pointer event: no
    overlay changes, nothing is rendered, no triangulation is built. *)
Lemma update_after_clearPrice (d : Data) (ui : UI) :
  let before := clearPrice ui in
  let after := Pointer.update formatVolumeTick delaunay_find d before in
  lastEvent after = None /\
  rendered after = rendered before /\
  delaunay_built after = delaunay_built before /\
  buyIndicator after = false /\ sellIndicator after = false /\
  buyOverlay after = false /\ sellOverlay after = false /\
  buyPriceText after = buyPriceText before /\
  buyVolumeText after = buyVolumeText before /\
  buyVolRatioText after = buyVolRatioText before /\
  sellPriceText after = sellPriceText before /\
  sellVolumeText after = sellVolumeText before /\
  sellVolRatioText after = sellVolRatioText before.
Proof. repeat split. Qed.

(** In auction mode every handled pointer move builds a triangulation. *)
Lemma auction_move_builds (ui : UI) (event : InteractionEvent) (gx gy : Q) :
  touch_device ui = false ->
  data event = Some (gx, gy) ->
  Qeq_bool gx 0 = false ->
  Qeq_bool (_indicativePrice ui) 0 = false ->
  (1 < length (prices ui))%nat ->
  delaunay_built (onPointerMove event ui) = S (delaunay_built ui) /\
  prices (onPointerMove event ui) = prices ui /\
  _indicativePrice (onPointerMove event ui) = _indicativePrice ui /\
  touch_device (onPointerMove event ui) = touch_device ui.
Proof.
  intros Ht Hd Hx Hi Hlen. unfold Pointer.onPointerMove.
  rewrite Ht, Hd, Hx. simpl. rewrite Hi.
  destruct (Nat.ltb_spec 1 (length (prices ui))); [|lia]. simpl. auto.
Qed.

End PointerFacts.

Section PointerExamples.

Import Bisect Pointer.
Local Open Scope Q_scope.

Lemma example_prices_ascending : StronglySorted Qle example_prices.
Proof.
  unfold example_prices.
  repeat (constructor; [|repeat (constructor; [unfold Qle; simpl; lia|]); constructor]).
  constructor.
Qed.

(** The amended C2 at the example chart with the pointer at the pixel
    32. *)
Lemma pointer_sides_witness :
  let ui := example_ui example_labels in
  let x := 32 * resolution ui in
  let index := bisectCenter (prices ui) x in
  exists nearestX first last,
    prices ui !! index = Some nearestX /\
    prices ui !! 0%nat = Some first /\
    prices ui !! (length (prices ui) - 1)%nat = Some last /\
    let reflected := 2 * mid_x ui - nearestX in
    let n := nearest example_format ui x nearestX index in
    let ui' := onPointerMove example_format example_find (pointer_at 32 3) ui in
    (gt x (half_width example_format ui) = true ->
       sellIndex n = Z.of_nat index /\ sellNearestX n = nearestX /\
       buyNearestX n = reflected /\
       (buyIndex n = (-1)%Z <->
          ge first (half_width example_format ui) = true \/ reflected <= first) /\
       (ge first (half_width example_format ui) = false ->
        forall j v, prices ui !! j = Some v ->
          ((Z.of_nat j <= buyIndex n)%Z <-> v < reflected))) /\
    (gt x (half_width example_format ui) = false ->
       buyIndex n = Z.of_nat index /\ buyNearestX n = nearestX /\
       sellNearestX n = reflected /\
       (sellIndex n = (-1)%Z <->
          le last (half_width example_format ui) = true \/ reflected < first) /\
       (le last (half_width example_format ui) = false ->
        forall j v, prices ui !! j = Some v ->
          ((Z.of_nat j <= sellIndex n)%Z <-> v <= reflected))) /\
    (buyIndex n = (-1)%Z ->
       buyIndicator ui' = false /\ buyOverlay ui' = false /\
       visible (buyPriceText ui') = false /\ visible (buyVolumeText ui') = false /\
       visible (buyVolRatioText ui') = false) /\
    (sellIndex n = (-1)%Z ->
       sellIndicator ui' = false /\ sellOverlay ui' = false /\
       visible (sellPriceText ui') = false /\ visible (sellVolumeText ui') = false /\
       visible (sellVolRatioText ui') = false).
Proof.
  apply (pointer_sides example_format example_find
           (example_ui example_labels) (pointer_at 32 3) 32 3).
  - reflexivity.
  - reflexivity.
  - reflexivity.
  - reflexivity.
  - simpl. lia.
  - exact example_prices_ascending.
Defined.

(** The running example: with the pointer at 32 the sell index is the
    index of the price 30, and the buy index, found from the reflected
    pixel 20, is the index of the price 10, the last price below 20. *)
Example pointer_at_32 :
  let ui := example_ui example_labels in
  bisectCenter (prices ui) 32 = 2%nat /\
  sellIndex (nearest example_format ui 32 30 2) = 2%Z /\
  buyNearestX (nearest example_format ui 32 30 2) == 20 /\
  buyIndex (nearest example_format ui 32 30 2) = 0%Z.
Proof. repeat split. Qed.

(** C2 as stated fails, in two ways. With the pointer at the pixel 38 the
    buy index is [-1] although the first price, at the pixel 10, lies
    before the pixel 25 of the mid price. And when the mid price is at the
    pixel 40 while the middle of the plot is the pixel 25, the pointer at
    the pixel 32 is handled as on the sell side although it is left of
    the mid price. *)
Lemma pointer_sides_counterexample :
  (let ui := example_ui example_labels in
   bisectCenter (prices ui) 38 = 3%nat /\
   prices ui !! 3%nat = Some 40 /\
   buyIndex (nearest example_format ui 38 40 3) = (-1)%Z /\
   prices ui !! 0%nat = Some 10 /\
   10 < mid_x ui /\
   buyIndicator (example_move (pointer_at 38 3) ui) = false) /\
  (let ui := example_ui_with 40 example_labels in
   bisectCenter (prices ui) 32 = 2%nat /\
   prices ui !! 2%nat = Some 30 /\
   32 < mid_x ui /\
   gt 32 (half_width example_format ui) = true /\
   sellIndex (nearest example_format ui 32 30 2) = 2%Z /\
   sellNearestX (nearest example_format ui 32 30 2) = 30 /\
   text (sellPriceText (example_move (pointer_at 32 3) ui)) = Some "30").
Proof. repeat split. Qed.

(** The amended C5 at the example chart with a label that is not a
    number. *)
Lemma ratio_label_not_a_number_witness :
  let ui := example_ui ["10"; "n/a"; "30"; "40"] in
  let x := 22 * resolution ui in
  let index := bisectCenter (prices ui) x in
  exists nearestX,
    prices ui !! index = Some nearestX /\
    let n := nearest example_format ui x nearestX index in
    let ui' := onPointerMove example_format example_find (pointer_at 22 3) ui in
    text (buyVolRatioText ui') =
      Some (Number.ratio_text (at_index (priceLabels ui) (buyIndex n)) (midPrice ui)) /\
    text (sellVolRatioText ui') =
      Some ("+" +:+ Number.ratio_text (at_index (priceLabels ui) (sellIndex n)) (midPrice ui)) /\
    (Number.fRound (at_index (priceLabels ui) (buyIndex n)) = Number.NaN ->
     text (buyVolRatioText ui') = Some "NaN%") /\
    (Number.fRound (at_index (priceLabels ui) (sellIndex n)) = Number.NaN ->
     text (sellVolRatioText ui') = Some "+NaN%").
Proof.
  apply (ratio_label_not_a_number example_format example_find
           (example_ui ["10"; "n/a"; "30"; "40"]) (pointer_at 22 3) 22 3).
  - reflexivity.
  - reflexivity.
  - reflexivity.
  - reflexivity.
  - simpl. lia.
Defined.

(** C5 as stated fails: the label of the nearest buy price does not parse,
    and the buy ratio label is shown with the text [NaN%]. *)
Lemma ratio_label_counterexample :
  let ui := example_move (pointer_at 22 3) (example_ui ["10"; "n/a"; "30"; "40"]) in
  Number.fRound (Some "n/a") = Number.NaN /\
  buyPriceText ui = {| text := Some "n/a"; visible := true |} /\
  buyVolRatioText ui = {| text := Some "NaN%"; visible := true |}.
Proof. repeat split. Qed.

(** Labels that parse. *)
Example ratio_labels_parsed :
  let ui := example_move (pointer_at 32 3) (example_ui ["1,000"; "20"; "30"; "40"]) in
  text (buyVolRatioText ui) = Some "3900.00%" /\
  text (sellVolRatioText ui) = Some "+20.00%".
Proof. repeat split. Qed.

(** C9 at a failing input. In auction mode the pointer moves next to the
    first point, which shows the auction labels and indicator; then
    [clearPrice] is called. The last event is forgotten, and the auction
    labels and indicator are still shown. *)
Lemma clearPrice_keeps_auction_overlay :
  let shown := example_move (pointer_at 12 6) (set_indicativePrice 1 (example_ui example_labels)) in
  let cleared := clearPrice shown in
  auctionPriceText shown = {| text := Some "10"; visible := true |} /\
  lastEvent cleared = None /\
  auctionPriceText cleared = {| text := Some "10"; visible := true |} /\
  auctionVolumeText cleared = {| text := Some "5"; visible := true |} /\
  auctionIndicator cleared = true.
Proof. repeat split. Qed.

(** C10 at a failing input. In auction mode, after one [update] (which
    builds nothing, no pointer event being cached), three pointer moves
    build three triangulations of the same points. *)
Lemma triangulation_built_per_move :
  let ui0 := update example_format example_find example_data
               (set_indicativePrice 1 (example_ui example_labels)) in
  let ui3 := example_move (pointer_at 14 6) (example_move (pointer_at 13 6)
               (example_move (pointer_at 12 6) ui0)) in
  delaunay_built ui0 = 0%nat /\
  prices ui3 = prices ui0 /\ volumes ui3 = volumes ui0 /\
  delaunay_built ui3 = 3%nat.
Proof. repeat split. Qed.

End PointerExamples.

(** ** Gestures: what every run of events keeps *)

Section GestureRuns.

Import Zoom ZoomRun.
Local Open Scope R_scope.

(** The timers that run leave the zoom state alone, but for [gesture.wheel]
    and the log. *)
Lemma wheel_timeouts_frame (due : list (positive * Z)) (ui : UI) :
  let ui' := foldl (fun ui _ => wheel_timeout ui) ui due in
  scaleExtent ui' = scaleExtent ui /\
  transform ui' = transform ui /\
  originalTransform ui' = originalTransform ui /\
  touch0 (gesture ui') = touch0 (gesture ui) /\
  touch1 (gesture ui') = touch1 (gesture ui) /\
  timers ui' = timers ui /\
  clock ui' = clock ui.
Proof.
  revert ui. induction due as [|d due IH]; intros ui; simpl; [repeat split|].
  destruct (IH (wheel_timeout ui)) as (H1 & H2 & H3 & H4 & H5 & H6 & H7).
  simpl in *. repeat split; assumption.
Qed.

Lemma advance_frame (now : Z) (ui : UI) :
  scaleExtent (advance now ui) = scaleExtent ui /\
  transform (advance now ui) = transform ui /\
  originalTransform (advance now ui) = originalTransform ui /\
  touch0 (gesture (advance now ui)) = touch0 (gesture ui) /\
  touch1 (gesture (advance now ui)) = touch1 (gesture ui).
Proof.
  unfold advance.
  match goal with
  | |- context [foldl _ ?u ?d] => destruct (wheel_timeouts_frame d u) as (H1 & H2 & H3 & H4 & H5 & _)
  end.
  simpl in *. repeat split; assumption.
Qed.

Lemma on_wheel_frame (w : WheelEvent) (ui : UI) :
  scaleExtent (on_wheel w ui) = scaleExtent ui /\
  originalTransform (on_wheel w ui) = originalTransform ui /\
  touch0 (gesture (on_wheel w ui)) = touch0 (gesture ui) /\
  touch1 (gesture (on_wheel w ui)) = touch1 (gesture ui) /\
  transform (on_wheel w ui) =
    clamp (mul (transform ui)
             (Real (Rpower 2 (- deltaY w * (2 / 1000) * (if ctrlKey w then 10 else 1)))))
          (scaleExtent ui).1 (scaleExtent ui).2.
Proof. unfold on_wheel. destruct (wheel (gesture ui)); simpl; repeat split. Qed.


(** Within an extent, [clamp] changes nothing. *)
Lemma clamp_inside (x : Num) (extent : R * Bound) :
  within x extent -> clamp x extent.1 extent.2 = x.
Proof.
  destruct extent as [lower upper]. unfold within, le. cbn [fst snd]. intros [Hl Hu].
  destruct x as [x| | |]; try (exfalso; unfold leb in Hl; discriminate);
    unfold clamp; cbv zeta; rewrite Hu, Hl; reflexivity.
Qed.

(** The loop of [touchstart] on consistent records. *)
Lemma touchstart_step_consistent (started : bool) (g : Gesture) (touch : Touch) :
  touches_consistent g ->
  touches_consistent (touchstart_step (started, g) touch).2.
Proof.
  intros Hc. unfold touchstart_step, touches_consistent in *.
  destruct (touch0 g) as [t0|] eqn:E0.
  - destruct (touch1 g) as [t1|] eqn:E1.
    + simpl. rewrite E0, E1. exact Hc.
    + destruct (Z.eqb_spec (touch_identifier t0) (identifier touch)) as [Heq|Hne]; simpl.
      * rewrite E0, E1. exact I.
      * rewrite E0. exact Hne.
  - destruct (touch1 g) as [t1|] eqn:E1; [contradiction|].
    simpl. rewrite E1. exact I.
Qed.

Lemma touchstart_loop_consistent (l : list Touch) (started : bool) (g : Gesture) :
  touches_consistent g ->
  touches_consistent (foldl touchstart_step (started, g) l).2.
Proof.
  revert started g. induction l as [|touch l IH]; intros started g Hc; [exact Hc|].
  change (foldl touchstart_step (started, g) (touch :: l))
    with (foldl touchstart_step (touchstart_step (started, g) touch) l).
  pose proof (touchstart_step_consistent started g touch Hc) as Hs.
  destruct (touchstart_step (started, g) touch) as [started' g'].
  apply IH. exact Hs.
Qed.

Lemma touchmove_step_consistent (g : Gesture) (touch : Touch) :
  touches_consistent g -> touches_consistent (touchmove_step g touch).
Proof.
  unfold touchmove_step, holds, touches_consistent.
  destruct (touch0 g) as [t0|] eqn:E0; destruct (touch1 g) as [t1|] eqn:E1; simpl;
    repeat match goal with
           | |- context [Z.eqb ?a ?b] => destruct (Z.eqb a b); simpl
           end;
    rewrite ?E0, ?E1; simpl; auto.
Qed.

Lemma touchmove_loop_consistent (l : list Touch) (g : Gesture) :
  touches_consistent g -> touches_consistent (foldl touchmove_step g l).
Proof.
  revert g. induction l as [|touch l IH]; intros g Hc; simpl; [exact Hc|].
  apply IH. apply touchmove_step_consistent. exact Hc.
Qed.

(** The loop of [touchend] clears records and changes none. *)
Lemma touchend_loop_shrinks (l : list Touch) (g : Gesture) :
  (touch0 (foldl touchend_step g l) = touch0 g \/ touch0 (foldl touchend_step g l) = None) /\
  (touch1 (foldl touchend_step g l) = touch1 g \/ touch1 (foldl touchend_step g l) = None).
Proof.
  revert g. induction l as [|touch l IH]; intros g; simpl; [auto|].
  destruct (IH (touchend_step g touch)) as [H0 H1].
  assert (Hs : (touch0 (touchend_step g touch) = touch0 g \/ touch0 (touchend_step g touch) = None) /\
               (touch1 (touchend_step g touch) = touch1 g \/ touch1 (touchend_step g touch) = None)).
  { unfold touchend_step. destruct (holds (touch0 g) touch); simpl; [auto|].
    destruct (holds (touch1 g) touch); simpl; auto. }
  destruct Hs as [S0 S1]. split.
  - destruct H0 as [H0|H0]; [rewrite H0; exact S0|right; exact H0].
  - destruct H1 as [H1|H1]; [rewrite H1; exact S1|right; exact H1].
Qed.

Lemma on_touchend_consistent (e : TouchEvent) (ui : UI) :
  touches_consistent (gesture ui) ->
  touches_consistent (gesture (on_touchend (IsTouchEvent e) ui)).
Proof.
  intros Hc. unfold on_touchend. simpl.
  destruct (touchend_loop_shrinks (changedTouches e) (gesture ui)) as [H0 H1].
  set (g := foldl touchend_step (gesture ui) (changedTouches e)) in *.
  unfold touches_consistent in *.
  destruct (touch1 g) as [t1|] eqn:E1.
  - destruct (touch0 g) as [t0|] eqn:E0.
    + rewrite E1, E0.
      destruct H0 as [H0|H0]; [|discriminate]. destruct H1 as [H1|H1]; [|discriminate].
      rewrite <- H0, <- H1 in Hc. exact Hc.
    + simpl. exact I.
  - destruct (touch0 g); rewrite E1; exact I.
Qed.

(** One event: consistent touch records stay consistent, and no handler
    throws. *)
Lemma handle_consistent (event : Event) (ui : UI) :
  touches_consistent (gesture ui) ->
  exists ui', handle event ui = Done ui' /\ touches_consistent (gesture ui').
Proof.
  intros Hc. destruct event as [now w|now|oe|oe|oe]; simpl.
  - eexists. split; [reflexivity|].
    unfold dispatch_wheel.
    destruct (on_wheel_frame w (advance now ui)) as (_ & _ & H0 & H1 & _).
    destruct (advance_frame now ui) as (_ & _ & _ & A0 & A1).
    unfold touches_consistent in *. rewrite H1, H0, A1, A0. exact Hc.
  - eexists. split; [reflexivity|].
    destruct (advance_frame now ui) as (_ & _ & _ & A0 & A1).
    unfold touches_consistent in *. rewrite A1, A0. exact Hc.
  - eexists. split; [reflexivity|].
    destruct oe as [e|]; [|exact Hc]. unfold on_touchstart.
    pose proof (touchstart_loop_consistent (touches e) false (gesture ui) Hc) as Hl.
    destruct (foldl touchstart_step (false, gesture ui) (touches e)) as [started g].
    simpl in Hl. destruct started; exact Hl.
  - destruct oe as [e|]; [|exists ui; split; [reflexivity|exact Hc]].
    pose proof (touchmove_loop_consistent (changedTouches e) (gesture ui) Hc) as Hl.
    unfold on_touchmove.
    set (g := foldl touchmove_step (gesture ui) (changedTouches e)) in *.
    unfold touches_consistent in Hl.
    destruct (touch1 g) as [t1|] eqn:E1.
    + destruct (touch0 g) as [t0|] eqn:E0; [|contradiction].
      eexists. split; [reflexivity|]. simpl.
      unfold touches_consistent. rewrite E1, E0. exact Hl.
    + eexists. split; [reflexivity|]. simpl.
      unfold touches_consistent. rewrite E1. exact I.
  - eexists. split; [reflexivity|].
    destruct oe as [e|]; [|exact Hc]. apply on_touchend_consistent. exact Hc.
Qed.

(** X1. From consistent touch records (those of a new chart are), every
    series of wheel events, timer runs and touch events runs to its end: no
    handler throws a [TypeError], whatever the positions of the touches,
    two touches that start at the same point included, and the records are
    consistent afterwards. In particular the [touchmove] handler never
    reads the point of a missing first touch. *)
Theorem run_never_throws (events : list Event) (ui : UI) :
  touches_consistent (gesture ui) ->
  exists ui', run events ui = Done ui' /\ touches_consistent (gesture ui').
Proof.
  revert ui. induction events as [|event events IH]; intros ui Hc.
  - exists ui. split; [reflexivity|exact Hc].
  - destruct (handle_consistent event ui Hc) as (ui1 & Hrun & Hc1).
    destruct (IH ui1 Hc1) as (ui2 & Hrun2 & Hc2).
    exists ui2. split; [|exact Hc2]. cbn [run]. rewrite Hrun. exact Hrun2.
Qed.

Lemma run_never_throws_witness :
  exists ui',
    run [ETouchStart (changed [touch_at 0 7 7; touch_at 1 7 7]);
         ETouchMove (changed [touch_at 1 7 7]);
         ETouchMove (changed [touch_at 1 9 9]);
         ETouchEnd (changed [touch_at 0 7 7]);
         ETouchMove (changed [touch_at 1 3 4]); EWheel 10 example_wheel] create = Done ui' /\
    touches_consistent (gesture ui').
Proof.
  apply (run_never_throws
           [ETouchStart (changed [touch_at 0 7 7; touch_at 1 7 7]);
            ETouchMove (changed [touch_at 1 7 7]);
            ETouchMove (changed [touch_at 1 9 9]);
            ETouchEnd (changed [touch_at 0 7 7]);
            ETouchMove (changed [touch_at 1 3 4]); EWheel 10 example_wheel] create).
  exact I.
Defined.

Lemma on_touchstart_frame (oe : OriginalEvent) (ui : UI) :
  scaleExtent (on_touchstart oe ui) = scaleExtent ui /\
  transform (on_touchstart oe ui) = transform ui.
Proof.
  destruct oe as [e|]; [|split; reflexivity]. unfold on_touchstart.
  destruct (foldl touchstart_step (false, gesture ui) (touches e)) as [started g].
  destruct started; split; reflexivity.
Qed.



(** Powers of two: at least 1 for an exponent that is not negative, at most
    1 for an exponent that is not positive. *)
Lemma Rpower_2_ge_1 (y : R) : 0 <= y -> 1 <= Rpower 2 y.
Proof.
  intros Hy. rewrite <- (Rpower_O 2) by lraR. apply Rle_Rpower; lraR.
Qed.

Lemma Rpower_2_le_1 (y : R) : y <= 0 -> Rpower 2 y <= 1.
Proof.
  intros Hy. rewrite <- (Rpower_O 2) by lraR. apply Rle_Rpower; lraR.
Qed.

Lemma Rpower_2_pos (y : R) : 0 < Rpower 2 y.
Proof. unfold Rpower. apply exp_pos. Qed.






(** Two fingers land at the same point and one of them is reported by a
    [touchmove] without having moved: the handler divides zero by zero,
    sets the transform to [NaN] and emits it. *)
Example degenerate_pinch_NaN :
  exists ui',
    run [ETouchStart (changed [touch_at 0 7 7; touch_at 1 7 7]);
         ETouchMove (changed [touch_at 1 7 7])] create = Done ui' /\
    transform ui' = NotANumber /\
    emitted ui' = [zoomstart; zoom NotANumber].
Proof.
  unfold changed. cbn [run handle].
  rewrite (on_touchstart_two create (touch_at 0 7 7) (touch_at 1 7 7))
    by (reflexivity || discriminate).
  match goal with
  | |- context [on_touchmove ?oe ?u] =>
      destruct (on_touchmove_two u
                  {| touches := [touch_at 1 7 7]; changedTouches := [touch_at 1 7 7] |}
                  (new_record (touch_at 0 7 7)) (new_record (touch_at 1 7 7)))
        as (ui' & Hrun & _ & _ & Ht & He & _);
        [reflexivity|reflexivity|discriminate|]
  end.
  rewrite Hrun. exists ui'. split; [reflexivity|].
  assert (Hnan : transform ui' = NotANumber).
  { rewrite Ht. unfold distance2, pointer. simpl.
    num_cases; try reflexivity; exfalso; lraR. }
  split; [exact Hnan|]. rewrite He, Hnan. reflexivity.
Qed.

(** X3. The wheel zooms in the direction of the scroll. When the transform
    is not negative and within an extent that is an interval, a wheel event
    with [deltaY <= 0] never lowers the transform and one with
    [deltaY >= 0] never raises it, with or without the control key. *)
Theorem wheel_direction (w : WheelEvent) (ui : UI) :
  ordered (scaleExtent ui) ->
  within (transform ui) (scaleExtent ui) ->
  le (Real 0) (transform ui) ->
  (deltaY w <= 0 -> le (transform ui) (transform (on_wheel w ui))) /\
  (0 <= deltaY w -> le (transform (on_wheel w ui)) (transform ui)).
Proof.
  intros Ho Hw Hpos.
  destruct (on_wheel_frame w ui) as (_ & _ & _ & _ & Ht). rewrite Ht. clear Ht.
  set (y := - deltaY w * (2 / 1000) * (if ctrlKey w then 10 else 1)).
  assert (Hfactor : 0 < (2 / 1000) * (if ctrlKey w then 10 else 1)).
  { destruct (ctrlKey w); lraR. }
  pose proof (Rpower_2_pos y) as Hk.
  destruct (scaleExtent ui) as [lower upper]. unfold ordered, within in *. simpl in *.
  destruct Hw as [Hl Hu].
  destruct (transform ui) as [t| | |]; try discriminate.
  - apply le_Real in Hl, Hpos.
    assert (Hup : match upper with Finite u => t <= u | Infinity => True end).
    { destruct upper; [apply le_Real; exact Hu|exact I]. }
    clear Hu. split; intros Hd.
    + assert (Hy : 0 <= y).
      { unfold y. rewrite Rmult_assoc. apply Rmult_le_pos; lraR. }
      pose proof (Rpower_2_ge_1 y Hy) as H1.
      assert (Hmul : t <= t * Rpower 2 y).
      { rewrite <- (Rmult_1_r t) at 1. apply Rmult_le_compat_l; assumption. }
      unfold le. destruct upper as [u|]; num_cases; try reflexivity; exfalso; lraR.
    + assert (Hy : y <= 0).
      { unfold y. rewrite Rmult_assoc.
        assert (0 <= deltaY w * (2 / 1000 * (if ctrlKey w then 10 else 1)))
          by (apply Rmult_le_pos; lraR).
        lraR. }
      pose proof (Rpower_2_le_1 y Hy) as H1.
      assert (Hmul : t * Rpower 2 y <= t).
      { rewrite <- (Rmult_1_r t) at 2. apply Rmult_le_compat_l; assumption. }
      unfold le. destruct upper as [u|]; num_cases; try reflexivity; exfalso; lraR.
  - destruct upper as [u|]; [discriminate|].
    unfold le. split; intros _; num_cases; try reflexivity; exfalso; lraR.
Qed.

Lemma wheel_direction_witness :
  (deltaY example_wheel <= 0 ->
     le (transform example_bounded) (transform (on_wheel example_wheel example_bounded))) /\
  (0 <= deltaY example_wheel ->
     le (transform (on_wheel example_wheel example_bounded)) (transform example_bounded)).
Proof.
  apply (wheel_direction example_wheel example_bounded).
  - unfold ordered. simpl. lraR.
  - unfold within, le. simpl. split; num_cases; try reflexivity; exfalso; lraR.
  - unfold le. simpl. num_cases; try reflexivity; exfalso; lraR.
Defined.

(** *** The wheel gesture at any timing *)

(** What one state has emitted beyond another, with as many [zoomstart] as
    [zoomend] once the wheel gestures that are open on either side are
    counted. *)
Lemma count_emitted_app (kind : Emitted -> bool) (l1 l2 : list Emitted) :
  count_emitted kind (l1 ++ l2) = (count_emitted kind l1 + count_emitted kind l2)%nat.
Proof. unfold count_emitted. rewrite List.filter_app, length_app. reflexivity. Qed.

Lemma advance_balanced (now : Z) (ui : UI) :
  timer_consistent ui ->
  timer_consistent (advance now ui) /\
  exists log,
    emitted (advance now ui) = emitted ui ++ log /\
    (count_emitted is_zoomstart log + open_wheel ui =
     count_emitted is_zoomend log + open_wheel (advance now ui))%nat.
Proof.
  unfold timer_consistent, open_wheel, advance.
  destruct (wheel (gesture ui)) as [id|] eqn:Ew.
  - intros [due Ht]. rewrite Ht.
    rewrite !filter_cons, !filter_nil. simpl.
    repeat case_decide; try lia; simpl.
    + rewrite Ew. split; [eauto|]. exists []. rewrite app_nil_r. split; reflexivity.
    + split; [reflexivity|]. exists [zoomend]. split; reflexivity.
  - intros Ht. simpl in Ht. rewrite Ht. simpl. rewrite Ew.
    split; [reflexivity|]. exists []. rewrite app_nil_r. split; reflexivity.
Qed.

Lemma on_wheel_balanced (w : WheelEvent) (ui : UI) :
  timer_consistent ui ->
  timer_consistent (on_wheel w ui) /\
  exists log,
    emitted (on_wheel w ui) = emitted ui ++ log /\
    (count_emitted is_zoomstart log + open_wheel ui =
     count_emitted is_zoomend log + open_wheel (on_wheel w ui))%nat.
Proof.
  unfold timer_consistent, open_wheel, on_wheel.
  destruct (wheel (gesture ui)) as [id|] eqn:Ew.
  - intros [due Ht]. simpl. rewrite Ht.
    rewrite filter_cons, filter_nil. simpl. case_decide; [congruence|]. simpl.
    split; [eauto|]. eexists [_]. split; reflexivity.
  - intros Ht. simpl in Ht. simpl. rewrite Ht. simpl.
    split; [eauto|]. eexists [_; _]. rewrite <- app_assoc. split; reflexivity.
Qed.

Lemma dispatch_wheels_balanced (events : list (Z * WheelEvent)) (ui : UI) :
  timer_consistent ui ->
  timer_consistent (dispatch_wheels events ui) /\
  exists log,
    emitted (dispatch_wheels events ui) = emitted ui ++ log /\
    (count_emitted is_zoomstart log + open_wheel ui =
     count_emitted is_zoomend log + open_wheel (dispatch_wheels events ui))%nat.
Proof.
  revert ui. induction events as [|[now w] events IH]; intros ui Hc.
  - split; [exact Hc|]. exists []. rewrite app_nil_r. split; reflexivity.
  - change (dispatch_wheels ((now, w) :: events) ui)
      with (dispatch_wheels events (on_wheel w (advance now ui))).
    destruct (advance_balanced now ui Hc) as (Hc1 & log1 & He1 & Hn1).
    destruct (on_wheel_balanced w _ Hc1) as (Hc2 & log2 & He2 & Hn2).
    destruct (IH _ Hc2) as (Hc3 & log3 & He3 & Hn3).
    split; [exact Hc3|]. exists (log1 ++ log2 ++ log3).
    split.
    + rewrite He3, He2, He1, <- !app_assoc. reflexivity.
    + rewrite !count_emitted_app. lia.
Qed.

(** X4. Wheel events at any times, close together or far apart: as long as
    only the wheel is used, the window never has more than one debounce
    timer pending, and the chart has emitted as many [zoomstart] as
    [zoomend], plus one while a timer is pending. *)
Theorem wheel_gestures_balanced (events : list (Z * WheelEvent)) (later : Z) (ui : UI) :
  timer_consistent ui ->
  let ui' := advance later (dispatch_wheels events ui) in
  timer_consistent ui' /\
  (length (timers ui') <= 1)%nat /\
  exists log,
    emitted ui' = emitted ui ++ log /\
    (count_emitted is_zoomstart log + open_wheel ui =
     count_emitted is_zoomend log + open_wheel ui')%nat.
Proof.
  intros Hc ui'.
  destruct (dispatch_wheels_balanced events ui Hc) as (Hc1 & log1 & He1 & Hn1).
  destruct (advance_balanced later _ Hc1) as (Hc2 & log2 & He2 & Hn2).
  fold ui' in Hc2, He2, Hn2.
  split; [exact Hc2|]. split.
  - unfold timer_consistent in Hc2. destruct (wheel (gesture ui')).
    + destruct Hc2 as [due ->]. simpl. lia.
    + rewrite Hc2. simpl. lia.
  - exists (log1 ++ log2). split.
    + rewrite He2, He1, <- app_assoc. reflexivity.
    + rewrite count_emitted_app, count_emitted_app. lia.
Qed.

Lemma wheel_gestures_balanced_witness :
  let ui' := advance 1000 (dispatch_wheels
               [(0%Z, example_wheel); (400%Z, example_wheel); (420%Z, example_wheel)] create) in
  timer_consistent ui' /\
  (length (timers ui') <= 1)%nat /\
  exists log,
    emitted ui' = emitted create ++ log /\
    (count_emitted is_zoomstart log + open_wheel create =
     count_emitted is_zoomend log + open_wheel ui')%nat.
Proof.
  apply (wheel_gestures_balanced
           [(0%Z, example_wheel); (400%Z, example_wheel); (420%Z, example_wheel)] 1000 create).
  reflexivity.
Defined.

(** *** Touch start and single touch *)

Lemma touchstart_loop_started (l : list Touch) (started : bool) (g : Gesture) :
  (is_Some (touch0 g) ->
     (foldl touchstart_step (started, g) l).1 = started /\
     touch0 (foldl touchstart_step (started, g) l).2 = touch0 g) /\
  (touch0 g = None -> l <> [] ->
     (foldl touchstart_step (started, g) l).1 = true /\
     is_Some (touch0 (foldl touchstart_step (started, g) l).2)).
Proof.
  revert started g. induction l as [|touch l IH]; intros started g.
  - split; [intros _; split; reflexivity|intros _ Hne; congruence].
  - change (foldl touchstart_step (started, g) (touch :: l))
      with (foldl touchstart_step (touchstart_step (started, g) touch) l).
    assert (Hstep :
      (is_Some (touch0 g) ->
         exists g', touchstart_step (started, g) touch = (started, g') /\ touch0 g' = touch0 g) /\
      (touch0 g = None ->
         exists g', touchstart_step (started, g) touch = (true, g') /\ is_Some (touch0 g'))).
    { unfold touchstart_step. destruct (touch0 g) as [t0|] eqn:E0.
      - split; [|discriminate]. intros _.
        destruct (touch1 g); [eauto|].
        destruct (negb _); eexists; split; try reflexivity; simpl; exact E0.
      - split; [intros [? ?]; discriminate|]. intros _.
        eexists. split; [reflexivity|]. simpl. eauto. }
    destruct Hstep as [Hsome Hnone]. split.
    + intros Hs. destruct (Hsome Hs) as (g' & -> & Hg').
      destruct (IH started g') as [IHs _]. rewrite <- Hg'. apply IHs. rewrite Hg'. exact Hs.
    + intros Hn _. destruct (Hnone Hn) as (g' & -> & Hg').
      destruct (IH true g') as [IHs _]. destruct (IHs Hg') as [H1 H2].
      split; [exact H1|]. rewrite H2. exact Hg'.
Qed.

(** X5. A [touchstart] never changes the transform. It emits [zoomstart]
    and takes the current transform as the original one exactly when it
    creates the first touch record: when no touch was recorded and the event
    carries a touch. With a touch already recorded, or without any touch,
    it emits nothing, keeps the original transform and keeps the first
    record. *)
Theorem touchstart_starts_once (e : TouchEvent) (ui : UI) :
  let ui' := on_touchstart (IsTouchEvent e) ui in
  transform ui' = transform ui /\
  (touch0 (gesture ui) = None -> touches e <> [] ->
     emitted ui' = emitted ui ++ [zoomstart] /\
     originalTransform ui' = transform ui /\
     is_Some (touch0 (gesture ui'))) /\
  (is_Some (touch0 (gesture ui)) \/ touches e = [] ->
     emitted ui' = emitted ui /\
     originalTransform ui' = originalTransform ui /\
     touch0 (gesture ui') = touch0 (gesture ui)).
Proof.
  intros ui'. subst ui'.
  destruct (touchstart_loop_started (touches e) false (gesture ui)) as [Hsome Hnone].
  split; [apply on_touchstart_frame|].
  unfold on_touchstart.
  destruct (foldl touchstart_step (false, gesture ui) (touches e)) as [started g] eqn:E.
  simpl in Hsome, Hnone. split.
  - intros H0 Hne. destruct (Hnone H0 Hne) as [-> Hg]. simpl. auto.
  - intros [Hs|Hnil].
    + destruct (Hsome Hs) as [-> Hg]. simpl. auto.
    + rewrite Hnil in E. simpl in E. injection E as <- <-. simpl. auto.
Qed.

Lemma touchstart_starts_once_witness :
  emitted (on_touchstart (changed [touch_at 0 0 0]) create) = emitted create ++ [zoomstart] /\
  originalTransform (on_touchstart (changed [touch_at 0 0 0]) create) = transform create /\
  is_Some (touch0 (gesture (on_touchstart (changed [touch_at 0 0 0]) create))).
Proof.
  apply (touchstart_starts_once
           {| touches := [touch_at 0 0 0]; changedTouches := [touch_at 0 0 0] |} create).
  - reflexivity.
  - discriminate.
Defined.


Lemma touchmove_loop_single (l : list Touch) (g : Gesture) :
  touch1 g = None -> touch1 (foldl touchmove_step g l) = None.
Proof.
  revert g. induction l as [|touch l IH]; intros g H1; simpl; [exact H1|].
  apply IH. unfold touchmove_step, holds. rewrite H1.
  destruct (touch0 g) as [t0|]; simpl; [|exact H1].
  destruct (Z.eqb _ _); simpl; exact H1.
Qed.

(** X6. With a single touch down, or none, a [touchmove] runs to its end
    without changing the transform or the original transform and without
    emitting anything, whatever touches it carries; no second record
    appears. *)
Theorem single_touch_move (oe : OriginalEvent) (ui : UI) :
  touch1 (gesture ui) = None ->
  exists ui',
    on_touchmove oe ui = Done ui' /\
    transform ui' = transform ui /\
    originalTransform ui' = originalTransform ui /\
    emitted ui' = emitted ui /\
    touch1 (gesture ui') = None.
Proof.
  intros H1. destruct oe as [e|]; [|exists ui; repeat split; assumption].
  unfold on_touchmove.
  rewrite (touchmove_loop_single (changedTouches e) (gesture ui) H1).
  eexists. split; [reflexivity|]. simpl. repeat split.
  apply touchmove_loop_single. exact H1.
Qed.

Lemma single_touch_move_witness :
  exists ui',
    on_touchmove (changed [touch_at 0 8 9])
      (on_touchstart (changed [touch_at 0 0 0]) create) = Done ui' /\
    transform ui' = transform (on_touchstart (changed [touch_at 0 0 0]) create) /\
    originalTransform ui' = originalTransform (on_touchstart (changed [touch_at 0 0 0]) create) /\
    emitted ui' = emitted (on_touchstart (changed [touch_at 0 0 0]) create) /\
    touch1 (gesture ui') = None.
Proof.
  apply (single_touch_move (changed [touch_at 0 8 9])
           (on_touchstart (changed [touch_at 0 0 0]) create)).
  reflexivity.
Defined.

End GestureRuns.

(** ** Labels with thousands separators *)

Section LabelParsing.

Import Number NumberText.
Local Open Scope string_scope.

Lemma digit_cases (c : ascii) :
  is_digit c = true ->
  c = "0"%char \/ c = "1"%char \/ c = "2"%char \/ c = "3"%char \/ c = "4"%char \/
  c = "5"%char \/ c = "6"%char \/ c = "7"%char \/ c = "8"%char \/ c = "9"%char.
Proof.
  destruct c as [[] [] [] [] [] [] [] []]; unfold is_digit; simpl; intros H;
    try discriminate; tauto.
Qed.

(** A run of digits is read whole, and reading goes on behind it. *)
Lemma read_digits_app (s rest : string) :
  all_digits s = true ->
  forall acc count,
    exists value,
      read_digits acc count s = (value, (count + String.length s)%nat, "") /\
      read_digits acc count (s ++ rest) = read_digits value (count + String.length s)%nat rest.
Proof.
  induction s as [|c s IH]; intros Hall acc count.
  - exists acc. simpl. rewrite Nat.add_0_r. split; reflexivity.
  - simpl in Hall. apply andb_true_iff in Hall. destruct Hall as [Hc Hs].
    unfold is_digit in Hc. simpl.
    destruct (digit_of c) as [d|]; [|discriminate].
    destruct (IH Hs (10 * acc + d)%Z (S count)) as (value & H1 & H2).
    exists value. rewrite H1, H2.
    replace (S count + String.length s)%nat with (count + S (String.length s))%nat by lia.
    split; reflexivity.
Qed.

(** Digits hold no comma. *)
Lemma remove_first_comma_digits (s rest : string) :
  all_digits s = true ->
  remove_first_comma (s ++ "," ++ rest) = s ++ rest /\
  remove_first_comma s = s.
Proof.
  induction s as [|c s IH]; intros Hall; [split; reflexivity|].
  simpl in Hall. apply andb_true_iff in Hall. destruct Hall as [Hc Hs].
  destruct (IH Hs) as [H1 H2]. simpl in *.
  assert (Hne : Ascii.eqb c "," = false).
  { destruct (digit_cases c Hc) as [->|[->|[->|[->|[->|[->|[->|[->|[->| ->]]]]]]]]];
      reflexivity. }
  rewrite Hne, H1, H2. split; reflexivity.
Qed.

(** [parseFloat] stops at a comma behind the digits. *)
Lemma parseFloat_stops_at_comma (d rest : string) :
  all_digits d = true -> d <> "" ->
  parseFloat (d ++ "," ++ rest) = parseFloat d.
Proof.
  intros Hall Hne. destruct d as [|c d]; [congruence|].
  simpl in Hall. apply andb_true_iff in Hall. destruct Hall as [Hc Hd].
  unfold parseFloat, read_unsigned.
  destruct (digit_cases c Hc) as [->|[->|[->|[->|[->|[->|[->|[->|[->| ->]]]]]]]]];
    simpl;
    match goal with
    | |- context [read_digits ?a ?n (d ++ ?r)] =>
        destruct (read_digits_app d r Hd a n) as (value & H1 & H2)
    end;
    rewrite H1, H2; simpl; reflexivity.
Qed.

(** X7. [fRound] removes the first comma only, and [parseFloat] stops at the
    next one: a label of digits with two thousands separators is read as the
    number written before the second separator. With the label
    [1,234,567] the number is 1234. *)
Theorem fRound_second_comma (s1 s2 rest : string) :
  all_digits s1 = true -> s1 <> "" -> all_digits s2 = true ->
  fRound (Some (s1 ++ "," ++ s2 ++ "," ++ rest)) = fRound (Some (s1 ++ s2)).
Proof.
  intros H1 Hne H2. unfold fRound.
  assert (Hall : all_digits (s1 ++ s2) = true).
  { clear Hne. induction s1 as [|c s1 IH]; [exact H2|].
    simpl in *. apply andb_true_iff in H1. destruct H1 as [Hc H1].
    rewrite Hc. simpl. auto. }
  destruct (remove_first_comma_digits s1 (s2 ++ "," ++ rest) H1) as [-> _].
  destruct (remove_first_comma_digits (s1 ++ s2) "" Hall) as [_ ->].
  assert (Hassoc : s1 ++ s2 ++ "," ++ rest = (s1 ++ s2) ++ "," ++ rest).
  { clear. induction s1 as [|c s1 IH]; [reflexivity|].
    exact (f_equal (String c) IH). }
  rewrite Hassoc. apply parseFloat_stops_at_comma; [exact Hall|].
  destruct s1; [congruence|discriminate].
Qed.

Lemma fRound_second_comma_witness :
  fRound (Some ("1" ++ "," ++ "234" ++ "," ++ "567")) = fRound (Some ("1" ++ "234")).
Proof.
  apply (fRound_second_comma "1" "234" "567").
  - reflexivity.
  - discriminate.
  - reflexivity.
Defined.

Example fRound_millions : fRound (Some "1,234,567") = Num 1234.
Proof. reflexivity. Qed.

End LabelParsing.

(** ** The pointer handler: what it leaves alone *)

Section PointerFrames.

Import Bisect Pointer PointerView.
Local Open Scope Q_scope.

Variable formatVolumeTick : Q -> string.
Variable delaunay_find : list (Q * Q) -> Q -> Q -> Z.

Local Abbreviation onPointerMove := (Pointer.onPointerMove formatVolumeTick delaunay_find).
Local Abbreviation update := (Pointer.update formatVolumeTick delaunay_find).
Local Abbreviation pointer_moves := (PointerView.pointer_moves formatVolumeTick delaunay_find).

Lemma move_sides_frame (ui : UI) (x : Q) :
  chart_data (move_sides formatVolumeTick ui x) = chart_data ui /\
  settings (move_sides formatVolumeTick ui x) = settings ui /\
  auction_overlays (move_sides formatVolumeTick ui x) = auction_overlays ui /\
  delaunay_built (move_sides formatVolumeTick ui x) = delaunay_built ui /\
  lastEvent (move_sides formatVolumeTick ui x) = lastEvent ui.
Proof.
  unfold move_sides. destruct (prices ui !! bisectCenter (prices ui) x); repeat split.
Qed.

(** One pointer move changes neither the chart data nor the settings. *)
Lemma onPointerMove_frame (event : InteractionEvent) (ui : UI) :
  chart_data (onPointerMove event ui) = chart_data ui /\
  settings (onPointerMove event ui) = settings ui.
Proof.
  unfold Pointer.onPointerMove.
  destruct (touch_device ui); [split; reflexivity|].
  destruct (data event) as [[gx gy]|]; [|split; reflexivity].
  cbv zeta.
  destruct (negb (Qeq_bool gx 0) && _); [|split; reflexivity].
  destruct (negb (Qeq_bool (_indicativePrice _) 0)).
  - split; reflexivity.
  - match goal with
    | |- context [move_sides _ ?u ?x] =>
        destruct (move_sides_frame u x) as (Hd & Hs & _)
    end.
    split; [exact Hd|exact Hs].
Qed.

Lemma pointer_moves_frame (events : list InteractionEvent) (ui : UI) :
  chart_data (pointer_moves events ui) = chart_data ui /\
  settings (pointer_moves events ui) = settings ui.
Proof.
  revert ui. induction events as [|event events IH]; intros ui; [split; reflexivity|].
  change (pointer_moves (event :: events) ui)
    with (pointer_moves events (onPointerMove event ui)).
  destruct (IH (onPointerMove event ui)) as [Hd Hs].
  destruct (onPointerMove_frame event ui) as [Hd' Hs'].
  rewrite Hd, Hs, Hd', Hs'. split; reflexivity.
Qed.

(** X8. The handler works on the data of the last [update]: after [update]
    the cached chart data is the data supplied, whether or not a cached
    pointer event was handled again, and no series of pointer moves
    afterwards changes the data, the indicative price, the resolution or
    the size of the view. *)
Theorem update_data_is_current (d : Data) (events : list InteractionEvent) (ui : UI) :
  chart_data (update d ui) = d /\
  settings (update d ui) = settings ui /\
  chart_data (pointer_moves events (update d ui)) = d /\
  settings (pointer_moves events (update d ui)) = settings ui.
Proof.
  assert (Hu : chart_data (update d ui) = d /\ settings (update d ui) = settings ui).
  { unfold Pointer.update. cbv zeta. cbn [lastEvent]. destruct (lastEvent ui) as [event|].
    - match goal with
      | |- context [Pointer.onPointerMove _ _ event ?u] =>
          destruct (onPointerMove_frame event u) as [Hd Hs]
      end.
      rewrite Hd, Hs. destruct d. split; reflexivity.
    - destruct d. split; reflexivity. }
  destruct Hu as [Hd Hs].
  destruct (pointer_moves_frame events (update d ui)) as [Hd' Hs'].
  rewrite Hd', Hs', Hd, Hs. repeat split.
Qed.

(** X9. With fewer than two prices in the new data, [update] changes no
    overlay and draws nothing, whatever pointer event is cached: overlays
    shown for the data before stay as they are. *)
Theorem update_few_prices (d : Data) (ui : UI) :
  (length (new_prices d) <= 1)%nat ->
  side_overlays (update d ui) = side_overlays ui /\
  auction_overlays (update d ui) = auction_overlays ui /\
  rendered (update d ui) = rendered ui /\
  lastEvent (update d ui) = lastEvent ui.
Proof.
  intros Hlen. unfold Pointer.update. cbv zeta. cbn [lastEvent].
  destruct (lastEvent ui) as [event|] eqn:El; [|rewrite ?El; repeat split].
  unfold Pointer.onPointerMove. simpl.
  destruct (touch_device ui); [repeat split|].
  destruct (data event) as [[gx gy]|]; [|simpl; repeat split].
  destruct (Nat.ltb_spec 1 (length (new_prices d))) as [Hlt|_]; [lia|].
  rewrite andb_false_r. simpl. repeat split.
Qed.

(** Outside auction mode one pointer move leaves the auction overlays and
    builds no triangulation. *)
Lemma onPointerMove_keeps_auction (event : InteractionEvent) (ui : UI) :
  Qeq_bool (_indicativePrice ui) 0 = true ->
  auction_overlays (onPointerMove event ui) = auction_overlays ui /\
  delaunay_built (onPointerMove event ui) = delaunay_built ui.
Proof.
  intros Hi. unfold Pointer.onPointerMove.
  destruct (touch_device ui); [split; reflexivity|].
  destruct (data event) as [[gx gy]|]; [|split; reflexivity].
  cbv zeta.
  destruct (negb (Qeq_bool gx 0) && _); [|split; reflexivity].
  change (_indicativePrice (set_lastEvent (Some event) ui)) with (_indicativePrice ui).
  rewrite Hi. simpl negb. cbv iota.
  match goal with
  | |- context [move_sides _ ?u ?x] =>
      destruct (move_sides_frame u x) as (_ & _ & Ha & Hb & _)
  end.
  split; [exact Ha|exact Hb].
Qed.

Lemma act_keeps_auction (a : Action) (ui : UI) :
  Qeq_bool (_indicativePrice ui) 0 = true ->
  auction_overlays (act formatVolumeTick delaunay_find ui a) = auction_overlays ui /\
  delaunay_built (act formatVolumeTick delaunay_find ui a) = delaunay_built ui /\
  _indicativePrice (act formatVolumeTick delaunay_find ui a) = _indicativePrice ui.
Proof.
  intros Hi. destruct a as [event| |d|price|]; simpl.
  - destruct (onPointerMove_keeps_auction event ui Hi) as [Ha Hb].
    destruct (onPointerMove_frame event ui) as [_ Hs].
    split; [exact Ha|]. split; [exact Hb|].
    unfold settings in Hs. congruence.
  - repeat split.
  - unfold Pointer.update. cbv zeta. cbn [lastEvent].
    destruct (lastEvent ui) as [event|]; [|repeat split].
    match goal with
    | |- context [Pointer.onPointerMove _ _ event ?u] =>
        destruct (onPointerMove_keeps_auction event u Hi) as [Ha Hb];
        destruct (onPointerMove_frame event u) as [_ Hs]
    end.
    split; [exact Ha|]. split; [exact Hb|].
    unfold settings in Hs. change (_indicativePrice ui) with (_indicativePrice ui) in Hs.
    injection Hs as Hs _. exact Hs.
  - unfold updatePrice.
    destruct (onPointerMove_keeps_auction
                {| data := Some (Scale.apply (priceScale ui) price, 0) |} ui Hi) as [Ha Hb].
    destruct (onPointerMove_frame
                {| data := Some (Scale.apply (priceScale ui) price, 0) |} ui) as [_ Hs].
    split; [exact Ha|]. split; [exact Hb|].
    unfold settings in Hs. congruence.
  - repeat split.
Qed.

(** X10. Outside auction mode nothing hides the auction overlays: whatever
    series of pointer moves, pointer outs, [update], [updatePrice] and
    [clearPrice] happens while the indicative price is 0, the auction
    indicator and the two auction labels stay as they were, shown if they
    were shown, and no triangulation is built. *)
Theorem auction_overlays_stay (actions : list Action) (ui : UI) :
  Qeq_bool (_indicativePrice ui) 0 = true ->
  auction_overlays (acts formatVolumeTick delaunay_find actions ui) = auction_overlays ui /\
  delaunay_built (acts formatVolumeTick delaunay_find actions ui) = delaunay_built ui.
Proof.
  revert ui. induction actions as [|a actions IH]; intros ui Hi; [split; reflexivity|].
  change (acts formatVolumeTick delaunay_find (a :: actions) ui)
    with (acts formatVolumeTick delaunay_find actions (act formatVolumeTick delaunay_find ui a)).
  destruct (act_keeps_auction a ui Hi) as (Ha & Hb & Hc).
  destruct (IH (act formatVolumeTick delaunay_find ui a)) as [Ha' Hb'].
  { rewrite Hc. exact Hi. }
  rewrite Ha', Hb', Ha, Hb. split; reflexivity.
Qed.

(** Outside auction mode the five overlays of a side are shown or hidden
    together, and the labels of a side that is shown are defined when the
    label arrays are as long as the price array. *)
Lemma at_index_is_Some {A : Type} (a : list A) (i : Z) :
  (0 <= i < Z.of_nat (length a))%Z -> is_Some (at_index a i).
Proof.
  intros Hi. unfold at_index. destruct (Z.ltb_spec i 0); [lia|].
  apply lookup_lt_is_Some_2. lia.
Qed.

Lemma bisect_left_right_range (a : list Q) (x : Q) :
  (bisectLeft a x <= length a)%nat /\ (bisectRight a x <= length a)%nat.
Proof.
  unfold bisectLeft, bisectRight, bisectLeft_in, bisectRight_in.
  pose proof (bisect_loop_range Qltb a x (length a - 0) 0 (length a) ltac:(lia)).
  pose proof (bisect_loop_range Qle_bool a x (length a - 0) 0 (length a) ltac:(lia)).
  lia.
Qed.

Lemma nearest_range (ui : UI) (x nearestX : Q) (index : nat) :
  (index < length (prices ui))%nat ->
  let n := nearest formatVolumeTick ui x nearestX index in
  (-1 <= buyIndex n < Z.of_nat (length (prices ui)))%Z /\
  (-1 <= sellIndex n < Z.of_nat (length (prices ui)))%Z.
Proof.
  intros Hin n. subst n. unfold nearest.
  destruct (bisect_left_right_range (prices ui) (2 * mid_x ui - nearestX)) as [Hl Hr].
  destruct (gt x _); simpl.
  - split; [|lia]. destruct (prices ui !! 0%nat); [destruct (ge _ _)|]; lia.
  - split; [lia|].
    destruct (prices ui !! (length (prices ui) - 1)%nat); [destruct (le _ _)|]; lia.
Qed.

(** X11. Outside auction mode, when the label arrays are as long as the
    price array, the indices that the handler computes are [-1] or indices
    of the arrays, the five overlays of each side are shown or hidden
    together, and a side that is shown has a price label and a volume label
    that are defined. *)
Theorem shown_side_has_labels (ui : UI) (event : InteractionEvent) (gx gy : Q) :
  touch_device ui = false ->
  data event = Some (gx, gy) ->
  Qeq_bool gx 0 = false ->
  Qeq_bool (_indicativePrice ui) 0 = true ->
  (1 < length (prices ui))%nat ->
  length (priceLabels ui) = length (prices ui) ->
  length (volumeLabels ui) = length (prices ui) ->
  let ui' := onPointerMove event ui in
  (buyOverlay ui' = buyIndicator ui' /\ visible (buyPriceText ui') = buyIndicator ui' /\
   visible (buyVolumeText ui') = buyIndicator ui' /\
   visible (buyVolRatioText ui') = buyIndicator ui') /\
  (sellOverlay ui' = sellIndicator ui' /\ visible (sellPriceText ui') = sellIndicator ui' /\
   visible (sellVolumeText ui') = sellIndicator ui' /\
   visible (sellVolRatioText ui') = sellIndicator ui') /\
  (buyIndicator ui' = true ->
     is_Some (text (buyPriceText ui')) /\ is_Some (text (buyVolumeText ui'))) /\
  (sellIndicator ui' = true ->
     is_Some (text (sellPriceText ui')) /\ is_Some (text (sellVolumeText ui'))).
Proof.
  intros Ht Hd Hx Hi Hlen Hpl Hvl ui'. subst ui'.
  rewrite (onPointerMove_sides formatVolumeTick delaunay_find ui event gx gy Ht Hd Hx Hi Hlen).
  assert (Hne : prices ui <> []) by (destruct (prices ui); [simpl in Hlen; lia|congruence]).
  pose proof (bisectCenter_in_range (prices ui) (gx * resolution ui) Hne) as Hin.
  destruct (lookup_lt_is_Some_2 (prices ui) _ Hin) as [nearestX En].
  unfold move_sides.
  change (prices (set_lastEvent (Some event) ui)) with (prices ui).
  change (resolution (set_lastEvent (Some event) ui)) with (resolution ui).
  rewrite En. cbv zeta.
  change (priceLabels (set_lastEvent (Some event) ui)) with (priceLabels ui).
  change (volumeLabels (set_lastEvent (Some event) ui)) with (volumeLabels ui).
  set (n := nearest formatVolumeTick (set_lastEvent (Some event) ui) (gx * resolution ui)
              nearestX (bisectCenter (prices ui) (gx * resolution ui))).
  destruct (nearest_range (set_lastEvent (Some event) ui) (gx * resolution ui) nearestX
              (bisectCenter (prices ui) (gx * resolution ui)) Hin) as [Hb Hs].
  fold n in Hb, Hs. change (prices (set_lastEvent (Some event) ui)) with (prices ui) in Hb, Hs.
  simpl.
  split; [repeat split|]. split; [repeat split|]. split.
  - intros Hshown. unfold buy_shown in Hshown.
    apply andb_true_iff in Hshown. destruct Hshown as [_ Hm].
    apply negb_true_iff in Hm. apply Z.eqb_neq in Hm.
    split; apply at_index_is_Some; lia.
  - intros Hshown. unfold sell_shown in Hshown.
    apply andb_true_iff in Hshown. destruct Hshown as [_ Hm].
    apply negb_true_iff in Hm. apply Z.eqb_neq in Hm.
    split; apply at_index_is_Some; lia.
Qed.

Lemma onPointerMove_keeps_sides (event : InteractionEvent) (ui : UI) :
  Qeq_bool (_indicativePrice ui) 0 = false ->
  side_overlays (onPointerMove event ui) = side_overlays ui.
Proof.
  intros Hi. unfold Pointer.onPointerMove.
  destruct (touch_device ui); [reflexivity|].
  destruct (data event) as [[gx gy]|]; [|reflexivity].
  cbv zeta.
  destruct (negb (Qeq_bool gx 0) && _); [|reflexivity].
  change (_indicativePrice (set_lastEvent (Some event) ui)) with (_indicativePrice ui).
  rewrite Hi. reflexivity.
Qed.

(** X19. In auction mode no pointer move touches the overlays of the two
    sides: whatever series of pointer moves happens while the indicative
    price is not 0, the indicators, the shaded rectangles and the six labels
    of the buy and sell sides stay as they were, shown if they were shown
    when the auction began. *)
Theorem side_overlays_stay_in_auction (events : list InteractionEvent) (ui : UI) :
  Qeq_bool (_indicativePrice ui) 0 = false ->
  side_overlays (pointer_moves events ui) = side_overlays ui.
Proof.
  revert ui. induction events as [|event events IH]; intros ui Hi; [reflexivity|].
  change (pointer_moves (event :: events) ui)
    with (pointer_moves events (onPointerMove event ui)).
  destruct (onPointerMove_frame event ui) as [_ Hs].
  rewrite IH.
  - apply onPointerMove_keeps_sides. exact Hi.
  - unfold settings in Hs. injection Hs as -> _ _ _ _. exact Hi.
Qed.

End PointerFrames.

Section PointerFrameExamples.

Import Bisect Pointer PointerView.
Local Open Scope Q_scope.

(** X9 at the example chart: both sides are shown, then the data is
    replaced by no data at all. *)
Lemma update_few_prices_witness :
  side_overlays (Pointer.update example_format example_find no_data example_shown)
    = side_overlays example_shown /\
  auction_overlays (Pointer.update example_format example_find no_data example_shown)
    = auction_overlays example_shown /\
  rendered (Pointer.update example_format example_find no_data example_shown)
    = rendered example_shown /\
  lastEvent (Pointer.update example_format example_find no_data example_shown)
    = lastEvent example_shown.
Proof.
  apply (update_few_prices example_format example_find no_data example_shown).
  simpl. lia.
Defined.

Example stale_overlays_shown :
  buyIndicator (Pointer.update example_format example_find no_data example_shown) = true /\
  prices (Pointer.update example_format example_find no_data example_shown) = [].
Proof. split; reflexivity. Qed.

(** X10 at the example: the auction has ended with its overlays shown; the
    pointer moves, leaves, and the data is updated. *)
Lemma auction_overlays_stay_witness :
  auction_overlays
    (acts example_format example_find
       [Move (pointer_at 32 3); Out; Update example_data; ClearPrice] example_after_auction)
    = auction_overlays example_after_auction /\
  delaunay_built
    (acts example_format example_find
       [Move (pointer_at 32 3); Out; Update example_data; ClearPrice] example_after_auction)
    = delaunay_built example_after_auction.
Proof.
  apply (auction_overlays_stay example_format example_find
           [Move (pointer_at 32 3); Out; Update example_data; ClearPrice] example_after_auction).
  reflexivity.
Defined.

Example auction_overlays_still_shown :
  auctionIndicator
    (acts example_format example_find
       [Move (pointer_at 32 3); Out; Update example_data; ClearPrice] example_after_auction)
    = true.
Proof. reflexivity. Qed.

(** X11 at the example chart with the pointer at the pixel 32. *)
Lemma shown_side_has_labels_witness :
  let ui' := Pointer.onPointerMove example_format example_find (pointer_at 32 3)
               (example_ui example_labels) in
  (buyOverlay ui' = buyIndicator ui' /\ visible (buyPriceText ui') = buyIndicator ui' /\
   visible (buyVolumeText ui') = buyIndicator ui' /\
   visible (buyVolRatioText ui') = buyIndicator ui') /\
  (sellOverlay ui' = sellIndicator ui' /\ visible (sellPriceText ui') = sellIndicator ui' /\
   visible (sellVolumeText ui') = sellIndicator ui' /\
   visible (sellVolRatioText ui') = sellIndicator ui') /\
  (buyIndicator ui' = true ->
     is_Some (text (buyPriceText ui')) /\ is_Some (text (buyVolumeText ui'))) /\
  (sellIndicator ui' = true ->
     is_Some (text (sellPriceText ui')) /\ is_Some (text (sellVolumeText ui'))).
Proof.
  apply (shown_side_has_labels example_format example_find
           (example_ui example_labels) (pointer_at 32 3) 32 3).
  - reflexivity.
  - reflexivity.
  - reflexivity.
  - reflexivity.
  - simpl. lia.
  - reflexivity.
  - reflexivity.
Defined.

(** X19 at the example: both sides are shown when the auction begins; the
    pointer moves next to a point, then away from every point. *)
Lemma side_overlays_stay_in_auction_witness :
  side_overlays
    (pointer_moves example_format example_find [pointer_at 12 6; pointer_at 700 500]
       example_in_auction)
  = side_overlays example_in_auction.
Proof.
  apply (side_overlays_stay_in_auction example_format example_find
           [pointer_at 12 6; pointer_at 700 500] example_in_auction).
  reflexivity.
Defined.

Example sides_shown_in_auction :
  buyIndicator (pointer_moves example_format example_find [pointer_at 12 6] example_in_auction)
    = true /\
  auctionIndicator (pointer_moves example_format example_find [pointer_at 12 6] example_in_auction)
    = true.
Proof. split; vm_compute; reflexivity. Qed.

End PointerFrameExamples.

(** ** The horizontal axis: children and nodes *)

Section AxisChildren.

Import HorizontalAxis AxisLaws.

Lemma remove_first_elem (a b : addr) (l : list addr) :
  NoDup l -> (b ∈ remove_first a l <-> b ∈ l /\ b <> a).
Proof.
  induction l as [|c l IH]; intros Hnd; simpl.
  - rewrite elem_of_nil. tauto.
  - apply NoDup_cons in Hnd. destruct Hnd as [Hc Hnd].
    destruct (Nat.eqb_spec c a) as [->|Hne].
    + rewrite elem_of_cons. split.
      * intros Hb. split; [tauto|]. intros ->. contradiction.
      * intros [[->|Hb] Hn]; [congruence|exact Hb].
    + rewrite !elem_of_cons, IH by exact Hnd. split.
      * intros [->|[Hb Hn]]; [split; [tauto|congruence]|tauto].
      * intros [[->|Hb] Hn]; tauto.
Qed.

Lemma remove_first_NoDup (a : addr) (l : list addr) :
  NoDup l -> NoDup (remove_first a l).
Proof.
  induction l as [|c l IH]; intros Hnd; simpl; [exact Hnd|].
  apply NoDup_cons in Hnd. destruct Hnd as [Hc Hnd].
  destruct (Nat.eqb_spec c a); [exact Hnd|].
  apply NoDup_cons. split; [|auto].
  intros Hin. apply remove_first_elem in Hin; tauto.
Qed.

Lemma remove_first_length (a : addr) (l : list addr) :
  a ∈ l -> S (length (remove_first a l)) = length l.
Proof.
  induction l as [|c l IH]; intros Hin; simpl.
  - inversion Hin.
  - destruct (Nat.eqb_spec c a) as [->|Hne]; [reflexivity|].
    apply elem_of_cons in Hin. destruct Hin as [->|Hin]; [congruence|].
    simpl. rewrite IH by exact Hin. reflexivity.
Qed.

(** The laws speak of the caches, the children and the next free address
    only. *)
Lemma good_same_caches (axis axis' : t) :
  nodeByKeyValue axis' = nodeByKeyValue axis ->
  tmByKeyValue axis' = tmByKeyValue axis ->
  children axis' = children axis ->
  next axis' = next axis ->
  good axis -> good axis'.
Proof.
  intros Hn Ht Hc Hx. unfold good, tidy, paired, bar_free.
  rewrite Hn, Ht, Hc, Hx. tauto.
Qed.

Lemma good_create : good create.
Proof.
  assert (Hno : forall (V : Type) (k : string) (v : V), (∅ : gmap string V) !! k = Some v -> False).
  { intros V k v H. rewrite lookup_empty in H. discriminate. }
  unfold good, tidy, paired, bar_free, create; simpl.
  split; [|split].
  - split; [constructor|]. split; [rewrite map_size_empty; reflexivity|].
    split; [intros k a H; exfalso; eauto|].
    split; [intros k m [? H]; exfalso; eauto|].
    split; [intros k1 k2 a H; exfalso; eauto|].
    split; [intros k1 k2 m [? H]; exfalso; eauto|].
    split; [intros k1 k2 a H; exfalso; eauto|].
    intros a H. inversion H.
  - intros k [? H]. exfalso. eauto.
  - intros k [? H]. exfalso. eauto.
Qed.

Variables (AXIS_HEIGHT FONT_SIZE : Q).
Variables (scale : Scale.t) (width height resolution : Q) (textSecondary : N).

Local Abbreviation fmt := (tickFormat scale width resolution).
Local Abbreviation labels := (tickFormat scale width resolution <$> ticks scale width resolution).
Local Abbreviation enter_step :=
  (enter_step AXIS_HEIGHT FONT_SIZE scale width height resolution textSecondary).
Local Abbreviation update_step :=
  (update_step AXIS_HEIGHT scale width height resolution textSecondary).
Local Abbreviation update :=
  (update AXIS_HEIGHT FONT_SIZE scale width height resolution textSecondary).

(** The parts of the axis after one turn of the loop over [enter]. *)
Lemma enter_step_parts (axis : t) (tick : Q) :
  nodeByKeyValue (enter_step axis tick) = <[fmt tick := next axis]> (nodeByKeyValue axis) /\
  tmByKeyValue (enter_step axis tick) = <[tm_key (fmt tick) := S (next axis)]> (tmByKeyValue axis) /\
  children (enter_step axis tick) = children axis ++ [next axis; S (next axis)] /\
  next (enter_step axis tick) = S (S (next axis)).
Proof.
  unfold HorizontalAxis.enter_step. simpl. rewrite <- app_assoc. repeat split.
Qed.

Lemma enter_step_good (axis : t) (tick : Q) :
  good axis ->
  nodeByKeyValue axis !! fmt tick = None ->
  ends_with_bar (fmt tick) = false ->
  good (enter_step axis tick) /\
  size (nodeByKeyValue (enter_step axis tick)) = S (size (nodeByKeyValue axis)).
Proof.
  intros (Ht & Hp & Hb) Hnew Hbar.
  destruct Ht as (Hnd & Hlen & Hn & Htm & Hin & Hit & Hdis & Hlt).
  destruct (enter_step_parts axis tick) as (En & Et & Ec & Ex).
  assert (Hfresh1 : next axis ∉ children axis).
  { intros H. apply Hlt in H. lia. }
  assert (Hfresh2 : S (next axis) ∉ children axis).
  { intros H. apply Hlt in H. lia. }
  assert (Hsize : size (nodeByKeyValue (enter_step axis tick)) = S (size (nodeByKeyValue axis))).
  { rewrite En. apply map_size_insert_None. exact Hnew. }
  split; [|exact Hsize].
  assert (Hnode : forall k a, nodeByKeyValue (enter_step axis tick) !! k = Some a ->
            (k = fmt tick /\ a = next axis) \/ (k <> fmt tick /\ nodeByKeyValue axis !! k = Some a)).
  { intros k a. rewrite En. destruct (decide (k = fmt tick)) as [->|Hne].
    - rewrite lookup_insert_eq. intros H. injection H as <-. auto.
    - rewrite lookup_insert_ne by congruence. auto. }
  assert (Hmark : forall k m, tmByKeyValue (enter_step axis tick) !! tm_key k = Some m ->
            (k = fmt tick /\ m = S (next axis)) \/
            (k <> fmt tick /\ tmByKeyValue axis !! tm_key k = Some m)).
  { intros k m. rewrite Et. destruct (decide (k = fmt tick)) as [->|Hne].
    - rewrite lookup_insert_eq. intros H. injection H as <-. auto.
    - rewrite lookup_insert_ne by (intros E; apply tm_key_inj in E; congruence). auto. }
  assert (Hsome : forall k, is_Some (nodeByKeyValue (enter_step axis tick) !! k) ->
            k = fmt tick \/ is_Some (nodeByKeyValue axis !! k)).
  { intros k [a Ha]. destruct (Hnode k a Ha) as [[-> _]|[_ H]]; eauto. }
  split; [|split].
  - unfold tidy. rewrite Ec, Ex, Hsize.
    split; [|split; [|split; [|split; [|split; [|split; [|split]]]]]].
    + apply NoDup_app. split; [exact Hnd|]. split.
      * intros a Ha Hin'. apply Hlt in Ha.
        apply elem_of_cons in Hin'. destruct Hin' as [->|Hin']; [lia|].
        apply elem_of_cons in Hin'. destruct Hin' as [->|Hin']; [lia|inversion Hin'].
      * apply NoDup_cons. split; [|apply NoDup_singleton].
        rewrite elem_of_cons, elem_of_nil. lia.
    + rewrite length_app. simpl. lia.
    + intros k a Ha. rewrite elem_of_app.
      destruct (Hnode k a Ha) as [[_ ->]|[_ H]]; [right; left|left; eauto].
    + intros k m Hk Hm. rewrite elem_of_app.
      destruct (Hmark k m Hm) as [[_ ->]|[Hne H]].
      * right. right. left.
      * left. destruct (Hsome k Hk) as [->|Hk']; [congruence|eauto].
    + intros k1 k2 a H1 H2.
      destruct (Hnode k1 a H1) as [[-> ->]|[N1 O1]];
        destruct (Hnode k2 _ H2) as [[-> E]|[N2 O2]]; try reflexivity.
      * apply Hn in O2. contradiction.
      * subst a. apply Hn in O1. contradiction.
      * eauto.
    + intros k1 k2 m S1 S2 H1 H2.
      destruct (Hmark k1 m H1) as [[-> ->]|[N1 O1]];
        destruct (Hmark k2 _ H2) as [[-> E]|[N2 O2]]; try reflexivity.
      * destruct (Hsome k2 S2) as [->|S2']; [congruence|].
        apply (Htm k2) in O2; [contradiction|exact S2'].
      * subst m. destruct (Hsome k1 S1) as [->|S1']; [congruence|].
        apply (Htm k1) in O1; [contradiction|exact S1'].
      * destruct (Hsome k1 S1) as [->|S1']; [congruence|].
        destruct (Hsome k2 S2) as [->|S2']; [congruence|]. eauto.
    + intros k1 k2 a H1 S2 H2.
      destruct (Hnode k1 a H1) as [[-> ->]|[N1 O1]];
        destruct (Hmark k2 _ H2) as [[-> E]|[N2 O2]].
      * lia.
      * destruct (Hsome k2 S2) as [->|S2']; [congruence|].
        apply (Htm k2) in O2; [contradiction|exact S2'].
      * subst a. apply Hn in O1. contradiction.
      * destruct (Hsome k2 S2) as [->|S2']; [congruence|]. eauto.
    + intros a Ha. apply elem_of_app in Ha. destruct Ha as [Ha|Ha].
      * apply Hlt in Ha. lia.
      * apply elem_of_cons in Ha. destruct Ha as [->|Ha]; [lia|].
        apply elem_of_cons in Ha. destruct Ha as [->|Ha]; [lia|inversion Ha].
  - intros k Hk. rewrite Et. destruct (Hsome k Hk) as [->|Hk'].
    + rewrite lookup_insert_eq. eauto.
    + destruct (decide (k = fmt tick)) as [->|Hne]; [rewrite lookup_insert_eq; eauto|].
      rewrite lookup_insert_ne by (intros E; apply tm_key_inj in E; congruence).
      apply Hp. exact Hk'.
  - intros k Hk. destruct (Hsome k Hk) as [->|Hk']; [exact Hbar|apply Hb; exact Hk'].
Qed.

(** The parts of the axis after one turn of the loop over [exit]. *)
Lemma exit_step_parts (axis : t) (e : string) (a m : addr) :
  nodeByKeyValue axis !! e = Some a ->
  tmByKeyValue axis !! tm_key e = Some m ->
  nodeByKeyValue (exit_step axis e) = delete e (nodeByKeyValue axis) /\
  tmByKeyValue (exit_step axis e) = delete e (tmByKeyValue axis) /\
  children (exit_step axis e) = remove_first m (remove_first a (children axis)) /\
  next (exit_step axis e) = next axis /\
  store (exit_step axis e) = store axis.
Proof.
  intros Ha Hm. unfold exit_step. rewrite Ha, Hm. simpl. repeat split.
Qed.

Lemma exit_step_good (axis : t) (e : string) :
  good axis ->
  is_Some (nodeByKeyValue axis !! e) ->
  good (exit_step axis e) /\
  S (size (nodeByKeyValue (exit_step axis e))) = size (nodeByKeyValue axis).
Proof.
  intros (Ht & Hp & Hb) He.
  destruct Ht as (Hnd & Hlen & Hn & Htm & Hin & Hit & Hdis & Hlt).
  destruct He as [a Ha]. destruct (Hp e) as [m Hm]; [eauto|].
  destruct (exit_step_parts axis e a m Ha Hm) as (En & Et & Ec & Ex & _).
  assert (Hebar : ends_with_bar e = false) by (apply Hb; eauto).
  assert (Hma : m <> a).
  { intros Eq. rewrite Eq in Hm. exact (Hdis e e a Ha (ex_intro _ a Ha) Hm). }
  assert (Ha_in : a ∈ children axis) by exact (Hn e a Ha).
  assert (Hm_in : m ∈ remove_first a (children axis)).
  { apply remove_first_elem; [exact Hnd|].
    split; [exact (Htm e m (ex_intro _ a Ha) Hm)|exact Hma]. }
  assert (Hsize : S (size (nodeByKeyValue (exit_step axis e))) = size (nodeByKeyValue axis)).
  { rewrite En, map_size_delete_Some by eauto.
    assert (size (nodeByKeyValue axis) <> 0%nat).
    { intros Hz. apply map_size_empty_inv in Hz. rewrite Hz, lookup_empty in Ha. discriminate. }
    lia. }
  split; [|exact Hsize].
  assert (Hnode : forall k b, nodeByKeyValue (exit_step axis e) !! k = Some b ->
            k <> e /\ nodeByKeyValue axis !! k = Some b).
  { intros k b. rewrite En, lookup_delete_Some. intros [H1 H2]. split; [congruence|exact H2]. }
  assert (Hsome : forall k, is_Some (nodeByKeyValue (exit_step axis e) !! k) ->
            k <> e /\ is_Some (nodeByKeyValue axis !! k)).
  { intros k [b Hk]. apply Hnode in Hk. destruct Hk. eauto. }
  assert (Hmark : forall k, tmByKeyValue (exit_step axis e) !! tm_key k =
            tmByKeyValue axis !! tm_key k).
  { intros k. rewrite Et. apply lookup_delete_ne. apply tm_key_neq. exact Hebar. }
  assert (Hchild : forall b, b ∈ children (exit_step axis e) <->
            b ∈ children axis /\ b <> a /\ b <> m).
  { intros b. rewrite Ec, remove_first_elem by (apply remove_first_NoDup; exact Hnd).
    rewrite remove_first_elem by exact Hnd. tauto. }
  split; [|split].
  - unfold tidy.
    split; [|split; [|split; [|split; [|split; [|split; [|split]]]]]].
    + rewrite Ec. apply remove_first_NoDup, remove_first_NoDup. exact Hnd.
    + rewrite Ec.
      pose proof (remove_first_length m _ Hm_in) as L1.
      pose proof (remove_first_length a _ Ha_in) as L2. lia.
    + intros k b Hk. apply Hnode in Hk. destruct Hk as [Hne Hk].
      apply Hchild. split; [exact (Hn k b Hk)|]. split.
      * intros Eq. rewrite Eq in Hk. apply Hne. exact (Hin k e a Hk Ha).
      * intros Eq. rewrite Eq in Hk. exact (Hdis k e m Hk (ex_intro _ a Ha) Hm).
    + intros k b Hk Hb'. rewrite Hmark in Hb'. apply Hsome in Hk. destruct Hk as [Hne Hk].
      apply Hchild. split; [exact (Htm k b Hk Hb')|]. split.
      * intros Eq. rewrite Eq in Hb'. exact (Hdis e k a Ha Hk Hb').
      * intros Eq. rewrite Eq in Hb'. apply Hne.
        exact (Hit k e m Hk (ex_intro _ a Ha) Hb' Hm).
    + intros k1 k2 b H1 H2. apply Hnode in H1, H2. destruct H1, H2. eauto.
    + intros k1 k2 b S1 S2 H1 H2. rewrite Hmark in H1, H2.
      apply Hsome in S1, S2. destruct S1, S2. eauto.
    + intros k1 k2 b H1 S2 H2. rewrite Hmark in H2.
      apply Hnode in H1. apply Hsome in S2. destruct H1, S2. eauto.
    + intros b Hb'. rewrite Ex. apply Hlt. apply Hchild in Hb'. tauto.
  - intros k Hk. rewrite Hmark. apply Hp. apply Hsome in Hk. tauto.
  - intros k Hk. apply Hb. apply Hsome in Hk. tauto.
Qed.

(** The loops over [enter] and over [exit] keep the laws. *)
Lemma enter_loop_good (l : list Q) (axis : t) :
  good axis ->
  NoDup (fmt <$> l) ->
  (forall tick, tick ∈ l ->
     nodeByKeyValue axis !! fmt tick = None /\ ends_with_bar (fmt tick) = false) ->
  good (foldl enter_step axis l).
Proof.
  revert axis. induction l as [|tick l IH]; intros axis Hg Hnd Hall; simpl; [exact Hg|].
  rewrite fmap_cons in Hnd. apply NoDup_cons in Hnd. destruct Hnd as [Hfirst Hnd].
  destruct (Hall tick) as [Hnew Hbar]; [left|].
  destruct (enter_step_good axis tick Hg Hnew Hbar) as [Hg' _].
  apply IH; [exact Hg'|exact Hnd|].
  intros t Ht. destruct (Hall t) as [Hn Hb]; [right; exact Ht|]. split; [|exact Hb].
  destruct (enter_step_parts axis tick) as (En & _). rewrite En.
  rewrite lookup_insert_ne; [exact Hn|].
  intros E. apply Hfirst. rewrite E. apply list_elem_of_fmap_2. exact Ht.
Qed.

Lemma exit_loop_good (l : list string) (axis : t) :
  good axis ->
  NoDup l ->
  (forall e, e ∈ l -> is_Some (nodeByKeyValue axis !! e)) ->
  good (foldl exit_step axis l).
Proof.
  revert axis. induction l as [|e l IH]; intros axis Hg Hnd Hall; simpl; [exact Hg|].
  apply NoDup_cons in Hnd. destruct Hnd as [Hfirst Hnd].
  assert (He : is_Some (nodeByKeyValue axis !! e)) by (apply Hall; left).
  destruct (exit_step_good axis e Hg He) as [Hg' _].
  apply IH; [exact Hg'|exact Hnd|].
  intros e' He'. destruct He as [a Ha]. destruct Hg as (_ & Hp & _).
  destruct (Hp e) as [m Hm]; [eauto|].
  destruct (exit_step_parts axis e a m Ha Hm) as (En & _). rewrite En.
  apply lookup_delete_is_Some. split; [|apply Hall; right; exact He'].
  intros ->. contradiction.
Qed.

Lemma NoDup_fmap_filter {A B : Type} (f : A -> B) (P : A -> Prop)
    `{forall x, Decision (P x)} (l : list A) :
  NoDup (f <$> l) -> NoDup (f <$> filter P l).
Proof.
  induction l as [|x l IH]; intros Hnd; [constructor|].
  rewrite fmap_cons in Hnd. apply NoDup_cons in Hnd. destruct Hnd as [Hx Hnd].
  rewrite filter_cons. destruct (decide (P x)); [|auto].
  rewrite fmap_cons. apply NoDup_cons. split; [|auto].
  intros Hin. apply Hx. apply list_elem_of_fmap in Hin. destruct Hin as (y & -> & Hy).
  apply list_elem_of_filter in Hy. apply list_elem_of_fmap_2. tauto.
Qed.

(** X12. The children of the axis follow the ticks. From an axis that obeys
    the state laws (a new axis does), and with formatted ticks that are
    pairwise different and do not end with a bar, [update] runs to its end,
    keeps the laws, and leaves exactly two children for each tick: its
    label node and its tick mark, which are different nodes. The nodes of
    the ticks that left are no longer children. *)
Theorem update_children (axis : t) :
  good axis ->
  NoDup labels ->
  (forall k, k ∈ labels -> ends_with_bar k = false) ->
  exists axis',
    update axis = Some axis' /\
    good axis' /\
    length (children axis') = (2 * length (ticks scale width resolution))%nat /\
    forall tick, tick ∈ ticks scale width resolution ->
      exists a m,
        nodeByKeyValue axis' !! fmt tick = Some a /\
        tmByKeyValue axis' !! tm_key (fmt tick) = Some m /\
        a ∈ children axis' /\ m ∈ children axis' /\ a <> m.
Proof.
  intros Hg Hnd Hfree.
  set (ax1 := foldl enter_step axis (enter scale width resolution axis)).
  assert (Hg1 : good ax1).
  { apply enter_loop_good; [exact Hg| |].
    - unfold enter. apply NoDup_fmap_filter. exact Hnd.
    - intros tick Ht. apply elem_of_enter in Ht. destruct Ht as [Hno Ht]. split.
      + destruct (nodeByKeyValue axis !! fmt tick) eqn:E; [|reflexivity].
        exfalso. apply Hno. eauto.
      + apply Hfree. apply list_elem_of_fmap_2. exact Ht. }
  destruct (update_loop AXIS_HEIGHT scale width height resolution textSecondary
              (update_ticks scale width resolution axis) ax1)
    as (ax2 & Hrun & Hn2 & Ht2 & Hc2 & Hx2).
  { intros tick Ht. apply elem_of_update_ticks in Ht.
    assert (Hs : is_Some (nodeByKeyValue ax1 !! fmt tick)).
    { apply enter_loop_node. tauto. }
    split; [exact Hs|]. destruct Hg1 as (_ & Hp1 & _). apply Hp1. exact Hs. }
  assert (Hg2 : good ax2) by (apply (good_same_caches ax1 ax2); assumption).
  set (ax3 := foldl exit_step ax2 (exit scale width resolution axis)).
  assert (Hg3 : good ax3).
  { apply exit_loop_good; [exact Hg2| |].
    - unfold exit. apply NoDup_filter, NoDup_elements.
    - intros e He. apply elem_of_exit in He. destruct He as [_ He].
      rewrite Hn2. apply enter_loop_node. left. exact He. }
  assert (Hupd : update axis = Some ax3).
  { unfold HorizontalAxis.update. fold ax1. rewrite Hrun. reflexivity. }
  exists ax3. split; [exact Hupd|]. split; [exact Hg3|].
  pose proof (update_label_keys AXIS_HEIGHT FONT_SIZE scale width height resolution
                textSecondary axis ax3 Hupd) as Hkeys.
  pose proof (update_node_count AXIS_HEIGHT FONT_SIZE scale width height resolution
                textSecondary axis ax3 Hnd Hupd) as Hcount.
  destruct Hg3 as (Ht3 & Hp3 & _).
  destruct Ht3 as (_ & Hlen & Hn & Htm & _ & _ & Hdis & _).
  split; [rewrite Hlen, Hcount; reflexivity|].
  intros tick Ht.
  assert (Hs : is_Some (nodeByKeyValue ax3 !! fmt tick)).
  { apply Hkeys. apply list_elem_of_fmap_2. exact Ht. }
  destruct Hs as [a Ha]. destruct (Hp3 (fmt tick)) as [m Hm]; [eauto|].
  exists a, m. split; [exact Ha|]. split; [exact Hm|].
  split; [exact (Hn _ _ Ha)|]. split; [exact (Htm _ _ (ex_intro _ a Ha) Hm)|].
  intros Eq. rewrite <- Eq in Hm. exact (Hdis _ _ _ Ha (ex_intro _ a Ha) Hm).
Qed.

(** *** The attributes of the nodes *)

Local Abbreviation placed :=
  (AxisLaws.placed AXIS_HEIGHT scale width height resolution textSecondary).

Lemma good_below (axis : t) :
  good axis ->
  (forall k a, nodeByKeyValue axis !! k = Some a -> (a < next axis)%nat) /\
  (forall k m, is_Some (nodeByKeyValue axis !! k) ->
     tmByKeyValue axis !! tm_key k = Some m -> (m < next axis)%nat).
Proof.
  intros ((_ & _ & Hn & Htm & _ & _ & _ & Hlt) & _). split.
  - intros k a Ha. apply Hlt. exact (Hn k a Ha).
  - intros k m Hk Hm. apply Hlt. exact (Htm k m Hk Hm).
Qed.

Lemma stored_create : stored create.
Proof.
  split.
  - intros k a H. simpl in H. rewrite lookup_empty in H. discriminate.
  - intros k m [a H]. simpl in H. rewrite lookup_empty in H. discriminate.
Qed.

Lemma enter_step_store (axis : t) (tick : Q) :
  exists na nm,
    store (enter_step axis tick) =
      <[S (next axis) := nm]> (<[next axis := na]> (store axis)) /\
    label_placed AXIS_HEIGHT scale width height resolution textSecondary tick na /\
    mark_placed AXIS_HEIGHT scale height resolution tick nm.
Proof.
  eexists. eexists. split; [reflexivity|]. split; repeat split.
Qed.

Lemma enter_step_placed (axis : t) (tick : Q) :
  good axis -> stored axis ->
  stored (enter_step axis tick) /\
  placed (enter_step axis tick) tick /\
  (forall t', fmt t' <> fmt tick -> placed axis t' -> placed (enter_step axis tick) t') /\
  (forall b, (b < next axis)%nat -> store (enter_step axis tick) !! b = store axis !! b).
Proof.
  intros Hg [Hs1 Hs2].
  destruct (good_below axis Hg) as [Hba Hbm].
  destruct (enter_step_parts axis tick) as (En & Et & _ & _).
  destruct (enter_step_store axis tick) as (na & nm & Es & Hna & Hnm).
  assert (Hold : forall b, (b < next axis)%nat ->
            store (enter_step axis tick) !! b = store axis !! b).
  { intros b Hb. rewrite Es, !lookup_insert_ne by lia. reflexivity. }
  assert (Ha : store (enter_step axis tick) !! next axis = Some na).
  { rewrite Es, lookup_insert_ne by lia. apply lookup_insert_eq. }
  assert (Hm : store (enter_step axis tick) !! S (next axis) = Some nm).
  { rewrite Es. apply lookup_insert_eq. }
  split; [|split; [|split]].
  - split.
    + intros k a Hk. rewrite En in Hk. destruct (decide (k = fmt tick)) as [->|Hne].
      * rewrite lookup_insert_eq in Hk. injection Hk as <-.
        exists na. split; [exact Ha|]. destruct Hna as (Htxt & _). exact Htxt.
      * rewrite lookup_insert_ne in Hk by congruence.
        rewrite Hold by (eapply Hba; exact Hk). exact (Hs1 k a Hk).
    + intros k m Hk Hkm. rewrite En in Hk. rewrite Et in Hkm.
      destruct (decide (k = fmt tick)) as [->|Hne].
      * rewrite lookup_insert_eq in Hkm. injection Hkm as <-.
        exists nm. split; [exact Hm|]. destruct Hnm as (Htxt & _). exact Htxt.
      * rewrite lookup_insert_ne in Hk by congruence.
        rewrite lookup_insert_ne in Hkm by (intros E; apply tm_key_inj in E; congruence).
        rewrite Hold by (eapply Hbm; eassumption). exact (Hs2 k m Hk Hkm).
  - exists (next axis), (S (next axis)), na, nm. rewrite En, Et, !lookup_insert_eq.
    split; [reflexivity|]. split; [reflexivity|]. split; [exact Ha|].
    split; [exact Hm|]. split; assumption.
  - intros t' Hne (a & m & na' & nm' & Ha' & Hm' & Hsa & Hsm & Hpa & Hpm).
    exists a, m, na', nm'. rewrite En, Et.
    rewrite lookup_insert_ne by congruence.
    rewrite lookup_insert_ne by (intros E; apply tm_key_inj in E; congruence).
    split; [exact Ha'|]. split; [exact Hm'|].
    split; [rewrite <- Hsa; apply Hold; eapply Hba; exact Ha'|].
    split; [rewrite <- Hsm; apply Hold; eapply Hbm; eauto|]. split; assumption.
  - exact Hold.
Qed.

Lemma enter_loop_placed (l : list Q) (axis : t) :
  good axis -> stored axis ->
  NoDup (fmt <$> l) ->
  (forall tick, tick ∈ l ->
     nodeByKeyValue axis !! fmt tick = None /\ ends_with_bar (fmt tick) = false) ->
  stored (foldl enter_step axis l) /\
  (forall t, t ∈ l -> placed (foldl enter_step axis l) t) /\
  (forall t', fmt t' ∉ fmt <$> l -> placed axis t' -> placed (foldl enter_step axis l) t') /\
  (forall b, (b < next axis)%nat -> store (foldl enter_step axis l) !! b = store axis !! b) /\
  (forall k, is_Some (nodeByKeyValue axis !! k) ->
     nodeByKeyValue (foldl enter_step axis l) !! k = nodeByKeyValue axis !! k /\
     tmByKeyValue (foldl enter_step axis l) !! tm_key k = tmByKeyValue axis !! tm_key k).
Proof.
  revert axis. induction l as [|tick l IH]; intros axis Hg Hs Hnd Hall.
  - simpl. split; [exact Hs|]. split; [intros t Ht; inversion Ht|].
    split; [auto|]. split; auto.
  - change (foldl enter_step axis (tick :: l)) with (foldl enter_step (enter_step axis tick) l).
    rewrite fmap_cons in Hnd. apply NoDup_cons in Hnd. destruct Hnd as [Hfirst Hnd].
    destruct (Hall tick) as [Hnew Hbar]; [left|].
    destruct (enter_step_good axis tick Hg Hnew Hbar) as [Hg1 _].
    destruct (enter_step_placed axis tick Hg Hs) as (Hs1 & Hp1 & Hf1 & Hst1).
    destruct (enter_step_parts axis tick) as (En & Et & _ & Ex).
    destruct (IH (enter_step axis tick) Hg1 Hs1 Hnd) as (Hs2 & Hp2 & Hf2 & Hst2 & Hk2).
    { intros t Ht. destruct (Hall t) as [Hn Hb]; [right; exact Ht|]. split; [|exact Hb].
      rewrite En. rewrite lookup_insert_ne; [exact Hn|].
      intros E. apply Hfirst. rewrite E. apply list_elem_of_fmap_2. exact Ht. }
    split; [exact Hs2|]. split; [|split; [|split]].
    + intros t Ht. apply elem_of_cons in Ht. destruct Ht as [->|Ht].
      * apply Hf2; [exact Hfirst|exact Hp1].
      * apply Hp2. exact Ht.
    + intros t' Hno Hp. rewrite fmap_cons, not_elem_of_cons in Hno. destruct Hno as [Hne Hno].
      apply Hf2; [exact Hno|]. apply Hf1; [exact Hne|exact Hp].
    + intros b Hb. rewrite Hst2 by (rewrite Ex; lia). apply Hst1. exact Hb.
    + intros k Hk.
      assert (Hne : k <> fmt tick).
      { intros ->. rewrite Hnew in Hk. destruct Hk as [? Hk]. discriminate. }
      destruct (Hk2 k) as [E1 E2].
      { rewrite En, lookup_insert_ne by congruence. exact Hk. }
      rewrite E1, E2, En, Et. rewrite lookup_insert_ne by congruence.
      rewrite lookup_insert_ne by (intros E; apply tm_key_inj in E; congruence).
      split; reflexivity.
Qed.

Lemma update_step_store (axis : t) (tick : Q) (a m : addr) :
  nodeByKeyValue axis !! fmt tick = Some a ->
  tmByKeyValue axis !! tm_key (fmt tick) = Some m ->
  exists fl fm,
    update_step axis tick = Some (mutate m fm (mutate a fl axis)) /\
    (forall n, Text.text (fl n) = Text.text n /\ Text.fill (fl n) = textSecondary /\
       Text.x (fl n) = Scale.apply scale tick /\
       Text.y (fl n) = (height - (resolution * AXIS_HEIGHT) / 2 + 5)%Q) /\
    (forall n, Text.text (fm n) = Text.text n /\ Text.fill (fm n) = Text.fill n /\
       Text.x (fm n) = Scale.apply scale tick /\
       Text.y (fm n) = (height - (resolution * AXIS_HEIGHT) / 2 - 5)%Q).
Proof.
  intros Ha Hm. unfold HorizontalAxis.update_step. rewrite Ha.
  cbn [tmByKeyValue mutate]. rewrite Hm.
  eexists. eexists. split; [reflexivity|]. split; intros n; repeat split.
Qed.

Lemma update_step_placed (axis : t) (tick : Q) :
  good axis -> stored axis ->
  is_Some (nodeByKeyValue axis !! fmt tick) ->
  exists axis', update_step axis tick = Some axis' /\
    stored axis' /\
    placed axis' tick /\
    (forall t', fmt t' <> fmt tick -> placed axis t' -> placed axis' t').
Proof.
  intros Hg [Hs1 Hs2] [a Ha].
  pose proof Hg as ((_ & _ & _ & _ & Hni & Hti & Hdis & _) & Hp & _).
  destruct (Hp (fmt tick)) as [m Hm]; [eauto|].
  assert (Ham : a <> m).
  { intros ->. exact (Hdis _ _ _ Ha (ex_intro _ m Ha) Hm). }
  destruct (Hs1 _ _ Ha) as (na & Hna & Htxa).
  destruct (Hs2 _ _ (ex_intro _ a Ha) Hm) as (nm & Hnm & Htxm).
  destruct (update_step_store axis tick a m Ha Hm) as (fl & fm & Hrun & Hfl & Hfm).
  exists (mutate m fm (mutate a fl axis)). split; [exact Hrun|].
  assert (Hsa : alter fm m (alter fl a (store axis)) !! a = Some (fl na)).
  { rewrite lookup_alter_ne by congruence. rewrite lookup_alter_eq, Hna. reflexivity. }
  assert (Hsm : alter fm m (alter fl a (store axis)) !! m = Some (fm nm)).
  { rewrite lookup_alter_eq, lookup_alter_ne by congruence. rewrite Hnm. reflexivity. }
  assert (Htext : forall b n, store axis !! b = Some n ->
            exists n', alter fm m (alter fl a (store axis)) !! b = Some n' /\
                       Text.text n' = Text.text n).
  { intros b n Hb. destruct (decide (b = m)) as [->|Hbm].
    - exists (fm nm). split; [exact Hsm|]. rewrite Hnm in Hb. injection Hb as <-. apply Hfm.
    - rewrite lookup_alter_ne by congruence. destruct (decide (b = a)) as [->|Hba].
      + rewrite lookup_alter_eq, Hb. eexists. split; [reflexivity|]. apply Hfl.
      + rewrite lookup_alter_ne by congruence. eauto. }
  split; [|split].
  - split.
    + intros k b Hk. simpl in Hk. destruct (Hs1 k b Hk) as (n & Hn & Ht).
      destruct (Htext b n Hn) as (n' & Hn' & Ht'). exists n'. split; [exact Hn'|congruence].
    + intros k b Hk Hkm. simpl in Hk, Hkm. destruct (Hs2 k b Hk Hkm) as (n & Hn & Ht).
      destruct (Htext b n Hn) as (n' & Hn' & Ht'). exists n'. split; [exact Hn'|congruence].
  - exists a, m, (fl na), (fm nm). simpl.
    split; [exact Ha|]. split; [exact Hm|]. split; [exact Hsa|]. split; [exact Hsm|].
    destruct (Hfl na) as (E1 & E2 & E3 & E4). destruct (Hfm nm) as (F1 & F2 & F3 & F4).
    split.
    + split; [congruence|]. split; [exact E3|]. split; [exact E4|exact E2].
    + split; [congruence|]. split; [exact F3|exact F4].
  - intros t' Hne (a' & m' & na' & nm' & Ha' & Hm' & Hsa' & Hsm' & Hpa & Hpm).
    exists a', m', na', nm'. simpl.
    assert (a' <> a) by (intros ->; apply Hne; exact (Hni _ _ _ Ha' Ha)).
    assert (m' <> m).
    { intros ->. apply Hne. exact (Hti _ _ _ (ex_intro _ a' Ha') (ex_intro _ a Ha) Hm' Hm). }
    assert (a' <> m) by (intros ->; exact (Hdis _ _ _ Ha' (ex_intro _ a Ha) Hm)).
    assert (m' <> a) by (intros ->; exact (Hdis _ _ _ Ha (ex_intro _ a' Ha') Hm')).
    rewrite !lookup_alter_ne by congruence.
    split; [exact Ha'|]. split; [exact Hm'|]. split; [exact Hsa'|].
    split; [exact Hsm'|]. split; assumption.
Qed.

Lemma update_loop_placed (l : list Q) (axis : t) :
  good axis -> stored axis ->
  NoDup (fmt <$> l) ->
  (forall t, t ∈ l -> is_Some (nodeByKeyValue axis !! fmt t)) ->
  exists axis', for_each update_step axis l = Some axis' /\
    stored axis' /\
    (forall t, t ∈ l -> placed axis' t) /\
    (forall t', fmt t' ∉ fmt <$> l -> placed axis t' -> placed axis' t').
Proof.
  revert axis. induction l as [|tick l IH]; intros axis Hg Hs Hnd Hall.
  - exists axis. split; [reflexivity|]. split; [exact Hs|].
    split; [intros t Ht; inversion Ht|auto].
  - rewrite fmap_cons in Hnd. apply NoDup_cons in Hnd. destruct Hnd as [Hfirst Hnd].
    destruct (update_step_placed axis tick Hg Hs) as (axis1 & Hrun & Hs1 & Hp1 & Hf1);
      [apply Hall; left|].
    destruct (update_step_caches _ _ _ _ _ _ _ _ _ Hrun) as (En & Et & Ec & Ex).
    assert (Hg1 : good axis1) by (apply (good_same_caches axis axis1); assumption).
    destruct (IH axis1 Hg1 Hs1 Hnd) as (axis2 & Hrun2 & Hs2 & Hp2 & Hf2).
    { intros t Ht. rewrite En. apply Hall. right. exact Ht. }
    exists axis2. split; [simpl; rewrite Hrun; exact Hrun2|]. split; [exact Hs2|]. split.
    + intros t Ht. apply elem_of_cons in Ht. destruct Ht as [->|Ht].
      * apply Hf2; [exact Hfirst|exact Hp1].
      * apply Hp2. exact Ht.
    + intros t' Hno Hp. rewrite fmap_cons, not_elem_of_cons in Hno. destruct Hno as [Hne Hno].
      apply Hf2; [exact Hno|]. apply Hf1; [exact Hne|exact Hp].
Qed.

Lemma update_step_fill (axis axis' : t) (tick : Q) (b : addr) :
  update_step axis tick = Some axis' ->
  nodeByKeyValue axis !! fmt tick <> Some b ->
  Text.fill <$> store axis' !! b = Text.fill <$> store axis !! b.
Proof.
  unfold HorizontalAxis.update_step.
  destruct (nodeByKeyValue axis !! fmt tick) as [a|]; [|discriminate].
  cbn [tmByKeyValue mutate].
  destruct (tmByKeyValue axis !! tm_key (fmt tick)) as [m|]; [|discriminate].
  intros H Hb. injection H as <-. simpl.
  assert (Hab : a <> b) by congruence.
  destruct (decide (m = b)) as [->|Hmb].
  - rewrite lookup_alter_eq, lookup_alter_ne by exact Hab.
    destruct (store axis !! b); reflexivity.
  - rewrite !lookup_alter_ne by assumption. reflexivity.
Qed.

Lemma update_loop_fill (l : list Q) (axis axis' : t) (b : addr) :
  for_each update_step axis l = Some axis' ->
  (forall k, nodeByKeyValue axis !! k <> Some b) ->
  Text.fill <$> store axis' !! b = Text.fill <$> store axis !! b.
Proof.
  revert axis. induction l as [|tick l IH]; intros axis; simpl.
  - intros H _. injection H as <-. reflexivity.
  - destruct (update_step axis tick) as [axis1|] eqn:E; [|discriminate].
    intros Hrun Hb.
    destruct (update_step_caches _ _ _ _ _ _ _ _ _ E) as (En & _).
    rewrite (IH axis1 Hrun) by (intros k; rewrite En; apply Hb).
    apply (update_step_fill axis axis1 tick b E). apply Hb.
Qed.

Lemma exit_step_placed (axis : t) (e : string) :
  good axis -> stored axis ->
  is_Some (nodeByKeyValue axis !! e) ->
  stored (exit_step axis e) /\
  (forall t', fmt t' <> e -> placed axis t' -> placed (exit_step axis e) t') /\
  store (exit_step axis e) = store axis.
Proof.
  intros Hg [Hs1 Hs2] [a Ha].
  pose proof Hg as (_ & Hp & Hb).
  destruct (Hp e) as [m Hm]; [eauto|].
  assert (Hbar : ends_with_bar e = false) by (apply Hb; eauto).
  destruct (exit_step_parts axis e a m Ha Hm) as (En & Et & _ & _ & Es).
  split; [|split; [|exact Es]].
  - split.
    + intros k b Hk. rewrite En in Hk. apply lookup_delete_Some in Hk. destruct Hk as [_ Hk].
      rewrite Es. exact (Hs1 k b Hk).
    + intros k b Hk Hkm. rewrite En in Hk. rewrite Et in Hkm.
      apply lookup_delete_is_Some in Hk. destruct Hk as [_ Hk].
      apply lookup_delete_Some in Hkm. destruct Hkm as [_ Hkm].
      rewrite Es. exact (Hs2 k b Hk Hkm).
  - intros t' Hne (a' & m' & na' & nm' & Ha' & Hm' & Hsa' & Hsm' & Hpa & Hpm).
    exists a', m', na', nm'. rewrite En, Et, Es.
    rewrite lookup_delete_ne by congruence.
    rewrite lookup_delete_ne by (apply tm_key_neq; exact Hbar).
    split; [exact Ha'|]. split; [exact Hm'|]. split; [exact Hsa'|].
    split; [exact Hsm'|]. split; assumption.
Qed.

Lemma exit_loop_placed (l : list string) (axis : t) :
  good axis -> stored axis ->
  NoDup l ->
  (forall e, e ∈ l -> is_Some (nodeByKeyValue axis !! e)) ->
  stored (foldl exit_step axis l) /\
  (forall t', fmt t' ∉ l -> placed axis t' -> placed (foldl exit_step axis l) t') /\
  store (foldl exit_step axis l) = store axis.
Proof.
  revert axis. induction l as [|e l IH]; intros axis Hg Hs Hnd Hall.
  - simpl. split; [exact Hs|]. split; auto.
  - change (foldl exit_step axis (e :: l)) with (foldl exit_step (exit_step axis e) l).
    apply NoDup_cons in Hnd. destruct Hnd as [Hfirst Hnd].
    assert (He : is_Some (nodeByKeyValue axis !! e)) by (apply Hall; left).
    destruct (exit_step_good axis e Hg He) as [Hg1 _].
    destruct (exit_step_placed axis e Hg Hs He) as (Hs1 & Hf1 & Hst1).
    destruct (IH (exit_step axis e) Hg1 Hs1 Hnd) as (Hs2 & Hf2 & Hst2).
    { intros e' He'. destruct He as [a Ha]. destruct Hg as (_ & Hp & _).
      destruct (Hp e) as [m Hm]; [eauto|].
      destruct (exit_step_parts axis e a m Ha Hm) as (En & _). rewrite En.
      apply lookup_delete_is_Some. split; [|apply Hall; right; exact He'].
      intros ->. contradiction. }
    split; [exact Hs2|]. split.
    + intros t' Hno Hp. rewrite not_elem_of_cons in Hno. destruct Hno as [Hne Hno].
      apply Hf2; [exact Hno|]. apply Hf1; [exact Hne|exact Hp].
    + rewrite Hst2. exact Hst1.
Qed.

(** The whole call, from an axis that obeys the state laws. *)
Lemma update_whole (axis : t) :
  good axis -> stored axis ->
  NoDup labels ->
  (forall k, k ∈ labels -> ends_with_bar k = false) ->
  exists axis',
    update axis = Some axis' /\
    good axis' /\
    stored axis' /\
    (forall tick, tick ∈ ticks scale width resolution -> placed axis' tick) /\
    (forall tick a m, tick ∈ ticks scale width resolution ->
       nodeByKeyValue axis !! fmt tick = Some a ->
       tmByKeyValue axis !! tm_key (fmt tick) = Some m ->
       nodeByKeyValue axis' !! fmt tick = Some a /\
       tmByKeyValue axis' !! tm_key (fmt tick) = Some m /\
       Text.fill <$> store axis' !! m = Text.fill <$> store axis !! m).
Proof.
  intros Hg Hs Hnd Hfree.
  set (ax1 := foldl enter_step axis (enter scale width resolution axis)).
  assert (Hnd1 : NoDup (fmt <$> enter scale width resolution axis)).
  { unfold enter. apply NoDup_fmap_filter. exact Hnd. }
  assert (Hen : forall tick, tick ∈ enter scale width resolution axis ->
            nodeByKeyValue axis !! fmt tick = None /\ ends_with_bar (fmt tick) = false).
  { intros tick Ht. apply elem_of_enter in Ht. destruct Ht as [Hno Ht]. split.
    - destruct (nodeByKeyValue axis !! fmt tick) eqn:E; [|reflexivity].
      exfalso. apply Hno. eauto.
    - apply Hfree. apply list_elem_of_fmap_2. exact Ht. }
  assert (Hg1 : good ax1) by (apply enter_loop_good; assumption).
  destruct (enter_loop_placed (enter scale width resolution axis) axis Hg Hs Hnd1 Hen)
    as (Hs1 & Hp1 & _ & Hst1 & Hk1).
  fold ax1 in Hs1, Hp1, Hst1, Hk1.
  destruct (update_loop_placed (update_ticks scale width resolution axis) ax1 Hg1 Hs1)
    as (ax2 & Hrun & Hs2 & Hp2 & Hf2).
  { unfold update_ticks. apply NoDup_fmap_filter. exact Hnd. }
  { intros t Ht. apply elem_of_update_ticks in Ht. apply enter_loop_node. tauto. }
  destruct (for_each_caches _ _ _ _ _ _ _ _ _ Hrun) as (En2 & Et2 & Ec2 & Ex2).
  assert (Hg2 : good ax2) by (apply (good_same_caches ax1 ax2); assumption).
  set (ax3 := foldl exit_step ax2 (exit scale width resolution axis)).
  assert (Hndx : NoDup (exit scale width resolution axis)).
  { unfold exit. apply NoDup_filter, NoDup_elements. }
  assert (Hex : forall e, e ∈ exit scale width resolution axis ->
            is_Some (nodeByKeyValue ax2 !! e)).
  { intros e He. apply elem_of_exit in He. destruct He as [_ He].
    rewrite En2. apply enter_loop_node. left. exact He. }
  assert (Hg3 : good ax3) by (apply exit_loop_good; assumption).
  destruct (exit_loop_placed (exit scale width resolution axis) ax2 Hg2 Hs2 Hndx Hex)
    as (Hs3 & Hf3 & Hst3).
  fold ax3 in Hs3, Hf3, Hst3.
  assert (Hstay : forall tick, tick ∈ ticks scale width resolution ->
            fmt tick ∉ exit scale width resolution axis).
  { intros tick Ht He. apply elem_of_exit in He. destruct He as [He _].
    apply He. apply list_elem_of_fmap_2. exact Ht. }
  exists ax3. split.
  { unfold HorizontalAxis.update. fold ax1. rewrite Hrun. reflexivity. }
  split; [exact Hg3|]. split; [exact Hs3|]. split.
  - intros tick Ht. apply Hf3; [apply Hstay; exact Ht|].
    destruct (decide (is_Some (nodeByKeyValue axis !! fmt tick))) as [Hc|Hc].
    + apply Hp2. apply elem_of_update_ticks. tauto.
    + apply Hf2; [|apply Hp1; apply elem_of_enter; tauto].
      intros Hin. apply list_elem_of_fmap in Hin. destruct Hin as (t & E & Ht').
      apply elem_of_update_ticks in Ht'. rewrite E in Hc. tauto.
  - intros tick a m Ht Ha Hm.
    assert (Hc : is_Some (nodeByKeyValue axis !! fmt tick)) by eauto.
    destruct (Hk1 (fmt tick) Hc) as [E1 E2].
    pose proof Hg as (_ & _ & Hbf).
    split; [|split].
    + unfold ax3. rewrite exit_loop_node, decide_False by (apply Hstay; exact Ht).
      rewrite En2, E1. exact Ha.
    + unfold ax3. rewrite exit_loop_tm, decide_False.
      * rewrite Et2, E2. exact Hm.
      * intros He. apply elem_of_exit in He. destruct He as [_ He].
        apply Hbf in He. rewrite ends_with_bar_tm_key in He. discriminate.
    + rewrite Hst3.
      rewrite (update_loop_fill _ ax1 ax2 m Hrun).
      * apply f_equal. apply Hst1. destruct (good_below axis Hg) as [_ Hbm].
        exact (Hbm _ _ Hc Hm).
      * intros k Hk.
        destruct Hg1 as ((_ & _ & _ & _ & _ & _ & Hdis & _) & _).
        apply (Hdis k (fmt tick) m Hk).
        { rewrite E1. exact Hc. }
        { rewrite E2. exact Hm. }
Qed.

(** X13. The attributes of the nodes follow the call. From an axis that
    obeys the state laws, and with plain labels, [update] runs to its end
    and leaves every tick placed: its label node shows the formatted tick
    at the position of the tick on the scale, at the height of the labels
    and in the colour of the call; its tick mark shows a bar at the same
    position, at the height of the tick marks. *)
Theorem update_places_ticks (axis : t) :
  good axis -> stored axis ->
  NoDup labels ->
  (forall k, k ∈ labels -> ends_with_bar k = false) ->
  exists axis',
    update axis = Some axis' /\
    forall tick, tick ∈ ticks scale width resolution -> placed axis' tick.
Proof.
  intros Hg Hs Hnd Hfree.
  destruct (update_whole axis Hg Hs Hnd Hfree) as (axis' & Hrun & _ & _ & Hp & _).
  exists axis'. split; [exact Hrun|exact Hp].
Qed.

(** X14. The tick mark of a tick that stays keeps its colour. For a tick of
    the call whose label was cached before, the call keeps the label node
    and the tick mark, gives the label node the colour of the call, and
    leaves the colour of the tick mark as it was. *)
Theorem update_keeps_mark_fill (axis : t) :
  good axis -> stored axis ->
  NoDup labels ->
  (forall k, k ∈ labels -> ends_with_bar k = false) ->
  exists axis',
    update axis = Some axis' /\
    forall tick a m nm, tick ∈ ticks scale width resolution ->
      nodeByKeyValue axis !! fmt tick = Some a ->
      tmByKeyValue axis !! tm_key (fmt tick) = Some m ->
      store axis !! m = Some nm ->
      exists na' nm',
        nodeByKeyValue axis' !! fmt tick = Some a /\
        tmByKeyValue axis' !! tm_key (fmt tick) = Some m /\
        store axis' !! a = Some na' /\
        store axis' !! m = Some nm' /\
        Text.fill na' = textSecondary /\
        Text.fill nm' = Text.fill nm.
Proof.
  intros Hg Hs Hnd Hfree.
  destruct (update_whole axis Hg Hs Hnd Hfree) as (axis' & Hrun & _ & _ & Hp & Hk).
  exists axis'. split; [exact Hrun|].
  intros tick a m nm Ht Ha Hm Hnm.
  destruct (Hk tick a m Ht Ha Hm) as (Ha' & Hm' & Hfill).
  destruct (Hp tick Ht) as (a2 & m2 & na' & nm' & Ha2 & Hm2 & Hsa & Hsm & Hpa & _).
  rewrite Ha' in Ha2. injection Ha2 as <-. rewrite Hm' in Hm2. injection Hm2 as <-.
  exists na', nm'. split; [exact Ha'|]. split; [exact Hm'|]. split; [exact Hsa|].
  split; [exact Hsm|]. split; [apply Hpa|].
  rewrite Hsm, Hnm in Hfill. simpl in Hfill. congruence.
Qed.

End AxisChildren.

Section AxisCalls.

Import HorizontalAxis AxisLaws.

Variables (AXIS_HEIGHT FONT_SIZE : Q).

Local Abbreviation updates := (updates AXIS_HEIGHT FONT_SIZE).

Lemma updates_app (cs1 cs2 : list Call) (axis : t) :
  updates (cs1 ++ cs2) axis =
  match updates cs1 axis with
  | Some axis' => updates cs2 axis'
  | None => None
  end.
Proof.
  revert axis. induction cs1 as [|c cs1 IH]; intros axis; simpl; [reflexivity|].
  destruct (call_update AXIS_HEIGHT FONT_SIZE c axis); [apply IH|reflexivity].
Qed.

Lemma updates_laws (cs : list Call) (axis : t) :
  good axis -> stored axis ->
  Forall plain_labels cs ->
  exists axis', updates cs axis = Some axis' /\ good axis' /\ stored axis'.
Proof.
  intros Hg Hs Hall. revert axis Hg Hs.
  induction Hall as [|c cs [Hnd Hfree] Hall IH]; intros axis Hg Hs.
  - exists axis. auto.
  - destruct (update_whole AXIS_HEIGHT FONT_SIZE (call_scale c) (call_width c)
                (call_height c) (call_resolution c) (call_textSecondary c)
                axis Hg Hs Hnd Hfree) as (axis1 & Hrun & Hg1 & Hs1 & _).
    destruct (IH axis1 Hg1 Hs1) as (axis2 & Hrun2 & Hg2 & Hs2).
    exists axis2. split; [|auto]. simpl. unfold call_update. rewrite Hrun. exact Hrun2.
Qed.

(** X15. The axis follows the last call. After any sequence of calls of
    [update] with plain labels on a new axis, every call has run to its
    end, the axis has two children for each tick of the last call, and every
    tick of the last call is placed as that call asks, whatever the calls
    before it showed. *)
Theorem updates_follow_last_call (cs : list Call) (c : Call) :
  Forall plain_labels (cs ++ [c]) ->
  exists axis',
    updates (cs ++ [c]) create = Some axis' /\
    length (children axis') =
      (2 * length (ticks (call_scale c) (call_width c) (call_resolution c)))%nat /\
    forall tick, tick ∈ ticks (call_scale c) (call_width c) (call_resolution c) ->
      placed AXIS_HEIGHT (call_scale c) (call_width c) (call_height c)
        (call_resolution c) (call_textSecondary c) axis' tick.
Proof.
  intros Hall. apply Forall_app in Hall. destruct Hall as [Hcs Hc].
  apply Forall_cons in Hc. destruct Hc as [[Hnd Hfree] _].
  destruct (updates_laws cs create good_create stored_create Hcs) as (axis1 & Hrun1 & Hg1 & Hs1).
  destruct (update_whole AXIS_HEIGHT FONT_SIZE (call_scale c) (call_width c)
              (call_height c) (call_resolution c) (call_textSecondary c)
              axis1 Hg1 Hs1 Hnd Hfree) as (axis2 & Hrun2 & Hg2 & _ & Hp & _).
  exists axis2. split; [|split; [|exact Hp]].
  - rewrite updates_app, Hrun1. simpl. unfold call_update. rewrite Hrun2. reflexivity.
  - destruct Hg2 as ((_ & Hlen & _) & _). rewrite Hlen. f_equal.
    exact (update_node_count AXIS_HEIGHT FONT_SIZE (call_scale c) (call_width c)
             (call_height c) (call_resolution c) (call_textSecondary c) axis1 axis2 Hnd Hrun2).
Qed.

End AxisCalls.

Section AxisChildrenExamples.
Import HorizontalAxis AxisLaws.

Lemma update_children_witness :
  exists axis',
    update 50 12 (fixed_scale (fun q => q) [1%Q; 2%Q; 3%Q] small_format) 800 600 1 7%N create
      = Some axis' /\
    good axis' /\
    length (children axis') = (2 * 3)%nat /\
    forall tick, tick ∈ [1%Q; 2%Q; 3%Q] ->
      exists a m,
        nodeByKeyValue axis' !! small_format tick = Some a /\
        tmByKeyValue axis' !! tm_key (small_format tick) = Some m /\
        a ∈ children axis' /\ m ∈ children axis' /\ a <> m.
Proof.
  apply (update_children 50 12
           (fixed_scale (fun q => q) [1%Q; 2%Q; 3%Q] small_format) 800 600 1 7%N create).
  - exact good_create.
  - change (NoDup ["1"; "2"; "3"]). distinct_strings.
  - intros k Hk. change (k ∈ ["1"; "2"; "3"]) in Hk. each_string Hk.
Defined.

Lemma plain_first_call : plain_labels first_call.
Proof.
  split.
  - change (NoDup ["1"; "2"]). distinct_strings.
  - intros k Hk. change (k ∈ ["1"; "2"]) in Hk. each_string Hk.
Qed.

Lemma plain_second_call : plain_labels second_call.
Proof.
  split.
  - change (NoDup ["2"; "3"]). distinct_strings.
  - intros k Hk. change (k ∈ ["2"; "3"]) in Hk. each_string Hk.
Qed.

Lemma first_axis_laws : good first_axis /\ stored first_axis.
Proof.
  destruct plain_first_call as [Hnd Hfree].
  destruct (update_whole 50 12 (call_scale first_call) (call_width first_call)
              (call_height first_call) (call_resolution first_call)
              (call_textSecondary first_call) create good_create stored_create Hnd Hfree)
    as (axis1 & Hrun & Hg & Hs & _).
  unfold first_axis, call_update. rewrite Hrun. simpl. split; assumption.
Qed.

Lemma update_places_ticks_witness :
  exists axis',
    call_update 50 12 second_call first_axis = Some axis' /\
    forall tick, tick ∈ [2%Q; 3%Q] ->
      placed 50 (call_scale second_call) 800 600 1 255%N axis' tick.
Proof.
  destruct first_axis_laws as [Hg Hs]. destruct plain_second_call as [Hnd Hfree].
  exact (update_places_ticks 50 12 (call_scale second_call) 800 600 1 255%N
           first_axis Hg Hs Hnd Hfree).
Defined.

Lemma update_keeps_mark_fill_witness :
  exists axis',
    call_update 50 12 second_call first_axis = Some axis' /\
    forall tick a m nm, tick ∈ [2%Q; 3%Q] ->
      nodeByKeyValue first_axis !! small_format tick = Some a ->
      tmByKeyValue first_axis !! tm_key (small_format tick) = Some m ->
      store first_axis !! m = Some nm ->
      exists na' nm',
        nodeByKeyValue axis' !! small_format tick = Some a /\
        tmByKeyValue axis' !! tm_key (small_format tick) = Some m /\
        store axis' !! a = Some na' /\
        store axis' !! m = Some nm' /\
        Text.fill na' = 255%N /\
        Text.fill nm' = Text.fill nm.
Proof.
  destruct first_axis_laws as [Hg Hs]. destruct plain_second_call as [Hnd Hfree].
  exact (update_keeps_mark_fill 50 12 (call_scale second_call) 800 600 1 255%N
           first_axis Hg Hs Hnd Hfree).
Defined.

Lemma updates_follow_last_call_witness :
  exists axis',
    updates 50 12 [first_call; second_call] create = Some axis' /\
    length (children axis') = 4%nat /\
    forall tick, tick ∈ [2%Q; 3%Q] ->
      placed 50 (call_scale second_call) 800 600 1 255%N axis' tick.
Proof.
  apply (updates_follow_last_call 50 12 [first_call] second_call).
  apply Forall_cons_2; [exact plain_first_call|].
  apply Forall_cons_2; [exact plain_second_call|apply Forall_nil_2].
Defined.

(** The second call of the examples on the axis of the first: the label
    node of tick 2 takes the new colour, its tick mark keeps the colour of
    the first call. *)
Example second_call_colours :
  exists axis' na nm,
    call_update 50 12 second_call first_axis = Some axis' /\
    store axis' !! 2%nat = Some na /\ store axis' !! 3%nat = Some nm /\
    nodeByKeyValue axis' !! "2" = Some 2%nat /\
    tmByKeyValue axis' !! "2|" = Some 3%nat /\
    Text.fill na = 255%N /\ Text.fill nm = 8421504%N.
Proof.
  eexists. eexists. eexists. split; [vm_compute; reflexivity|].
  split; [vm_compute; reflexivity|]. split; [vm_compute; reflexivity|].
  split; [vm_compute; reflexivity|]. split; [vm_compute; reflexivity|].
  split; reflexivity.
Qed.

End AxisChildrenExamples.
(** ** The pointer handler: the width of the plot *)

Section PlotWidth.

Import Pointer.
Local Open Scope Q_scope.

Variable formatVolumeTick : Q -> string.

Lemma insert_by_length_elem (s x : string) (l : list string) :
  x ∈ insert_by_length s l <-> x = s \/ x ∈ l.
Proof.
  induction l as [|s' l IH]; simpl.
  - rewrite list_elem_of_singleton, elem_of_nil. tauto.
  - destruct (String.length s' <? String.length s)%nat.
    + rewrite elem_of_cons. tauto.
    + rewrite !elem_of_cons, IH. tauto.
Qed.

Lemma insert_by_length_head (s : string) (l : list string) :
  (forall h t, l = h :: t ->
     forall x, x ∈ l -> (String.length x <= String.length h)%nat) ->
  forall h t, insert_by_length s l = h :: t ->
    forall x, x ∈ insert_by_length s l -> (String.length x <= String.length h)%nat.
Proof.
  intros Hl h t E x Hx. apply insert_by_length_elem in Hx.
  destruct l as [|s' rest]; simpl in E.
  - injection E as <- <-. destruct Hx as [->|Hx]; [lia|inversion Hx].
  - pose proof (Hl s' rest eq_refl) as Hmax.
    destruct (Nat.ltb_spec (String.length s') (String.length s)) as [Hlt|Hge];
      injection E as <- <-.
    + destruct Hx as [->|Hx]; [lia|]. apply Hmax in Hx. lia.
    + destruct Hx as [->|Hx]; [lia|]. apply Hmax. exact Hx.
Qed.

Lemma sort_by_length_elem (x : string) (l : list string) :
  x ∈ sort_by_length l <-> x ∈ l.
Proof.
  unfold sort_by_length. rewrite <- (elem_of_reverse x l).
  induction (reverse l) as [|s r IH]; simpl; [reflexivity|].
  rewrite insert_by_length_elem, elem_of_cons, IH. reflexivity.
Qed.

Lemma sort_by_length_head (l : list string) (h : string) (t : list string) :
  sort_by_length l = h :: t ->
  h ∈ l /\ forall x, x ∈ l -> (String.length x <= String.length h)%nat.
Proof.
  intros E. split.
  - apply sort_by_length_elem. rewrite E. left.
  - intros x Hx. apply sort_by_length_elem in Hx. revert h t E x Hx.
    unfold sort_by_length. induction (reverse l) as [|s r IH]; simpl.
    + intros h t E. discriminate.
    + apply insert_by_length_head. exact IH.
Qed.

(** X16. The width of the plot leaves room for the longest volume label.
    The handler sorts the formatted ticks of the volume scale by length and
    reads the first: the width it computes is the width of the view less
    eight pixels, at the resolution of the renderer, for each character of a
    longest label and for 0.8 character more. Without any tick the width is
    not a number. *)
Theorem plot_width_longest (ui : UI) :
  let labels :=
    formatVolumeTick <$>
    Scale.ticks (volumeScale ui) (view_height ui / resolution ui / 50) in
  match plot_width formatVolumeTick ui with
  | Some w =>
      exists s, s ∈ labels /\
        (forall s', s' ∈ labels -> (String.length s' <= String.length s)%nat) /\
        w = view_width ui -
            resolution ui * 8 * (inject_Z (Z.of_nat (String.length s)) + (8 # 10))
  | None => labels = []
  end.
Proof.
  intros labels. unfold plot_width. cbv zeta. fold labels.
  destruct (sort_by_length labels) as [|h t] eqn:E; simpl.
  - apply elem_of_nil_inv. intros x Hx. apply sort_by_length_elem in Hx.
    rewrite E in Hx. inversion Hx.
  - destruct (sort_by_length_head labels h t E) as [Hin Hmax].
    exists h. split; [exact Hin|]. split; [exact Hmax|reflexivity].
Qed.

End PlotWidth.
(** ** The pinch from its start *)

Section PinchRuns.

Import Zoom ZoomRun.
Local Open Scope R_scope.

(** X17. A pinch is measured from its start, not from the move before.
    Two touches are down, with records of different identifiers whose start
    points differ. After any series of [touchmove] events each record is at
    the last position that the events carried for its touch, and the
    transform is the original transform times the distance of these two
    positions over the distance of the two recorded start points, clamped
    to the scale extent: what the moves before the last one did to the
    transform, clamping included, leaves no trace. *)
Theorem pinch_from_start (es : list TouchEvent) (e : TouchEvent) (ui : UI)
    (t0 t1 : TouchRecord) :
  touch0 (gesture ui) = Some t0 ->
  touch1 (gesture ui) = Some t1 ->
  touch_identifier t0 <> touch_identifier t1 ->
  distance2 (originalPoint t0) (originalPoint t1) <> 0 ->
  exists ui',
    run (touch_moves (es ++ [e])) ui = Done ui' /\
    touch0 (gesture ui') =
      Some (set_point (position_after (touch_identifier t0) (moved (es ++ [e])) (point t0)) t0) /\
    touch1 (gesture ui') =
      Some (set_point (position_after (touch_identifier t1) (moved (es ++ [e])) (point t1)) t1) /\
    transform ui' =
      clamp (mul (originalTransform ui)
               (Real (distance
                        (position_after (touch_identifier t0) (moved (es ++ [e])) (point t0))
                        (position_after (touch_identifier t1) (moved (es ++ [e])) (point t1)) /
                      distance (originalPoint t0) (originalPoint t1))))
            (scaleExtent ui).1 (scaleExtent ui).2.
Proof.
  intros H0 H1 Hne Hdl.
  destruct (pinch_moves es e ui t0 t1 H0 H1 Hne)
    as (ui' & ks & Hrun & G0 & G1 & Gt & _).
  exists ui'. split; [exact Hrun|]. split; [exact G0|]. split; [exact G1|].
  rewrite Gt. rewrite (pinch_ratio _ _ _ _ Hdl). reflexivity.
Qed.

Lemma pinch_from_start_witness :
  exists ui',
    run (touch_moves
           ([ {| touches := []; changedTouches := [touch_at 1 300 400] |} ] ++
            [ {| touches := []; changedTouches := [touch_at 1 60 80] |} ])) example_pinch
      = Done ui' /\
    touch0 (gesture ui') =
      Some (set_point
              (position_after 0
                 (moved ([ {| touches := []; changedTouches := [touch_at 1 300 400] |} ] ++
                         [ {| touches := []; changedTouches := [touch_at 1 60 80] |} ]))
                 (pointer (touch_at 0 0 0)))
              (new_record (touch_at 0 0 0))) /\
    touch1 (gesture ui') =
      Some (set_point
              (position_after 1
                 (moved ([ {| touches := []; changedTouches := [touch_at 1 300 400] |} ] ++
                         [ {| touches := []; changedTouches := [touch_at 1 60 80] |} ]))
                 (pointer (touch_at 1 30 40)))
              (new_record (touch_at 1 30 40))) /\
    transform ui' =
      clamp (mul (originalTransform example_pinch)
               (Real (distance
                        (position_after 0
                           (moved ([ {| touches := []; changedTouches := [touch_at 1 300 400] |} ] ++
                                   [ {| touches := []; changedTouches := [touch_at 1 60 80] |} ]))
                           (pointer (touch_at 0 0 0)))
                        (position_after 1
                           (moved ([ {| touches := []; changedTouches := [touch_at 1 300 400] |} ] ++
                                   [ {| touches := []; changedTouches := [touch_at 1 60 80] |} ]))
                           (pointer (touch_at 1 30 40))) /
                      distance (pointer (touch_at 0 0 0)) (pointer (touch_at 1 30 40)))))
            (scaleExtent example_pinch).1 (scaleExtent example_pinch).2.
Proof.
  apply (pinch_from_start
           [ {| touches := []; changedTouches := [touch_at 1 300 400] |} ]
           {| touches := []; changedTouches := [touch_at 1 60 80] |}
           example_pinch
           (new_record (touch_at 0 0 0)) (new_record (touch_at 1 30 40))).
  - reflexivity.
  - reflexivity.
  - discriminate.
  - unfold distance2. simpl. lraR.
Defined.

(** The pinch of the examples after the second finger went to (300, 400)
    and came back to (60, 80): the fingers are 100 apart, they started 50
    apart, and the transform is 2. *)
Example pinch_out_and_back :
  exists ui',
    run (touch_moves
           ([ {| touches := []; changedTouches := [touch_at 1 300 400] |} ] ++
            [ {| touches := []; changedTouches := [touch_at 1 60 80] |} ])) example_pinch
      = Done ui' /\
    transform ui' = Real 2.
Proof.
  destruct (pinch_moves
              [ {| touches := []; changedTouches := [touch_at 1 300 400] |} ]
              {| touches := []; changedTouches := [touch_at 1 60 80] |}
              example_pinch (new_record (touch_at 0 0 0)) (new_record (touch_at 1 30 40)))
    as (ui' & ks & Hrun & _ & _ & Gt & _); [reflexivity|reflexivity|discriminate|].
  exists ui'. split; [exact Hrun|].
  rewrite Gt.
  rewrite pinch_ratio by (unfold distance2; simpl; lraR).
  change (distance _ _ / distance _ _)
    with (distance (pointer (touch_at 0 0 0)) (pointer (touch_at 1 60 80)) /
          distance (pointer (touch_at 0 0 0)) (pointer (touch_at 1 30 40))).
  rewrite (distance_example 0 0 60 80 100) by lraR.
  rewrite (distance_example 0 0 30 40 50) by lraR.
  simpl. num_cases; try (f_equal; lraR); exfalso; lraR.
Qed.

Lemma mul_one (x : Num) (extent : R * Bound) :
  within x extent -> mul x (Real 1) = x.
Proof.
  destruct extent as [lower upper]. unfold within, le. cbn [fst snd]. intros [Hl Hu].
  destruct x as [x| | |]; try (exfalso; unfold leb in Hl; discriminate).
  - simpl. f_equal. ring.
  - num_cases; try reflexivity; exfalso; lraR.
Qed.

(** X18. Two fingers that move together do not zoom. With two touches down
    that did not start at the same point and an original transform within
    the scale extent, a [touchmove] that carries both touches, each at its
    start point moved by the same vector, sets the transform back to the
    original transform, whatever the moves before made of it. *)
Theorem pan_keeps_transform (ui : UI) (e : TouchEvent) (t0 t1 : TouchRecord)
    (a b : Touch) (dx dy : R) :
  touch0 (gesture ui) = Some t0 ->
  touch1 (gesture ui) = Some t1 ->
  touch_identifier t0 <> touch_identifier t1 ->
  distance2 (originalPoint t0) (originalPoint t1) <> 0 ->
  within (originalTransform ui) (scaleExtent ui) ->
  changedTouches e = [a; b] ->
  identifier a = touch_identifier t0 ->
  identifier b = touch_identifier t1 ->
  pointer a = ((originalPoint t0).1 + dx, (originalPoint t0).2 + dy) ->
  pointer b = ((originalPoint t1).1 + dx, (originalPoint t1).2 + dy) ->
  exists ui',
    on_touchmove (IsTouchEvent e) ui = Done ui' /\
    transform ui' = originalTransform ui /\
    emitted ui' = emitted ui ++ [zoom (originalTransform ui)].
Proof.
  intros H0 H1 Hid Hdl Hin Hch Ha Hb Hpa Hpb.
  destruct (on_touchmove_two ui e t0 t1 H0 H1 Hid)
    as (ui' & Hrun & _ & _ & Ht & He & _).
  assert (P0 : position_after (touch_identifier t0) (changedTouches e) (point t0) = pointer a).
  { rewrite Hch. cbn [position_after]. rewrite Ha, Hb, Z.eqb_refl.
    apply Z.eqb_neq in Hid. rewrite Hid. reflexivity. }
  assert (P1 : position_after (touch_identifier t1) (changedTouches e) (point t1) = pointer b).
  { rewrite Hch. cbn [position_after]. rewrite Hb, Z.eqb_refl. reflexivity. }
  assert (Hsame : distance2 (pointer a) (pointer b) =
                  distance2 (originalPoint t0) (originalPoint t1)).
  { rewrite Hpa, Hpb. unfold distance2. simpl. ring. }
  assert (Hk : Math_sqrt (div (distance2 (pointer a) (pointer b))
                            (distance2 (originalPoint t0) (originalPoint t1))) = Real 1).
  { rewrite Hsame. unfold div. destruct (Req_dec_T _ 0) as [Hz|_]; [contradiction|].
    unfold Rdiv. rewrite Rinv_r by exact Hdl. unfold Math_sqrt.
    destruct (Rlt_dec 1 0); [exfalso; lraR|]. rewrite sqrt_1. reflexivity. }
  assert (Htr : transform ui' = originalTransform ui).
  { rewrite Ht, P0, P1, Hk, (mul_one _ _ Hin). apply clamp_inside. exact Hin. }
  exists ui'. split; [exact Hrun|]. split; [exact Htr|]. rewrite He, Htr. reflexivity.
Qed.

Lemma pan_keeps_transform_witness :
  exists ui',
    on_touchmove
      (IsTouchEvent {| touches := []; changedTouches := [touch_at 0 5 7; touch_at 1 35 47] |})
      example_pinch = Done ui' /\
    transform ui' = originalTransform example_pinch /\
    emitted ui' = emitted example_pinch ++ [zoom (originalTransform example_pinch)].
Proof.
  apply (pan_keeps_transform example_pinch
           {| touches := []; changedTouches := [touch_at 0 5 7; touch_at 1 35 47] |}
           (new_record (touch_at 0 0 0)) (new_record (touch_at 1 30 40))
           (touch_at 0 5 7) (touch_at 1 35 47) 5 7).
  - reflexivity.
  - reflexivity.
  - discriminate.
  - unfold distance2. simpl. lraR.
  - unfold within, le. simpl. split; num_cases; try reflexivity; exfalso; lraR.
  - reflexivity.
  - reflexivity.
  - reflexivity.
  - unfold pointer. simpl. f_equal; lraR.
  - unfold pointer. simpl. f_equal; lraR.
Defined.

End PinchRuns.
